(** * cspjs: channels and the task state machine

    A shallow embedding of [src/channel.js] and [src/state_machine.js].

    JavaScript objects live in a heap of cells addressed by location;
    closures are defunctionalised into the inductive type [callback];
    [nextTick] appends to a FIFO queue of deferred calls; exceptions are
    an outcome of their own.  Dynamic dispatch ([this.put], [this.take],
    [this.fill]) follows the prototype chain built by [Object.create].
    Recursion that JavaScript leaves unbounded takes a [fuel] argument.

    - [Channel]: the base channel, [buffer], [droppingBuffer],
      [expiringBuffer], [fill], [takeN], [stream], [resolve], the event
      loop, and the vocabulary of the statements about them.
    - [StateMachine]: the task runtime, with the code outside of it (the
      compiled step function, cleanup closures, the final callback) as
      trees of calls into the runtime.
    - [ChannelOps]: [canRead], [canWrite], [takeSome], [receive] and
      [resolver] with [ChannelValue].
    - [Unwinding] and [JumpTable]: vocabulary about the unwind stack, and
      the jump tables of switch statements.
    - [Debounce]: [debounce] and its timers, and [fill] on a debounced
      channel.
    - [ChannelFacts]: C1 to C5 and C8 to C10, and X22.
    - [StateMachineFacts]: C6 and C7.
    - [ChannelOpsFacts], [WrapperFacts], [ChannelOpsFacts2], [StreamFacts],
      [UnwindingFacts], [JumpTableFacts], [DebounceFacts]: further
      properties, X1 onwards. *)

From stdpp Require Import base option list strings gmap pretty.
From Stdlib Require Import ZArith Lia.

Local Open Scope Z_scope.

Module Channel.

(** ** Values and closures *)

Abbreviation loc := nat (only parsing).

Inductive value :=
| VUndefined
| VNull
| VBool (b : bool)
| VNum (n : Z)
| VStr (s : string)
| VRef (l : loc).

#[global] Instance value_eq_dec : EqDecision value.
Proof. solve_decision. Defined.

(** JavaScript truthiness ([if (err)]). *)
Definition truthy (v : value) : bool :=
  match v with
  | VUndefined | VNull => false
  | VBool b => b
  | VNum n => negb (n =? 0)
  | VStr s => negb (String.eqb s "")
  | VRef _ => true
  end.

(** The function values of the program.  [User n] is a function supplied
    by the caller; the others are the closures that channel.js creates,
    with the variables they capture. *)
#[warnings="-register-all"]
Inductive callback :=
| User (id : nat)
| chanReceiver (recursive : bool) (cb : callback)
| arrReceiver (arr : loc) (i : nat) (unresolved : loc) (recursive : bool) (cb : callback)
| objReceiver (obj : loc) (k : string) (recursive : bool) (cb : callback)
| takeN_receive (group : loc) (N : Z) (self : loc) (cb : option callback)
| stream_next (i : loc) (array : loc) (self : loc) (cb : option callback).

(** [new CBV(callback, value)] *)
Record CBV := mkCBV { _callback : option callback; _value : value }.

(** ** Channel objects *)

(** The functions that can sit in a channel's [take], [put] and [fill]
    slots. *)
Inductive take_fn :=
| take_proto                 (* Channel.prototype.take *)
| bufferedTake
| take_filled (v : value).   (* the closure installed by fill *)

Inductive put_fn :=
| put_proto                  (* Channel.prototype.put *)
| bufferedPut
| droppingPut
| expiringPut
| put_filled.                (* the closure installed by fill *)

Inductive fill_fn :=
| fill_proto                 (* Channel.prototype.fill *)
| noop.

(** Own properties of a channel object; [None] is "not an own property",
    looked up on [proto] next.  [proto = None] is [Channel.prototype]. *)
Record chanobj := mkChan {
  proto : option loc;
  _queue : option (list CBV);
  _pending : option (list callback);
  _channel : option loc;
  _bufferLength : option Z;
  own_take : option take_fn;
  own_put : option put_fn;
  own_fill : option fill_fn
}.

Inductive cell :=
| CChan (o : chanobj)
| CArr (xs : list value)
| CObj (kvs : list (string * value))
| CVar (n : Z).               (* a local variable captured by a closure *)

(** A deferred call [callback(err, value)]. *)
Record tick := Tick { t_callback : callback; t_err : value; t_value : value }.

Record state := mkState {
  heap : list cell;
  ticks : list tick;          (* the nextTick queue, oldest first *)
  log : list tick;            (* calls made to user functions, oldest first *)
  g_unresolved : Z            (* the global that resolveObject assigns *)
}.

Definition set_heap (h : list cell) (s : state) : state :=
  mkState h (ticks s) (log s) (g_unresolved s).
Definition set_ticks (t : list tick) (s : state) : state :=
  mkState (heap s) t (log s) (g_unresolved s).
Definition set_log (l : list tick) (s : state) : state :=
  mkState (heap s) (ticks s) l (g_unresolved s).
Definition set_g_unresolved (n : Z) (s : state) : state :=
  mkState (heap s) (ticks s) (log s) n.

Definition alloc (c : cell) (s : state) : loc * state :=
  (length (heap s), set_heap (heap s ++ [c]) s).

(** ** Outcomes *)

Inductive outcome (A : Type) :=
| Done (a : A) (s : state)
| Threw (e : string) (s : state)
| OutOfFuel.
Arguments Done {A} a s.
Arguments Threw {A} e s.
Arguments OutOfFuel {A}.

Definition bind {A B} (m : outcome A) (f : A → state → outcome B) : outcome B :=
  match m with
  | Done a s => f a s
  | Threw e s => Threw e s
  | OutOfFuel => OutOfFuel
  end.

Notation "'let*' x ':=' m 'in' k" := (bind m (fun x => k))
  (at level 10, x pattern, m at level 100, k at level 200).

Definition TypeError : string := "TypeError".

(** ** Deferred dispatch *)

Definition nextTick (t : tick) (s : state) : state :=
  set_ticks (ticks s ++ [t]) s.

Definition sendValue (value : value) (callback : option callback) (s : state) : state :=
  match callback with
  | Some cb => nextTick (Tick cb VNull value) s
  | None => s
  end.

Definition sendError (err : value) (callback : option callback) (s : state) : state :=
  match callback with
  | Some cb => nextTick (Tick cb err VNull) s
  | None => s
  end.

(** ** Property lookup along the prototype chain *)

Fixpoint lookup_chain {A} (field : chanobj → option A) (n : nat)
    (h : list cell) (c : loc) : option (loc * A) :=
  match n with
  | O => None
  | S n' =>
      match h !! c with
      | Some (CChan o) =>
          match field o with
          | Some a => Some (c, a)
          | None =>
              match proto o with
              | Some p => lookup_chain field n' h p
              | None => None
              end
          end
      | _ => None
      end
  end.

(** [get field s c]: the object of the chain of [c] that owns [field],
    and the field's value. *)
Definition get {A} (field : chanobj → option A) (s : state) (c : loc) : option (loc * A) :=
  lookup_chain field (length (heap s)) (heap s) c.

Definition upd_chan (f : chanobj → chanobj) (c : loc) (s : state) : state :=
  match heap s !! c with
  | Some (CChan o) => set_heap (<[c := CChan (f o)]> (heap s)) s
  | _ => s
  end.

Definition with_queue (q : list CBV) (o : chanobj) : chanobj :=
  mkChan (proto o) (Some q) (_pending o) (_channel o) (_bufferLength o)
         (own_take o) (own_put o) (own_fill o).
Definition with_pending (p : list callback) (o : chanobj) : chanobj :=
  mkChan (proto o) (_queue o) (Some p) (_channel o) (_bufferLength o)
         (own_take o) (own_put o) (own_fill o).
Definition with_methods (t : take_fn) (p : put_fn) (f : fill_fn) (o : chanobj) : chanobj :=
  mkChan (proto o) (_queue o) (_pending o) (_channel o) (_bufferLength o)
         (Some t) (Some p) (Some f).

Definition method_take (s : state) (c : loc) : take_fn :=
  match get own_take s c with Some (_, f) => f | None => take_proto end.
Definition method_put (s : state) (c : loc) : put_fn :=
  match get own_put s c with Some (_, f) => f | None => put_proto end.
Definition method_fill (s : state) (c : loc) : fill_fn :=
  match get own_fill s c with Some (_, f) => f | None => fill_proto end.

(** ** The base channel *)

(** [new Channel()] *)
Definition new_chanobj : chanobj :=
  mkChan None (Some []) (Some []) None None None None None.

Definition new_Channel (s : state) : loc * state := alloc (CChan new_chanobj) s.

(** [Channel.prototype.backlog]; [None] when [this] has no queues. *)
Definition backlog (s : state) (this : loc) : option Z :=
  match get _queue s this, get _pending s this with
  | Some (_, q), Some (_, p) => Some (Z.of_nat (length q) - Z.of_nat (length p))
  | _, _ => None
  end.

(** [Channel.prototype.take] *)
Definition Channel_take (this : loc) (callback : option callback) (s : state) : outcome unit :=
  match get _queue s this with
  | None => Threw TypeError s
  | Some (qo, q :: rest) =>
      let s := upd_chan (with_queue rest) qo s in
      let s := sendValue (_value q) (_callback q) s in
      Done tt (sendValue (_value q) callback s)
  | Some (_, []) =>
      match callback with
      | None => Done tt s
      | Some cb =>
          match get _pending s this with
          | None => Threw TypeError s
          | Some (po, p) => Done tt (upd_chan (with_pending (p ++ [cb])) po s)
          end
      end
  end.

(** [Channel.prototype.put] *)
Definition Channel_put (this : loc) (value : value) (callback : option callback)
    (s : state) : outcome unit :=
  match get _pending s this with
  | None => Threw TypeError s
  | Some (po, p :: rest) =>
      let s := upd_chan (with_pending rest) po s in
      let s := sendValue value callback s in
      Done tt (sendValue value (Some p) s)
  | Some (_, []) =>
      match get _queue s this with
      | None => Threw TypeError s
      | Some (qo, q) => Done tt (upd_chan (with_queue (q ++ [mkCBV callback value])) qo s)
      end
  end.

(** ** Dynamic dispatch: [this.take(callback)] *)

(** [xs[i]] for a JavaScript number [i]. *)
Definition index {A} (xs : list A) (i : Z) : option A :=
  if i <? 0 then None else xs !! Z.to_nat i.

Definition clear_callback (i : Z) (q : list CBV) : list CBV :=
  match index q i with
  | Some e => <[Z.to_nat i := mkCBV None (_value e)]> q
  | None => q
  end.

(** The part of [bufferedTake] after [this._channel.take(callback)]. *)
Definition bufferedTake_release (this : loc) (s : state) : outcome unit :=
  match backlog s this with
  | None => Threw TypeError s
  | Some bl =>
      match get _bufferLength s this with
      | Some (_, N) =>
          if N <=? bl then
            match get _queue s this with
            | None => Threw TypeError s
            | Some (qo, qs) =>
                match index qs (N - 1) with
                | None => Threw TypeError s
                | Some q =>
                    let s := sendValue (_value q) (_callback q) s in
                    Done tt (upd_chan (with_queue (clear_callback (N - 1) qs)) qo s)
                end
            end
          else Done tt s
      | None => Done tt s
      end
  end.

Fixpoint take (fuel : nat) (this : loc) (callback : option callback) (s : state)
    : outcome unit :=
  match fuel with
  | O => OutOfFuel
  | S fuel =>
      match method_take s this with
      | take_proto => Channel_take this callback s
      | take_filled value => Done tt (sendValue value callback s)
      | bufferedTake =>
          match get _channel s this with
          | None => Threw TypeError s
          | Some (_, ch) =>
              let* _ := take fuel ch callback s in
              bufferedTake_release this
          end
      end
  end.

(** ** Dynamic dispatch: [this.put(value, callback)] *)

(** [while (this.backlog() >= this._bufferLength) this.take();] *)
Fixpoint expire_loop (fuel : nat) (this : loc) (s : state) : outcome unit :=
  match fuel with
  | O => OutOfFuel
  | S fuel =>
      match backlog s this with
      | None => Threw TypeError s
      | Some bl =>
          match get _bufferLength s this with
          | Some (_, N) =>
              if N <=? bl then
                let* _ := take fuel this None s in
                expire_loop fuel this
              else Done tt s
          | None => Done tt s
          end
      end
  end.

(** [f.call(this, value, callback)] for the function [f] of a [put] slot. *)
Fixpoint put_with (fuel : nat) (f : put_fn) (this : loc) (value : value)
    (callback : option callback) (s : state) : outcome unit :=
  match fuel with
  | O => OutOfFuel
  | S fuel =>
      match f with
      | put_proto => Channel_put this value callback s
      | put_filled => Done tt (sendError (VStr "filled") callback s)
      | bufferedPut =>
          match backlog s this with
          | None => Threw TypeError s
          | Some bl =>
              let below :=
                match get _bufferLength s this with
                | Some (_, N) => bl <? N
                | None => false
                end in
              match get _channel s this with
              | None => Threw TypeError s
              | Some (_, ch) =>
                  if below then
                    let* _ := put_with fuel (method_put s ch) ch value None s in
                    fun s => Done tt (sendValue value callback s)
                  else put_with fuel (method_put s ch) ch value callback s
              end
          end
      | droppingPut =>
          match backlog s this with
          | None => Threw TypeError s
          | Some bl =>
              let below :=
                match get _bufferLength s this with
                | Some (_, N) => bl <? N
                | None => false
                end in
              if below then
                match get _channel s this with
                | None => Threw TypeError s
                | Some (_, ch) =>
                    let* _ := put_with fuel (method_put s ch) ch value None s in
                    fun s => Done tt (sendValue value callback s)
                end
              else
                (* Drop the value. *)
                Done tt (sendValue VNull callback s)
          end
      | expiringPut =>
          let* _ := expire_loop fuel this s in
          fun s =>
            match get _channel s this with
            | None => Threw TypeError s
            | Some (_, ch) =>
                let* _ := put_with fuel (method_put s ch) ch value None s in
                fun s => Done tt (sendValue value callback s)
            end
      end
  end.

Definition put (fuel : nat) (this : loc) (value : value) (callback : option callback)
    (s : state) : outcome unit :=
  put_with fuel (method_put s this) this value callback s.

(** ** [fill] *)

(** [while (this.backlog() < 0) origPut.call(this, value);] *)
Fixpoint fill_loop (fuel : nat) (origPut : put_fn) (this : loc) (value : value)
    (s : state) : outcome unit :=
  match fuel with
  | O => OutOfFuel
  | S fuel =>
      match backlog s this with
      | None => Threw TypeError s
      | Some bl =>
          if bl <? 0 then
            let* _ := put_with fuel origPut this value None s in
            fill_loop fuel origPut this value
          else Done tt s
      end
  end.

Definition fill_error : string :=
  "Channel::fill cannot be used after Channel::put has been called".

(** [Channel.prototype.fill] *)
Definition Channel_fill (fuel : nat) (this : loc) (value : value) (s : state)
    : outcome unit :=
  match backlog s this with
  | None => Threw TypeError s
  | Some bl =>
      if 0 <? bl then Threw fill_error s
      else
        let origPut := method_put s this in
        let s := upd_chan (with_methods (take_filled value) put_filled noop) this s in
        fill_loop fuel origPut this value s
  end.

Definition fill (fuel : nat) (this : loc) (value : value) (s : state) : outcome unit :=
  match method_fill s this with
  | fill_proto => Channel_fill fuel this value s
  | noop => Done tt s
  end.

(** ** Wrappers made by [Object.create(this)] *)

Definition buffer (this : loc) (N : Z) (s : state) : loc * state :=
  alloc (CChan (mkChan (Some this) None None (Some this) (Some N)
                       (Some bufferedTake) (Some bufferedPut) None)) s.

Definition droppingBuffer (this : loc) (N : Z) (s : state) : loc * state :=
  alloc (CChan (mkChan (Some this) None None (Some this) (Some N)
                       None (Some droppingPut) None)) s.

Definition expiringBuffer (this : loc) (N : Z) (s : state) : loc * state :=
  alloc (CChan (mkChan (Some this) None None (Some this) (Some N)
                       None (Some expiringPut) None)) s.

(** ** Closures of [takeN], [stream] and [resolve] *)

Definition set_cell (l : loc) (c : cell) (s : state) : state :=
  set_heap (<[l := c]> (heap s)) s.

(** [arr[i] = value]: JavaScript extends the array when [i] is past its end. *)
Definition array_set (xs : list value) (i : nat) (v : value) : list value :=
  if decide (i < length xs)%nat then <[i := v]> xs
  else xs ++ replicate (i - length xs) VUndefined ++ [v].

(** [obj[k]] and [obj[k] = value] on a keyed object. *)
Fixpoint obj_get (kvs : list (string * value)) (k : string) : value :=
  match kvs with
  | [] => VUndefined
  | (k', v) :: rest => if String.eqb k k' then v else obj_get rest k
  end.

Fixpoint obj_set (kvs : list (string * value)) (k : string) (v : value)
    : list (string * value) :=
  match kvs with
  | [] => [(k, v)]
  | (k', v') :: rest =>
      if String.eqb k k' then (k', v) :: rest else (k', v') :: obj_set rest k v
  end.

(** [Channel.prototype.takeN]: the body of its closure [receive]. *)
Definition takeN_receive_body (fuel : nat) (group : loc) (N : Z) (self : loc)
    (callback : option callback) (err value : value) (s : state) : outcome unit :=
  if truthy err then Done tt (sendError err callback s)
  else if decide (value = VNull) then Done tt (sendValue (VRef group) callback s)
  else
    match heap s !! group with
    | Some (CArr xs) =>
        let s := set_cell group (CArr (xs ++ [value])) s in
        if Z.of_nat (length (xs ++ [value])) <? N then
          take fuel self (Some (takeN_receive group N self callback)) s
        else Done tt (sendValue (VRef group) callback s)
    | _ => Threw TypeError s
    end.

Definition takeN (fuel : nat) (this : loc) (N : Z) (callback : option callback)
    (s : state) : outcome unit :=
  let (group, s) := alloc (CArr []) s in
  take fuel this (Some (takeN_receive group N this callback)) s.

(** [Channel.prototype.stream]: the body of its closure [next]. *)
Definition stream_next_body (fuel : nat) (i : loc) (array : loc) (self : loc)
    (callback : option callback) (s : state) : outcome unit :=
  match heap s !! i, heap s !! array with
  | Some (CVar n), Some (CArr xs) =>
      if n <? Z.of_nat (length xs) then
        let v := default VUndefined (index xs n) in
        let s := set_cell i (CVar (n + 1)) s in
        put fuel self v (Some (stream_next i array self callback)) s
      else Done tt (sendValue (VRef array) callback s)
  | _, _ => Threw TypeError s
  end.

Definition stream (fuel : nat) (this : loc) (array : loc) (callback : option callback)
    (s : state) : outcome unit :=
  let (i, s) := alloc (CVar 0) s in
  stream_next_body fuel i array this callback s.

Definition read_var (l : loc) (s : state) : Z :=
  match heap s !! l with Some (CVar n) => n | _ => 0 end.

(** [resolve], with [resolveChannel], [resolveArray] and [resolveObject]
    inlined at its three branches.  The result is the count it returns. *)
Fixpoint resolve (fuel : nat) (thing : value) (recursive : bool) (callback : callback)
    (s : state) : outcome Z :=
  match fuel with
  | O => OutOfFuel
  | S fuel =>
      match thing with
      | VRef l =>
          match heap s !! l with
          | Some (CChan _) =>
              (* resolveChannel *)
              let receiver :=
                if recursive then chanReceiver recursive callback else callback in
              let* _ := take fuel l (Some receiver) s in
              fun s => Done 1 s
          | Some (CArr xs) =>
              (* resolveArray; [unresolved] is a captured local *)
              let (unresolved, s) := alloc (CVar 0) s in
              let* _ :=
                (fix loop (n i : nat) (s : state) : outcome unit :=
                   match n with
                   | O => Done tt s
                   | S n =>
                       match heap s !! l with
                       | Some (CArr xs) =>
                           let before := read_var unresolved s in
                           let* r := resolve fuel (default VUndefined (xs !! i)) recursive
                                       (arrReceiver l i unresolved recursive callback) s in
                           fun s =>
                             loop n (S i) (set_cell unresolved (CVar (before + r)) s)
                       | _ => Threw TypeError s
                       end
                   end) (length xs) O s in
              fun s => Done (read_var unresolved s) s
          | Some (CObj kvs) =>
              (* resolveObject; [unresolved] is the global *)
              let s := set_g_unresolved 0 s in
              let* _ :=
                (fix loop (keys : list string) (s : state) : outcome unit :=
                   match keys with
                   | [] => Done tt s
                   | k :: keys =>
                       match heap s !! l with
                       | Some (CObj kvs) =>
                           let before := g_unresolved s in
                           let* r := resolve fuel (obj_get kvs k) recursive
                                       (objReceiver l k recursive callback) s in
                           fun s => loop keys (set_g_unresolved (before + r) s)
                       | _ => Threw TypeError s
                       end
                   end) (map fst kvs) s in
              fun s => Done (g_unresolved s) s
          | _ => Done 0 (sendValue thing (Some callback) s)
          end
      | _ => Done 0 (sendValue thing (Some callback) s)
      end
  end.

(** ** Calling a function value: [cb(err, value)] *)

Fixpoint invoke (fuel : nat) (cb : callback) (err value : value) (s : state)
    : outcome unit :=
  match fuel with
  | O => OutOfFuel
  | S fuel =>
      match cb with
      | User _ => Done tt (set_log (log s ++ [Tick cb err value]) s)
      | chanReceiver recursive callback =>
          let* _ := resolve fuel value recursive callback s in
          fun s => Done tt s
      | arrReceiver arr i unresolved recursive callback =>
          if recursive then
            let* _ := resolve fuel value recursive cb s in
            fun s => Done tt s
          else
            match heap s !! arr with
            | Some (CArr xs) =>
                let s := set_cell arr (CArr (array_set xs i value)) s in
                let n := read_var unresolved s - 1 in
                let s := set_cell unresolved (CVar n) s in
                if n =? 0 then invoke fuel callback VNull (VRef arr) s else Done tt s
            | _ => Threw TypeError s
            end
      | objReceiver obj k recursive callback =>
          if recursive then
            let* _ := resolve fuel value recursive cb s in
            fun s => Done tt s
          else
            match heap s !! obj with
            | Some (CObj kvs) =>
                let s := set_cell obj (CObj (obj_set kvs k value)) s in
                let n := g_unresolved s - 1 in
                let s := set_g_unresolved n s in
                if n =? 0 then invoke fuel callback VNull (VRef obj) s else Done tt s
            | _ => Threw TypeError s
            end
      | takeN_receive group N self callback =>
          takeN_receive_body fuel group N self callback err value s
      | stream_next i array self callback =>
          stream_next_body fuel i array self callback s
      end
  end.

(** ** The event loop: runs at most [n] deferred calls, oldest first *)

Fixpoint run (n : nat) (fuel : nat) (s : state) : outcome unit :=
  match n with
  | O => Done tt s
  | S n =>
      match ticks s with
      | [] => Done tt s
      | t :: rest =>
          let* _ := invoke fuel (t_callback t) (t_err t) (t_value t) (set_ticks rest s) in
          run n fuel
      end
  end.

Definition empty_state : state := mkState [] [] [] 0.

(** ** Vocabulary of the statements about channels *)

(** The object made by [new Channel()], with [q] ready and [p] waiting. *)
Definition base_chanobj (q : list CBV) (p : list callback) : chanobj :=
  mkChan None (Some q) (Some p) None None None None None.

Definition base_channel (s : state) (c : loc) (q : list CBV) (p : list callback) : Prop :=
  heap s !! c = Some (CChan (base_chanobj q p)).

(** The deferred call that [sendValue] adds for a callback, if any. *)
Definition value_tick (v : value) (cb : option callback) : list tick :=
  match cb with Some f => [Tick f VNull v] | None => [] end.

Definition error_tick (e : value) (cb : option callback) : list tick :=
  match cb with Some f => [Tick f e VNull] | None => [] end.

(** The operations of C4, and sequences of them on one channel. *)
Inductive op :=
| op_put (value : value) (callback : option callback)
| op_take (callback : option callback).

Definition apply_op (fuel : nat) (c : loc) (o : op) (s : state) : outcome unit :=
  match o with
  | op_put v cb => put fuel c v cb s
  | op_take cb => take fuel c cb s
  end.

Fixpoint apply_ops (fuel : nat) (c : loc) (ops : list op) (s : state) : outcome unit :=
  match ops with
  | [] => Done tt s
  | o :: ops => let* _ := apply_op fuel c o s in apply_ops fuel c ops
  end.

(** [called_before t1 t2 l]: in the log [l] the call [t1] comes before [t2]. *)
Definition called_before (t1 t2 : tick) (l : list tick) : Prop :=
  ∃ l1 l2 l3, l = l1 ++ [t1] ++ l2 ++ [t2] ++ l3.

(** A producer's [put(v, ack)] meets a consumer's [take(cb)] either when
    the [put] finds [cb] as the oldest waiter, or when the [take] finds
    [(v, ack)] at the head of the ready queue. *)
Inductive pairing (s : state) (c : loc) (v : value) (ack cb : callback)
    : (state → outcome unit) → Prop :=
| pairing_at_put fuel q p :
    base_channel s c q (cb :: p) →
    pairing s c v ack cb (put (S fuel) c v (Some ack))
| pairing_at_take fuel q p :
    base_channel s c (mkCBV (Some ack) v :: q) p →
    pairing s c v ack cb (take (S fuel) c (Some cb)).

(** A channel, [take(cb)] with [cb = User 1], then [put(7, ack)] with
    [ack = User 2]. *)
Definition rendezvous : outcome unit :=
  let (c, s) := new_Channel empty_state in
  let* _ := take 1 c (Some (User 1)) s in
  fun s =>
    let* _ := put 1 c (VNum 7) (Some (User 2)) s in
    run 2 1.

(** An object made by [Object.create(c)] with [_channel] and
    [_bufferLength], and its own [take], [put] and [fill] slots. *)
Definition wrapper_with (c : loc) (N : Z) (t : option take_fn) (f : put_fn)
    (fl : option fill_fn) : chanobj :=
  mkChan (Some c) None None (Some c) (Some N) t (Some f) fl.

(** The object made by [this.expiringBuffer(N)], [this.droppingBuffer(N)]
    or [this.buffer(N)]. *)
Definition wrapper_chanobj (c : loc) (N : Z) (t : option take_fn) (f : put_fn) : chanobj :=
  wrapper_with c N t f None.

(** [this] is the base channel [c] or a wrapper made on it. *)
Inductive channel_on (s : state) (c : loc) : loc → Prop :=
| on_base : channel_on s c c
| on_buffer w N :
    heap s !! w = Some (CChan (wrapper_chanobj c N (Some bufferedTake) bufferedPut)) →
    channel_on s c w
| on_droppingBuffer w N :
    0 ≤ N →
    heap s !! w = Some (CChan (wrapper_chanobj c N None droppingPut)) →
    channel_on s c w
| on_expiringBuffer w N :
    1 ≤ N →
    heap s !! w = Some (CChan (wrapper_chanobj c N None expiringPut)) →
    channel_on s c w.

(** The [put] of a wrapper with this method and capacity passes a value
    on to a waiting taker: [buffer] always, [droppingBuffer] from capacity
    0, [expiringBuffer] from capacity 1. *)
Definition hands_over (f : put_fn) (N : Z) : Prop :=
  f = bufferedPut ∨ (f = droppingPut ∧ 0 ≤ N) ∨ (f = expiringPut ∧ 1 ≤ N).

(** A channel after [fill(v)]: its own [take], [put] and [fill] slots hold
    the closures that [fill] installs. *)
Definition filled (s : state) (c : loc) (v : value) : Prop :=
  ∃ o, heap s !! c = Some (CChan o) ∧
    own_take o = Some (take_filled v) ∧ own_put o = Some put_filled ∧
    own_fill o = Some noop.

(** [ch = new Channel(); w = ch.buffer(3); w.fill(1); ch.put(3)]; [w] is
    at location 1. *)
Definition fill_after_put : outcome unit :=
  let (ch, s) := new_Channel empty_state in
  let (w, s) := buffer ch 3 s in
  let* _ := fill 2 w (VNum 1) s in
  put 2 ch (VNum 3) None.

(** [ch = new Channel(); ch.take(cb); w = ch.droppingBuffer(N)], with [cb]
    the function [User 1]; it returns [w]. *)
Definition waiter_then_droppingBuffer (N : Z) : outcome loc :=
  let (ch, s) := new_Channel empty_state in
  let* _ := take 1 ch (Some (User 1)) s in
  fun s => let (w, s) := droppingBuffer ch N s in Done w s.

(** [ch0 = new Channel(); ch1 = new Channel(); arr = [ch0, ch1];
    Channel.resolve(arr, false, cb); ch1.put(20); ch0.put(10)], and then
    the event loop; [arr] is at location 2. *)
Definition resolve_two_channels : outcome unit :=
  let (ch0, s) := new_Channel empty_state in
  let (ch1, s) := new_Channel s in
  let (arr, s) := alloc (CArr [VRef ch0; VRef ch1]) s in
  let* _ := resolve 3 (VRef arr) false (User 1) s in
  fun s =>
    let* _ := put 1 ch1 (VNum 20) None s in
    fun s =>
      let* _ := put 1 ch0 (VNum 10) None s in
      run 5 3.

(** [ch = new Channel(); arr = [ch, 5]; Channel.resolve(arr, false, cb)]
    with [cb = User 1], and then the event loop; [ch] is at location 0 and
    [arr] at location 1. *)
Definition resolve_mixed_array : outcome unit :=
  let (ch, s) := new_Channel empty_state in
  let (arr, s) := alloc (CArr [VRef ch; VNum 5]) s in
  let* _ := resolve 3 (VRef arr) false (User 1) s in
  run 5 3.

(** [ch = new Channel(); arr = [ch]; Channel.resolve(arr, true, cb);
    ch.put(9)], before the event loop runs. *)
Definition resolve_recursive_array : outcome unit :=
  let (ch, s) := new_Channel empty_state in
  let (arr, s) := alloc (CArr [VRef ch]) s in
  let* _ := resolve 3 (VRef arr) true (User 1) s in
  put 1 ch (VNum 9) None.

(** [inner = {c: ch1}; obj = {a: ch0, b: inner};
    Channel.resolve(obj, false, cb); ch0.put(10); ch1.put(20)], and then
    the event loop; [inner] is at location 2 and [obj] at location 3. *)
Definition resolve_nested_object : outcome unit :=
  let (ch0, s) := new_Channel empty_state in
  let (ch1, s) := new_Channel s in
  let (inner, s) := alloc (CObj [("c"%string, VRef ch1)]) s in
  let (obj, s) := alloc (CObj [("a"%string, VRef ch0); ("b"%string, VRef inner)]) s in
  let* _ := resolve 4 (VRef obj) false (User 1) s in
  fun s =>
    let* _ := put 1 ch0 (VNum 10) None s in
    fun s =>
      let* _ := put 1 ch1 (VNum 20) None s in
      run 10 4.

(** The [stream]-and-[takeN] scenario.  The channel is at location 0 and
    the streamed array at 1; [group] of [takeN] and [i] of [stream] are at
    2 and 3 in the order of the two calls ([takeN_first]). *)
Definition group_loc (takeN_first : bool) : loc := if takeN_first then 2%nat else 3%nat.

Definition i_loc (takeN_first : bool) : loc := if takeN_first then 3%nat else 2%nat.

Definition receive_closure (takeN_first : bool) (cb : option callback) (xs : list value)
    : callback :=
  takeN_receive (group_loc takeN_first) (Z.of_nat (length xs)) 0%nat cb.

Definition next_closure (takeN_first : bool) (ack : option callback) : callback :=
  stream_next (i_loc takeN_first) 1%nat 0%nat ack.

Definition stream_state (takeN_first : bool) (xs group : list value) (i : Z)
    (q : list CBV) (p : list callback) (t l : list tick) : state :=
  mkState
    (if takeN_first
     then [CChan (base_chanobj q p); CArr xs; CArr group; CVar i]
     else [CChan (base_chanobj q p); CArr xs; CVar i; CArr group])
    t l 0.

(** [takeN(|xs|, cb)] and [stream(xs, ack)] on a new channel, in either
    order, and then the event loop. *)
Definition stream_and_takeN (takeN_first : bool) (cb ack : option callback)
    (xs : list value) (fuel : nat) : outcome unit :=
  let (c, s) := new_Channel empty_state in
  let (array, s) := alloc (CArr xs) s in
  let* _ :=
    if takeN_first then
      let* _ := takeN fuel c (Z.of_nat (length xs)) cb s in
      stream fuel c array ack
    else
      let* _ := stream fuel c array ack s in
      takeN fuel c (Z.of_nat (length xs)) cb in
  run (2 * length xs + 2) fuel.

(** ** Counting calls *)

(** [tally f l]: how many elements of [l] satisfy [f]. *)
Fixpoint tally {A} (f : A → bool) (l : list A) : nat :=
  match l with
  | [] => 0%nat
  | x :: l => ((if f x then 1 else 0) + tally f l)%nat
  end.

Fixpoint total_of {A} (f : A → nat) (l : list A) : nat :=
  match l with
  | [] => 0%nat
  | x :: l => (f x + total_of f l)%nat
  end.

(** [this.backlog() < this._bufferLength] *)
Definition below_capacity (s : state) (this : loc) : bool :=
  match backlog s this with
  | Some bl =>
      match get _bufferLength s this with
      | Some (_, N) => bl <? N
      | None => false
      end
  | None => false
  end.

(** The table of ack arguments, for the statement of C2: what the ack of
    [f.call(this, v, ack)] is to be called with in the state [s].  A
    filled channel answers [('filled', null)]; a dropping buffer at
    capacity answers [(null, null)]; a buffer at capacity leaves the
    answer to the channel it wraps; everything else (a base channel, a
    buffer or dropping buffer below capacity, an expiring buffer) answers
    [(null, v)]. *)
Fixpoint ack_arguments (fuel : nat) (s : state) (f : put_fn) (this : loc) (v : value)
    : value * value :=
  match fuel with
  | O => (VNull, v)
  | S fuel =>
      match f with
      | put_proto | expiringPut => (VNull, v)
      | put_filled => (VStr "filled", VNull)
      | droppingPut => if below_capacity s this then (VNull, v) else (VNull, VNull)
      | bufferedPut =>
          if below_capacity s this then (VNull, v)
          else
            match get _channel s this with
            | Some (_, ch) => ack_arguments fuel s (method_put s ch) ch v
            | None => (VNull, v)
            end
      end
  end.

Section Flow.

(** [f] selects callbacks, [g] selects calls. *)
Context (f : callback → bool) (g : tick → bool).

(** The call that a parked [(callback, value)] stands for. *)
Definition parked_call (e : CBV) : bool :=
  match _callback e with
  | Some cb => g (Tick cb VNull (_value e))
  | None => false
  end.

Definition parked_in (c : cell) : nat :=
  match c with
  | CChan o => tally parked_call (default [] (_queue o))
  | _ => 0%nat
  end.

Definition waiting_in (c : cell) : nat :=
  match c with
  | CChan o => tally f (default [] (_pending o))
  | _ => 0%nat
  end.

(** Selected calls made, deferred, or parked with a value. *)
Definition flow (s : state) : nat :=
  (tally g (log s) + tally g (ticks s) + total_of parked_in (heap s))%nat.

(** Selected callbacks parked as waiters. *)
Definition waiters (s : state) : nat := total_of waiting_in (heap s).

Definition sent (cb : option callback) (e v : value) : nat :=
  match cb with
  | Some c => if g (Tick c e v) then 1%nat else 0%nat
  | None => 0%nat
  end.

Definition after {A} (Q : state → Prop) (o : outcome A) : Prop :=
  match o with
  | Done _ s | Threw _ s => Q s
  | OutOfFuel => True
  end.

(** [cb] is not a selected callback. *)
Definition unselected (cb : option callback) : Prop :=
  match cb with Some c => f c = false | None => True end.

(** Neither the flow nor the waiters change. *)
Definition kept (s s' : state) : Prop := flow s' = flow s ∧ waiters s' = 0%nat.

(** What a [put] does to the flow: when it returns, the call
    [callback(e, v')] has joined it; when it throws, nothing has. *)
Definition put_law (s : state) (cb : option callback) (tok : value * value)
    (o : outcome unit) : Prop :=
  match o with
  | Done _ s' => flow s' = (flow s + sent cb tok.1 tok.2)%nat ∧ waiters s' = 0%nat
  | Threw _ s' => kept s s'
  | OutOfFuel => True
  end.

End Flow.

(** What a program does with channels: it makes them, wraps them, puts,
    takes and fills with functions of its own as callbacks, and lets the
    event loop make the oldest deferred call.  What a command throws, the
    program catches. *)
Inductive command :=
| new_channel
| make_buffer (c : loc) (N : Z)
| make_droppingBuffer (c : loc) (N : Z)
| make_expiringBuffer (c : loc) (N : Z)
| call_put (c : loc) (v : value) (ack : option nat)
| call_take (c : loc) (cb : option nat)
| call_fill (c : loc) (v : value)
| next_tick.

Definition user (n : option nat) : option callback :=
  match n with Some i => Some (User i) | None => None end.

Definition perform (fuel : nat) (cmd : command) (s : state) : outcome unit :=
  match cmd with
  | new_channel => Done tt (new_Channel s).2
  | make_buffer c N => Done tt (buffer c N s).2
  | make_droppingBuffer c N => Done tt (droppingBuffer c N s).2
  | make_expiringBuffer c N => Done tt (expiringBuffer c N s).2
  | call_put c v ack => put fuel c v (user ack) s
  | call_take c cb => take fuel c (user cb) s
  | call_fill c v => fill fuel c v s
  | next_tick => run 1 fuel s
  end.

Fixpoint play (fuel : nat) (cmds : list command) (s : state) : option state :=
  match cmds with
  | [] => Some s
  | cmd :: cmds =>
      match perform fuel cmd s with
      | Done _ s' | Threw _ s' => play fuel cmds s'
      | OutOfFuel => None
      end
  end.

(** The arguments owed to the ack [User a] by one command: those of the
    table, for a [put] with that ack that returns. *)
Definition due (a : nat) (fuel : nat) (cmd : command) (s : state) : list (value * value) :=
  match cmd with
  | call_put c v (Some n) =>
      if bool_decide (n = a) then
        match perform fuel cmd s with
        | Done _ _ => [ack_arguments fuel s (method_put s c) c v]
        | _ => []
        end
      else []
  | _ => []
  end.

Fixpoint dues (a : nat) (fuel : nat) (cmds : list command) (s : state)
    : list (value * value) :=
  match cmds with
  | [] => []
  | cmd :: cmds =>
      due a fuel cmd s ++
      match perform fuel cmd s with
      | Done _ s' | Threw _ s' => dues a fuel cmds s'
      | OutOfFuel => []
      end
  end.

Definition is_user (a : nat) (cb : callback) : bool :=
  match cb with User n => bool_decide (n = a) | _ => false end.

(** The call [a(k.1, k.2)]. *)
Definition call_of (a : nat) (k : value * value) (t : tick) : bool :=
  is_user a (t_callback t) && bool_decide ((t_err t, t_value t) = k).

(** How often [User a] has been called with [k], or is about to be at its
    turn in the tick queue, or will be when its parked value is taken. *)
Definition acks (a : nat) (k : value * value) (s : state) : nat := flow (call_of a k) s.

Definition not_user (cb : callback) : bool :=
  match cb with User _ => false | _ => true end.

(** Only functions of the program are in the channels and in the tick
    queue. *)
Definition plain (s : state) : Prop :=
  waiters not_user s = 0%nat ∧ flow (λ t, not_user (t_callback t)) s = 0%nat.

Section Added.

Context (g : tick → bool).

(** The selected call that a command adds to the flow. *)
Definition added (fuel : nat) (cmd : command) (s : state) : nat :=
  match cmd with
  | call_put c v ack =>
      let k := ack_arguments fuel s (method_put s c) c v in
      sent g (user ack) k.1 k.2
  | _ => 0%nat
  end.

End Added.

(** A new channel wrapped by [expiringBuffer(0)]. *)
Definition expiring_zero : state :=
  (expiringBuffer 0%nat 0 (new_Channel empty_state).2).2.

(** [ch = new Channel(); d = ch.droppingBuffer(1); d.put(1, a); d.put(2, a)]
    and two turns of the event loop, with [a = User 7]. *)
Definition dropping_twice : list command :=
  [new_channel; make_droppingBuffer 0%nat 1;
   call_put 1%nat (VNum 1) (Some 7%nat); call_put 1%nat (VNum 2) (Some 7%nat);
   next_tick; next_tick].

(** [ch = new Channel(); x = ch.expiringBuffer(1); x.put(1, a); x.put(2, b)]
    and two turns of the event loop, with [a = User 1] and [b = User 2]. *)
Definition expiring_twice : list command :=
  [new_channel; make_expiringBuffer 0%nat 1;
   call_put 1%nat (VNum 1) (Some 1%nat); call_put 1%nat (VNum 2) (Some 2%nat);
   next_tick; next_tick].

End Channel.

(** * The task runtime of [state_machine.js] *)

Module StateMachine.

Import Channel (value, VUndefined, VNull, VBool, VNum, VStr, VRef, truthy).

(** ** The state of a task *)

(** [captureStateVars()] returns the task's local variables as an array. *)
Definition locals := list value.

(** The record that [pushErrorStep] pushes:
    [{isError: true, step, retryStep, unwindPoint}]. *)
Record error_step := mkErrorStep {
  step : positive;
  retryStep : positive;
  unwindPoint : nat
}.

(** The records of the unwind stack.  Step ids are the case labels of the
    compiled step function, which start at 1; a cleanup action is named by
    its index in the program's table of actions. *)
Inductive unwind_record :=
| RestoreState (restoreState : locals)                  (* {restoreState} *)
| Retry (retry : positive)                              (* {retry} *)
| Phi (phi : positive) (saved : option locals)          (* {phi, state} *)
| ErrorStep (e : error_step)                            (* {isError: true, ...} *)
| CleanupAction (fn : nat)                              (* {cleanup: true, fn} *)
| CleanupStep (step : positive) (saved : locals).       (* {cleanup: true, step, state} *)

(** [new State()]; [strict_unwind] is undefined, hence falsy, until the
    first [goTo] or [callback] assigns it. *)
Record State := mkSt {
  id : Z;
  args : list value;
  err : value;
  unwinding : list unwind_record;       (* the top of the stack is the END of the list *)
  waiting : Z;
  isFinished : bool;
  isUnwinding : bool;
  strict_unwind : bool;
  currentErrorStep : option error_step;
  abort_with_error : value
}.

Definition new_State : State :=
  mkSt 0 [VNull; VNull] VNull [] 0 false false false None VNull.

(** What [nextTick] can hold. *)
Inductive task :=
| boundStep
| boundUnwind
| onerror_call (err : value).

(** Calls that leave the runtime.  A call of the final callback is
    recorded with its arguments and with the task state that the callee
    finds. *)
Inductive event :=
| FinalCallback (args : list value) (seen : State)
| ActionCalled (fn : nat)
| ConsoleError.

(** The closure made by [thenTo(id)] or [thenToWithErr(id)]: its target
    and its [done] flag. *)
Record latch := mkLatch { l_id : positive; l_withErr : bool; l_done : bool }.

Record machine := mkMachine {
  state : State;
  vars : locals;                        (* the task's local variables *)
  latches : list latch;
  ticks : list task;
  trace : list event;
  cspjsStack : list (nat * Z)           (* pushes on err.cspjsStack: (error object, id - 1) *)
}.

(** ** Code outside the runtime *)

(** The entry points of the runtime that other code calls. *)
Inductive api :=
| start
| do_step                               (* step, through boundStep *)
| goTo (id : positive)
| thenTo (id : positive)
| thenToWithErr (id : positive)
| resume (k : nat) (arguments : list value)   (* calls the closure of latch k *)
| callback (arguments : list value)
| windTo (id : positive)
| unwind
| pushCleanupAction (fn : nat)
| pushCleanupStep (id afterID : positive)
| pushErrorStep (id retryID : positive)
| beginCleanup (saved : locals)
| retry (arguments : list value)
| pushPhi (id : positive) (captureState : bool)
| phi
| abort (err : value)                   (* the control API *)
| assign (l : locals).                  (* the step function assigns its locals *)

(** Code that is not in state_machine.js (the compiled step function, the
    cleanup closures, the final callback, the error hook) is a tree of
    calls into the runtime that may read the machine in between, may
    catch what a call throws and may throw itself. *)
Inductive script :=
| Stop
| Fail (e : string)
| Do (c : api) (k : script)
| Try (c : api) (k : script) (handler : script)
| Inspect (k : machine → script).

Record program := mkProgram {
  fn : list value → script;                       (* the compiled step function *)
  actions : nat → script;                         (* the cleanup closures *)
  finalCallback : option (list value → script);
  onerror : option (value → script);              (* StateMachine.onerror *)
  has_state_vars : bool;                          (* captureStateVars / restoreStateVars set *)
  instanceof_Error : value → option nat           (* err instanceof Error: which object *)
}.

Inductive outcome :=
| Done (m : machine)
| Threw (e : string) (m : machine)
| OutOfFuel.

Definition bind (o : outcome) (f : machine → outcome) : outcome :=
  match o with
  | Done m => f m
  | Threw e m => Threw e m
  | OutOfFuel => OutOfFuel
  end.

Definition retry_error : string :=
  "SyntaxError: retry statement can only be used within catch blocks".

(** ** Field updates *)

Definition on_state (f : State → State) (m : machine) : machine :=
  mkMachine (f (state m)) (vars m) (latches m) (ticks m) (trace m) (cspjsStack m).

Definition set_id (n : Z) (s : State) : State :=
  mkSt n (args s) (err s) (unwinding s) (waiting s) (isFinished s) (isUnwinding s)
       (strict_unwind s) (currentErrorStep s) (abort_with_error s).
Definition set_args (a : list value) (s : State) : State :=
  mkSt (id s) a (err s) (unwinding s) (waiting s) (isFinished s) (isUnwinding s)
       (strict_unwind s) (currentErrorStep s) (abort_with_error s).
Definition set_err (e : value) (s : State) : State :=
  mkSt (id s) (args s) e (unwinding s) (waiting s) (isFinished s) (isUnwinding s)
       (strict_unwind s) (currentErrorStep s) (abort_with_error s).
Definition set_unwinding (u : list unwind_record) (s : State) : State :=
  mkSt (id s) (args s) (err s) u (waiting s) (isFinished s) (isUnwinding s)
       (strict_unwind s) (currentErrorStep s) (abort_with_error s).
Definition set_waiting (w : Z) (s : State) : State :=
  mkSt (id s) (args s) (err s) (unwinding s) w (isFinished s) (isUnwinding s)
       (strict_unwind s) (currentErrorStep s) (abort_with_error s).
Definition set_isFinished (b : bool) (s : State) : State :=
  mkSt (id s) (args s) (err s) (unwinding s) (waiting s) b (isUnwinding s)
       (strict_unwind s) (currentErrorStep s) (abort_with_error s).
Definition set_isUnwinding (b : bool) (s : State) : State :=
  mkSt (id s) (args s) (err s) (unwinding s) (waiting s) (isFinished s) b
       (strict_unwind s) (currentErrorStep s) (abort_with_error s).
Definition set_strict_unwind (b : bool) (s : State) : State :=
  mkSt (id s) (args s) (err s) (unwinding s) (waiting s) (isFinished s) (isUnwinding s)
       b (currentErrorStep s) (abort_with_error s).
Definition set_currentErrorStep (e : option error_step) (s : State) : State :=
  mkSt (id s) (args s) (err s) (unwinding s) (waiting s) (isFinished s) (isUnwinding s)
       (strict_unwind s) e (abort_with_error s).
Definition set_abort_with_error (e : value) (s : State) : State :=
  mkSt (id s) (args s) (err s) (unwinding s) (waiting s) (isFinished s) (isUnwinding s)
       (strict_unwind s) (currentErrorStep s) e.

Definition set_vars (l : locals) (m : machine) : machine :=
  mkMachine (state m) l (latches m) (ticks m) (trace m) (cspjsStack m).
Definition set_latches (l : list latch) (m : machine) : machine :=
  mkMachine (state m) (vars m) l (ticks m) (trace m) (cspjsStack m).
Definition set_ticks (t : list task) (m : machine) : machine :=
  mkMachine (state m) (vars m) (latches m) t (trace m) (cspjsStack m).
Definition emit (e : event) (m : machine) : machine :=
  mkMachine (state m) (vars m) (latches m) (ticks m) (trace m ++ [e]) (cspjsStack m).
Definition push_cspjsStack (e : nat * Z) (m : machine) : machine :=
  mkMachine (state m) (vars m) (latches m) (ticks m) (trace m) (cspjsStack m ++ [e]).

Definition nextTick (t : task) (m : machine) : machine :=
  set_ticks (ticks m ++ [t]) m.

(** [this.state.unwinding.push(r)] *)
Definition push (r : unwind_record) (m : machine) : machine :=
  on_state (fun s => set_unwinding (unwinding s ++ [r]) s) m.

(** [array.splice(start, 0, a, b)]: [start] past the end means the end. *)
Definition splice2 {A} (start : nat) (a b : A) (xs : list A) : list A :=
  firstn start xs ++ [a; b] ++ skipn start xs.

(** ** The methods without calls to outside code *)

(** [StateMachine.prototype.goTo] *)
Definition do_goTo (id : positive) (m : machine) : machine :=
  let m := on_state (set_id (Z.pos id)) m in
  let m := on_state (set_strict_unwind false) m in
  let m := on_state (fun s => set_waiting (waiting s + 1) s) m in
  nextTick boundStep m.

(** [StateMachine.prototype.windTo] *)
Definition do_windTo (id : positive) (m : machine) : machine :=
  do_goTo id (on_state (set_isUnwinding false) m).

(** [this.captureStateVars()], null unless the task has a finally block. *)
Definition captureStateVars (P : program) (m : machine) : option locals :=
  if has_state_vars P then Some (vars m) else None.

(** [this.restoreStateVars(saved)] *)
Definition restoreStateVars (P : program) (saved : locals) (m : machine) : option machine :=
  if has_state_vars P then Some (set_vars saved m) else None.

(** [StateMachine.prototype.beginCleanup] *)
Definition do_beginCleanup (P : program) (saved : locals) (m : machine) : outcome :=
  match captureStateVars P m with
  | None => Threw Channel.TypeError m
  | Some now =>
      let m := push (RestoreState now) m in
      match restoreStateVars P saved m with
      | None => Threw Channel.TypeError m
      | Some m => Done m
      end
  end.

(** [StateMachine.prototype.callback] *)
Definition do_callback (P : program) (arguments : list value) (m : machine) : machine :=
  let err := default VUndefined (head arguments) in
  let m := on_state (set_args arguments) m in
  let m := on_state (set_err err) m in
  let m := on_state (set_strict_unwind true) m in
  let m :=
    if truthy err then
      match instanceof_Error P err with
      | Some o => push_cspjsStack (o, id (state m) - 1) m
      | None => m
      end
    else m in
  let m :=
    if truthy err then
      match onerror P with
      | Some _ => nextTick (onerror_call err) m
      | None => m
      end
    else m in
  nextTick boundUnwind m.

(** [StateMachine.prototype.retry] *)
Definition do_retry (arguments : list value) (m : machine) : outcome :=
  match currentErrorStep (state m) with
  | None => Threw retry_error m
  | Some errorStep =>
      let m := on_state (fun s =>
                 set_unwinding (splice2 (unwindPoint errorStep) (ErrorStep errorStep)
                                        (Retry (retryStep errorStep)) (unwinding s)) s) m in
      (* Enter a "no error" state. *)
      let m := on_state (set_currentErrorStep None) m in
      let m := on_state (set_args (VNull :: arguments)) m in
      let m := on_state (set_err VNull) m in
      let m := on_state (set_strict_unwind true) m in
      (* this.phi() *)
      Done (nextTick boundUnwind m)
  end.

(** [StateMachine.prototype.pushPhi] *)
Definition do_pushPhi (P : program) (id : positive) (captureState : bool) (m : machine)
    : outcome :=
  if captureState then
    match captureStateVars P m with
    | None => Threw Channel.TypeError m
    | Some now => Done (push (Phi id (Some now)) m)
    end
  else Done (push (Phi id None) m).

(** [array.pop()] *)
Definition pop {A} (xs : list A) : option (A * list A) :=
  match rev xs with
  | [] => None
  | x :: r => Some (x, rev r)
  end.

(** The arguments that a [thenToWithErr] closure passes to the step
    function. *)
Definition withErr_args (arguments : list value) : list value :=
  if decide (length arguments ≤ 2)%nat then
    [VNull; default VUndefined (arguments !! 0%nat); default VUndefined (arguments !! 1%nat)]
  else VNull :: arguments.

(** ** The methods that call outside code, and that code itself *)

Section Run.

Variable P : program.

Fixpoint exec (fuel : nat) (s : script) (m : machine) {struct fuel} : outcome :=
  match fuel with
  | O => OutOfFuel
  | S fuel =>
      match s with
      | Stop => Done m
      | Fail e => Threw e m
      | Do c k => bind (call fuel c m) (exec fuel k)
      | Try c k handler =>
          match call fuel c m with
          | Done m => exec fuel k m
          | Threw _ m => exec fuel handler m
          | OutOfFuel => OutOfFuel
          end
      | Inspect k => exec fuel (k m) m
      end
  end
with call (fuel : nat) (c : api) (m : machine) {struct fuel} : outcome :=
  match fuel with
  | O => OutOfFuel
  | S fuel =>
      (* performAbort *)
      let performAbort (m : machine) : outcome :=
        let err := abort_with_error (state m) in
        let m := on_state (set_abort_with_error VNull) m in
        exec fuel (fn P [err]) m in
      match c with
      | start => Done (do_goTo 1 m)
      | do_step =>
          let m := on_state (fun s => set_waiting (waiting s - 1) s) m in
          if truthy (abort_with_error (state m)) then performAbort m
          else exec fuel (fn P (args (state m))) m
      | goTo id => Done (do_goTo id m)
      | thenTo id =>
          let m := set_latches (latches m ++ [mkLatch id false false]) m in
          Done (on_state (fun s => set_waiting (waiting s + 1) s) m)
      | thenToWithErr id =>
          let m := set_latches (latches m ++ [mkLatch id true false]) m in
          Done (on_state (fun s => set_waiting (waiting s + 1) s) m)
      | resume k arguments =>
          match latches m !! k with
          | None => Threw Channel.TypeError m
          | Some l =>
              let m := on_state (fun s => set_waiting (waiting s - 1) s) m in
              if l_done l then Done (emit ConsoleError m)
              else
                let m := set_latches (<[k := mkLatch (l_id l) (l_withErr l) true]> (latches m)) m in
                let m := on_state (set_id (Z.pos (l_id l))) m in
                if truthy (abort_with_error (state m)) then performAbort m
                else if l_withErr l then exec fuel (fn P (withErr_args arguments)) m
                else exec fuel (fn P arguments) m
          end
      | callback arguments => Done (do_callback P arguments m)
      | windTo id => Done (do_windTo id m)
      | unwind =>
          match pop (unwinding (state m)) with
          | Some (where_, rest) =>
              let m := on_state (set_unwinding rest) m in
              let m := on_state (set_isUnwinding true) m in
              match where_ with
              | RestoreState saved =>
                  match restoreStateVars P saved m with
                  | None => Threw Channel.TypeError m
                  | Some m => call fuel unwind m
                  end
              | Retry r => Done (do_windTo r m)
              | Phi p _ =>
                  if truthy (err (state m)) || strict_unwind (state m) then
                    (* If we're strictly unwinding, then regular phi control
                       flow doesn't apply. *)
                    Done (nextTick boundUnwind m)
                  else Done (do_windTo p m)
              | ErrorStep e =>
                  if truthy (err (state m)) then
                    Done (do_goTo (step e) (on_state (set_currentErrorStep (Some e)) m))
                  else Done (nextTick boundUnwind m)
              | CleanupAction a =>
                  bind (exec fuel (actions P a) (emit (ActionCalled a) m))
                       (fun m => Done (nextTick boundUnwind m))
              | CleanupStep st saved =>
                  bind (do_beginCleanup P saved m) (fun m => Done (do_goTo st m))
              end
          | None =>
              if isFinished (state m) then Done m
              else
                let m := on_state (set_waiting 0) m in
                let m := on_state (set_isFinished true) m in
                match finalCallback P with
                | Some f =>
                    exec fuel (f (args (state m)))
                         (emit (FinalCallback (args (state m)) (state m)) m)
                | None => Done m
                end
          end
      | pushCleanupAction a => Done (push (CleanupAction a) m)
      | pushCleanupStep id afterID =>
          match captureStateVars P m with
          | None => Threw Channel.TypeError m
          | Some now => Done (do_goTo afterID (push (CleanupStep id now) m))
          end
      | pushErrorStep id retryID =>
          let r := ErrorStep (mkErrorStep id retryID (length (unwinding (state m)))) in
          Done (do_goTo retryID (push r m))
      | beginCleanup saved => do_beginCleanup P saved m
      | retry arguments => do_retry arguments m
      | pushPhi id captureState => do_pushPhi P id captureState m
      | phi => Done (nextTick boundUnwind m)
      | abort e =>
          if 0 <? waiting (state m) then Done (on_state (set_abort_with_error e) m)
          else Done (do_callback P [e] m)
      | assign l => Done (set_vars l m)
      end
  end.

(** What a deferred call does when its turn comes. *)
Definition dispatch (fuel : nat) (t : task) (m : machine) : outcome :=
  match t with
  | boundStep => call fuel do_step m
  | boundUnwind => call fuel unwind m
  | onerror_call e =>
      match onerror P with
      | Some h => exec fuel (h e) m
      | None => Done m
      end
  end.

(** The event loop: runs at most [n] deferred calls, oldest first. *)
Fixpoint run (n : nat) (fuel : nat) (m : machine) : outcome :=
  match n with
  | O => Done m
  | S n =>
      match ticks m with
      | [] => Done m
      | t :: rest => bind (dispatch fuel t (set_ticks rest m)) (run n fuel)
      end
  end.

End Run.

(** [new StateMachine(context, callback, fn, task_fn)] *)
Definition new_StateMachine : machine := mkMachine new_State [] [] [] [] [].

(** How often the final callback has been called. *)
Definition is_final (e : event) : bool :=
  match e with FinalCallback _ _ => true | _ => false end.

Definition final_calls (m : machine) : nat := length (filter is_final (trace m)).

(** What reaches a task from outside: the event loop runs the oldest
    deferred call, or other code (the task's creator, a channel, a
    controller) runs and calls into the runtime. *)
Inductive input :=
| tick
| outside (s : script).

Fixpoint session (P : program) (fuel : nat) (inputs : list input) (m : machine) : outcome :=
  match inputs with
  | [] => Done m
  | tick :: inputs =>
      match ticks m with
      | [] => session P fuel inputs m
      | t :: rest => bind (dispatch P fuel t (set_ticks rest m)) (session P fuel inputs)
      end
  | outside s :: inputs => bind (exec P fuel s m) (session P fuel inputs)
  end.

(** A property of the machine an outcome stops in. *)
Definition post (Q : machine → Prop) (o : outcome) : Prop :=
  match o with
  | Done m | Threw _ m => Q m
  | OutOfFuel => True
  end.

(** A task whose step function never completes: it makes no call into the
    runtime. *)
Definition idle_task : program :=
  mkProgram (fun _ => Stop) (fun _ => Stop) (Some (fun _ => Stop)) None false (fun _ => None).

(** ** Vocabulary of the statements about tasks *)

(** Every recorded call of the final callback found the unwind stack empty
    and [isFinished] already set. *)
Definition called_when_done (e : event) : Prop :=
  match e with
  | FinalCallback _ st => unwinding st = [] ∧ isFinished st = true
  | _ => True
  end.

(** The final callback has been called once if the task has finished and
    has a final callback, and not at all otherwise. *)
Definition expected_final_calls (P : program) (m : machine) : nat :=
  if isFinished (state m) then
    match finalCallback P with Some _ => 1%nat | None => 0%nat end
  else 0%nat.

Definition once (P : program) (m : machine) : Prop :=
  final_calls m = expected_final_calls P m ∧
  Forall called_when_done (trace m).

(** [m'] has the trace and the [isFinished] flag of [m]. *)
Definition same_calls (m m' : machine) : Prop :=
  trace m' = trace m ∧ isFinished (state m') = isFinished (state m).

(** A task that completes at its first step with [callback(null, 42)]. *)
Definition one_step_task : program :=
  mkProgram (fun _ => Do (callback [VNull; VNum 42]) Stop) (fun _ => Stop)
            (Some (fun _ => Stop)) None false (fun _ => None).

End StateMachine.

(** * More of [channel.js] *)

Module ChannelOps.

Import Channel.

(** [Channel.prototype.canRead]; [None] is the TypeError of a missing
    queue. *)
Definition canRead (s : state) (this : loc) : option bool :=
  match get _queue s this with
  | None => None
  | Some (_, q) =>
      if 0 <? Z.of_nat (length q) then
        match get _pending s this with
        | None => None
        | Some (_, p) => Some (Z.of_nat (length p) =? 0)
        end
      else Some false
  end.

(** [Channel.prototype.canWrite] *)
Definition canWrite (s : state) (this : loc) : option bool :=
  match get _pending s this with
  | None => None
  | Some (_, p) =>
      if 0 <? Z.of_nat (length p) then Some true
      else
        match get _queue s this with
        | None => None
        | Some (_, q) => Some (Z.of_nat (length q) =? 0)
        end
  end.

(** [Channel.prototype.takeSome] *)
Definition takeSome (fuel : nat) (this : loc) (callback : option callback) (s : state)
    : outcome unit :=
  match backlog s this with
  | None => Threw TypeError s
  | Some bl =>
      if 0 <? bl then takeN fuel this bl callback s
      else
        let (empty, s) := alloc (CArr []) s in
        Done tt (sendValue (VRef empty) callback s)
  end.

(** [new ChannelValue(chan, err, value)] *)
Definition ChannelValue (chan : loc) (err value : value) (s : state) : loc * state :=
  alloc (CObj [("chan"%string, VRef chan); ("err"%string, err); ("val"%string, value)]) s.

(** [ChannelValue.prototype.resolve]: [inl e] is [throw e], [inr v] is
    [return v]; [None] when [this] is no object. *)
Definition ChannelValue_resolve (s : state) (this : loc) : option (value + value) :=
  match heap s !! this with
  | Some (CObj kvs) =>
      if truthy (obj_get kvs "err") then Some (inl (obj_get kvs "err"))
      else Some (inr (obj_get kvs "val"))
  | _ => None
  end.

(** The closure that [Channel.prototype.receive] returns, called with
    [(err, value)]. *)
Definition receive_body (fuel : nat) (self : loc) (err value : value) (s : state)
    : outcome unit :=
  let (cv, s) := ChannelValue self err value s in
  put fuel self (VRef cv) None s.

(** The closure that [Channel.prototype.resolver] returns, called with
    [(err, value)]. *)
Definition resolver_body (fuel : nat) (self : loc) (err value : value) (s : state)
    : outcome unit :=
  let (cv, s) := ChannelValue self err value s in
  fill fuel self (VRef cv) s.

(** ** Vocabulary *)

(** A ready entry whose ack, if any, is a function of the program. *)
Definition entry (e : option nat * value) : CBV := mkCBV (user e.1) e.2.

(** The deferred acks of the entries [q], oldest first. *)
Definition acks_of (q : list CBV) : list tick :=
  flat_map (λ e, value_tick (_value e) (_callback e)) q.

(** The null that ends a stream, put with the ack [a], if the producer
    has put one. *)
Definition sentinel (stop : option (option nat)) : list CBV :=
  match stop with
  | Some a => [entry (a, VNull)]
  | None => []
  end.

(** The call that hands the value [e.2] to the taker [User e.1]. *)
Definition delivery (e : nat * value) : tick := Tick (User e.1) VNull e.2.

(** The first [N] entries of a ready queue hold no ack: their producers
    have been acknowledged. *)
Definition acked_window (N : Z) (q : list CBV) : Prop :=
  Forall (λ e, _callback e = None) (firstn (Z.to_nat N) q).

(** What a dropping or expiring buffer keeps: at most [N] ready values,
    none with an ack left to call. *)
Definition never_blocks (N : Z) (s : state) (c : loc) : Prop :=
  ∃ q p, base_channel s c q p ∧ (q = [] ∨ p = []) ∧
    Z.of_nat (length q) ≤ N ∧ Forall (λ e, _callback e = None) q.

(** The invariant of a [buffer(N)]: the queue invariant, and the producers
    of the first [N] ready values have been acknowledged. *)
Definition buffered (N : Z) (s : state) (c : loc) : Prop :=
  ∃ q p, base_channel s c q p ∧ (q = [] ∨ p = []) ∧ acked_window N q.

(** How many entries of a ready queue of length [n] an expiring buffer of
    capacity [N] evicts before it puts. *)
Definition evicted (N : Z) (n : nat) : nat := Z.to_nat (Z.of_nat n + 1 - N).

End ChannelOps.

(** * More about tasks *)

Module Unwinding.

Import StateMachine.

(** The cleanup actions on a part of the unwind stack, oldest first. *)
Definition actions_of (u : list unwind_record) : list nat :=
  flat_map (λ r, match r with CleanupAction a => [a] | _ => [] end) u.

(** The records that unwinding passes, one tick each, while
    [strict_unwind] is set: a cleanup action, which it calls, a phi, and,
    when there is no error, an error step. *)
Definition passed (with_error : bool) (r : unwind_record) : bool :=
  match r with
  | CleanupAction _ | Phi _ _ => true
  | ErrorStep _ => negb with_error
  | _ => false
  end.

(** The machine [m] after unwinding down to [below] with calls of the
    cleanup actions [acts]. *)
Definition unwound (below : list unwind_record) (acts : list nat) (m : machine) : machine :=
  mkMachine (set_isUnwinding true (set_unwinding below (state m)))
            (vars m) (latches m) (ticks m)
            (trace m ++ map ActionCalled acts) (cspjsStack m).

(** The closure of latch [k] has been called. *)
Definition called (k : nat) (m : machine) : Prop :=
  ∃ l, latches m !! k = Some l ∧ l_done l = true.

(** [waiting--] *)
Definition one_less_waiting (m : machine) : machine :=
  on_state (fun s => set_waiting (waiting s - 1) s) m.

End Unwinding.

(** * The jump tables of [state_machine.js] *)

Module JumpTable.

Import StateMachine.

(** [new JumpTable(id, cases, blockSizes)]: [cases[i]] holds the case
    values of block [i], numbers here, and [blockSizes[i]] the number of
    its steps; [stepIDs] maps a case value to the first step of its
    block. *)
Record JumpTable := mkJumpTable {
  id : positive;
  cases : list (list Z);
  blockSizes : list N;
  stepIDs : gmap Z positive;
  beyondID : positive
}.

(** ** The numbers of the step ids

    [id], the block sizes and the sums of the constructor are JavaScript
    numbers, and their [+] is the addition of doubles: exact while the sum
    is at most [2^53], rounded to the nearest double, ties to the even
    one, above that, and [Infinity] past the largest double. *)

(** The double nearest to the integer [n], for [0 ≤ n]: above [2^53] a
    double keeps the leading 53 bits of [n]. *)
Definition js_round (n : Z) : Z :=
  if n <? 2 ^ 53 then n
  else
    let ulp := 2 ^ (Z.log2 n - 52) in
    let q := n / ulp in
    let r := n mod ulp in
    let up := if Z.even q then ulp <? 2 * r else ulp <=? 2 * r in
    (if up then q + 1 else q) * ulp.

(** [2^1024], which no double reaches, stands for [Infinity]. *)
Definition Infinity : positive := Z.to_pos (2 ^ 1024).

(** [x + y] *)
Definition js_add (x : positive) (y : N) : positive :=
  let r := js_round (Z.pos x + Z.of_N y) in
  if Z.pos Infinity <=? r then Infinity else Z.to_pos r.

(** [for (j = 0; j < ci.length; ++j) this.stepIDs[ci[j]] = sum;] *)
Definition mark (sum : positive) (ci : list Z) (ids : gmap Z positive)
    : gmap Z positive :=
  foldl (fun ids v => <[v := sum]> ids) ids ci.

(** The loop over the blocks, from block [i] on; [None] is the TypeError
    of [cases[i].length] when [cases[i]] is undefined. *)
Fixpoint blocks (cases : list (list Z)) (sizes : list N) (i : nat) (sum : positive)
    (ids : gmap Z positive) : option (gmap Z positive * positive) :=
  match sizes with
  | [] => Some (ids, sum)
  | size :: sizes =>
      match cases !! i with
      | None => None
      | Some ci =>
          (* sum += 1 + blockSizes[i]: +1 for the additional "phi" *)
          blocks cases sizes (S i) (js_add sum (N.pos (js_add 1 size))) (mark sum ci ids)
      end
  end.

Definition new_JumpTable (id : positive) (cases : list (list Z)) (blockSizes : list N)
    : option JumpTable :=
  match blocks cases blockSizes 0 (js_add id 1) ∅ with
  | Some (ids, sum) => Some (mkJumpTable id cases blockSizes ids sum)
  | None => None
  end.

Definition unhandled_case (caseVal : Z) (id : positive) : string :=
  "Unhandled case '" +:+ pretty caseVal +:+ "' at step " +:+ pretty (Z.pos id).

(** [JumpTable.prototype.jumpToCase] *)
Definition jumpToCase (P : program) (this : JumpTable) (caseVal : Z) (sm : machine)
    : outcome :=
  bind (do_pushPhi P (beyondID this) false sm) (fun sm =>
    match stepIDs this !! caseVal with
    | None => Threw (unhandled_case caseVal (id this)) sm
    | Some stepID => Done (do_goTo stepID sm)
    end).

(** What [StateMachine.prototype.jumpTable] does: it returns a table or
    undefined, with the cache of the task function as it leaves it, or it
    throws. *)
Inductive returned :=
| Returns (t : option JumpTable) (cachedJumpTable : gmap positive JumpTable)
| Throws (e : string).

(** [StateMachine.prototype.jumpTable]; [args] is [None] when it is called
    with the id alone.  [console.assert] throws an AssertionError on some
    platforms and only prints on others: [assert_throws] says which. *)
Definition jumpTable (assert_throws : bool) (id : positive)
    (args : option (list (list Z) * list N)) (cachedJumpTable : gmap positive JumpTable)
    : returned :=
  match args with
  | None => Returns (cachedJumpTable !! id) cachedJumpTable
  | Some (cases, blockSizes) =>
      if assert_throws && negb (length cases =? length blockSizes)%nat
      then Throws "AssertionError"
      else
        match new_JumpTable id cases blockSizes with
        | None => Throws Channel.TypeError
        | Some t => Returns (Some t) (<[id := t]> cachedJumpTable)
        end
  end.

(** ** Vocabulary *)

(** The first step of block [i], when the first step of block 0 is
    [sum]: every block before it takes its steps and one more.  This is
    the sum in the integers, which the sum of the constructor equals as
    long as it is exact. *)
Fixpoint block_start (sum : positive) (sizes : list N) (i : nat) : positive :=
  match i, sizes with
  | S i, size :: sizes => block_start (sum + N.succ_pos size) sizes i
  | _, _ => sum
  end.

(** Block [i] is the last block, of those that have a size, that lists
    the case value [v]. *)
Definition last_block_of (cases : list (list Z)) (n : nat) (v : Z) (i : nat) : Prop :=
  (i < n)%nat ∧ (∃ ci, cases !! i = Some ci ∧ v ∈ ci) ∧
  ∀ j cj, (i < j < n)%nat → cases !! j = Some cj → v ∉ cj.

End JumpTable.

(** * Debounced channels *)

Module Debounce.

Import Channel (loc, value, callback, VNull, VNum, VStr, User, fill_fn, fill_proto, noop,
                TypeError, fill_error).

(** A pending [setTimeout(realPut, ms, ch, value, callback)]: the id that
    [setTimeout] returned, the delay and the arguments for [realPut]. *)
Record timer := mkTimer {
  timer_id : positive;
  timer_ms : Z;
  timer_ch : nat;
  timer_value : value;
  timer_callback : option callback
}.

(** What sits in the [put] slot of a debounced channel. *)
Inductive put_fn :=
| debouncingPut
| put_filled.                (* the closure installed by fill *)

(** The object made by [debounce(ms)]: [Object.create(this)] with its own
    [_channel], which is also its prototype, [_debounceInterval_ms],
    [_timer] and [put].  [_timer] is null or the id of a timer, which is
    truthy.  [own_take] is [Some v] for the closure that [fill(v)]
    installs; without it, and without [own_fill], the object inherits
    [take] and [fill] from [_channel]. *)
Record debounced := mkDebounced {
  _channel : loc;
  _debounceInterval_ms : Z;
  _timer : option positive;
  own_take : option value;
  own_put : put_fn;
  own_fill : option fill_fn
}.

(** The channels of [Channel], the debounced channels made on them, and
    the timers that are set.  A timer fires only between two turns of the
    event loop, never while a function runs, so within one call the
    timers are only set and cleared. *)
Record world := mkWorld {
  channels : Channel.state;
  wrappers : list debounced;
  timers : list timer;
  next_timer : positive        (* the id that the next setTimeout returns *)
}.

Definition set_channels (s : Channel.state) (w : world) : world :=
  mkWorld s (wrappers w) (timers w) (next_timer w).
Definition set_wrappers (l : list debounced) (w : world) : world :=
  mkWorld (channels w) l (timers w) (next_timer w).
Definition set_timers (l : list timer) (w : world) : world :=
  mkWorld (channels w) (wrappers w) l (next_timer w).

Definition upd_wrapper (f : debounced → debounced) (this : nat) (w : world) : world :=
  set_wrappers (alter f this (wrappers w)) w.

Definition with_timer (t : option positive) (o : debounced) : debounced :=
  mkDebounced (_channel o) (_debounceInterval_ms o) t (own_take o) (own_put o) (own_fill o).
Definition with_methods (v : value) (p : put_fn) (f : fill_fn) (o : debounced) : debounced :=
  mkDebounced (_channel o) (_debounceInterval_ms o) (_timer o) (Some v) p (Some f).

Inductive outcome :=
| Done (w : world)
| Threw (e : string) (w : world)
| OutOfFuel.

Definition bind (m : outcome) (k : world → outcome) : outcome :=
  match m with
  | Done w => k w
  | Threw e w => Threw e w
  | OutOfFuel => OutOfFuel
  end.

(** A call on a channel of [Channel], in the world. *)
Definition on_channels (m : Channel.state → Channel.outcome unit) (w : world) : outcome :=
  match m (channels w) with
  | Channel.Done _ s => Done (set_channels s w)
  | Channel.Threw e s => Threw e (set_channels s w)
  | Channel.OutOfFuel => OutOfFuel
  end.

(** [setTimeout(realPut, ms, ch, value, callback)] *)
Definition setTimeout (ms : Z) (ch : nat) (value : value) (callback : option callback)
    (w : world) : positive * world :=
  (next_timer w,
   mkWorld (channels w) (wrappers w)
           (timers w ++ [mkTimer (next_timer w) ms ch value callback])
           (Pos.succ (next_timer w))).

(** [clearTimeout(id)] *)
Definition clearTimeout (id : positive) (w : world) : world :=
  set_timers (filter (λ t, timer_id t ≠ id) (timers w)) w.

(** [Channel.prototype.debounce] *)
Definition debounce (this : loc) (ms : Z) (w : world) : nat * world :=
  (length (wrappers w),
   set_wrappers (wrappers w ++ [mkDebounced this ms None None debouncingPut None]) w).

(** [debouncingPut], with [this] a debounced channel. *)
Definition debouncingPut_body (this : nat) (value : value) (callback : option callback)
    (w : world) : outcome :=
  match wrappers w !! this with
  | None => Threw TypeError w
  | Some o =>
      let w :=
        match _timer o with
        | Some id => upd_wrapper (with_timer None) this (clearTimeout id w)
        | None => w
        end in
      let (id, w) := setTimeout (_debounceInterval_ms o) this value callback w in
      Done (upd_wrapper (with_timer (Some id)) this w)
  end.

(** [f.call(this, value, callback)] for the function [f] of a [put] slot. *)
Definition put_with (f : put_fn) (this : nat) (value : value) (callback : option callback)
    (w : world) : outcome :=
  match f with
  | debouncingPut => debouncingPut_body this value callback w
  | put_filled => Done (set_channels (Channel.sendError (VStr "filled") callback (channels w)) w)
  end.

(** [this.backlog()]: [backlog], [_queue] and [_pending] come from the
    prototype. *)
Definition backlog (w : world) (this : nat) : option Z :=
  match wrappers w !! this with
  | None => None
  | Some o => Channel.backlog (channels w) (_channel o)
  end.

(** The function that [this.fill] finds. *)
Definition method_fill (w : world) (o : debounced) : fill_fn :=
  match own_fill o with
  | Some f => f
  | None => Channel.method_fill (channels w) (_channel o)
  end.

(** [while (this.backlog() < 0) origPut.call(this, value);] *)
Fixpoint fill_loop (fuel : nat) (origPut : put_fn) (this : nat) (value : value)
    (w : world) : outcome :=
  match fuel with
  | O => OutOfFuel
  | S fuel =>
      match backlog w this with
      | None => Threw TypeError w
      | Some bl =>
          if bl <? 0 then
            bind (put_with origPut this value None w) (fill_loop fuel origPut this value)
          else Done w
      end
  end.

(** [Channel.prototype.fill], with [this] a debounced channel. *)
Definition Channel_fill (fuel : nat) (this : nat) (value : value) (w : world) : outcome :=
  match wrappers w !! this, backlog w this with
  | Some o, Some bl =>
      if 0 <? bl then Threw fill_error w
      else
        let origPut := own_put o in
        let w := upd_wrapper (with_methods value put_filled noop) this w in
        fill_loop fuel origPut this value w
  | _, _ => Threw TypeError w
  end.

Definition fill (fuel : nat) (this : nat) (value : value) (w : world) : outcome :=
  match wrappers w !! this with
  | None => Threw TypeError w
  | Some o =>
      match method_fill w o with
      | fill_proto => Channel_fill fuel this value w
      | noop => Done w
      end
  end.

(** [ch = new Channel(); ch.take(cb); d = ch.debounce(ms)], with [cb] the
    function [User 1]; [d] is the debounced channel 0. *)
Definition waiter_then_debounce (ms : Z) : outcome :=
  let (ch, s) := Channel.new_Channel Channel.empty_state in
  bind (on_channels (Channel.take 1 ch (Some (User 1))) (mkWorld s [] [] 1))
       (λ w, Done (debounce ch ms w).2).

End Debounce.

(** * Facts about channels *)

Module ChannelFacts.

Import Channel.

(** ** Base channels *)

Section Lookup.

Context {A : Type} (field : chanobj → option A).

Lemma get_own s c o a :
  heap s !! c = Some (CChan o) → field o = Some a → get field s c = Some (c, a).
Proof.
  intros Hc Hf. unfold get.
  pose proof (lookup_lt_Some _ _ _ Hc) as Hlt.
  destruct (length (heap s)) as [|n]; [lia|].
  simpl. by rewrite Hc, Hf.
Qed.

Lemma get_end s c o :
  heap s !! c = Some (CChan o) → field o = None → proto o = None → get field s c = None.
Proof.
  intros Hc Hf Hp. unfold get.
  destruct (length (heap s)) as [|n]; [done|].
  simpl. by rewrite Hc, Hf, Hp.
Qed.

(** One step up the chain, to an object that owns the field. *)
Lemma get_proto s c o p o' a :
  heap s !! c = Some (CChan o) → field o = None → proto o = Some p → c ≠ p →
  heap s !! p = Some (CChan o') → field o' = Some a →
  get field s c = Some (p, a).
Proof.
  intros Hc Hf Hp Hne Hc' Hf'. unfold get.
  pose proof (lookup_lt_Some _ _ _ Hc) as Hlt.
  pose proof (lookup_lt_Some _ _ _ Hc') as Hlt'.
  destruct (length (heap s)) as [|[|n]]; [lia|lia|].
  simpl. by rewrite Hc, Hf, Hp, Hc', Hf'.
Qed.

(** One step up the chain, to an object at the end of the chain that
    does not own the field. *)
Lemma get_proto_end s c o p o' :
  heap s !! c = Some (CChan o) → field o = None → proto o = Some p →
  heap s !! p = Some (CChan o') → field o' = None → proto o' = None →
  get field s c = None.
Proof.
  intros Hc Hf Hp Hc' Hf' Hp'. unfold get.
  destruct (length (heap s)) as [|[|n]]; [done| |]; simpl; rewrite Hc, Hf, Hp; [done|].
  by rewrite Hc', Hf', Hp'.
Qed.

End Lookup.

Lemma base_get_queue s c q p : base_channel s c q p → get _queue s c = Some (c, q).
Proof. intros H. by eapply get_own. Qed.

Lemma base_get_pending s c q p : base_channel s c q p → get _pending s c = Some (c, p).
Proof. intros H. by eapply get_own. Qed.

Lemma base_method_take s c q p : base_channel s c q p → method_take s c = take_proto.
Proof. intros H. unfold method_take. by erewrite get_end. Qed.

Lemma base_method_put s c q p : base_channel s c q p → method_put s c = put_proto.
Proof. intros H. unfold method_put. by erewrite get_end. Qed.

Lemma base_method_fill s c q p : base_channel s c q p → method_fill s c = fill_proto.
Proof. intros H. unfold method_fill. by erewrite get_end. Qed.

Lemma base_backlog s c q p :
  base_channel s c q p → backlog s c = Some (Z.of_nat (length q) - Z.of_nat (length p)).
Proof.
  intros H. unfold backlog.
  by rewrite (base_get_queue _ _ _ _ H), (base_get_pending _ _ _ _ H).
Qed.

(** Deferred dispatch touches the tick queue only. *)
Lemma heap_sendValue v cb s : heap (sendValue v cb s) = heap s.
Proof. by destruct cb. Qed.

Lemma heap_sendError v cb s : heap (sendError v cb s) = heap s.
Proof. by destruct cb. Qed.

Lemma log_sendValue v cb s : log (sendValue v cb s) = log s.
Proof. by destruct cb. Qed.

Lemma log_sendError v cb s : log (sendError v cb s) = log s.
Proof. by destruct cb. Qed.

Lemma log_upd_chan f c s : log (upd_chan f c s) = log s.
Proof. unfold upd_chan. by destruct (heap s !! c) as [[]|]. Qed.

Lemma ticks_upd_chan f c s : ticks (upd_chan f c s) = ticks s.
Proof. unfold upd_chan. by destruct (heap s !! c) as [[]|]. Qed.

Lemma ticks_sendValue v cb s : ticks (sendValue v cb s) = ticks s ++ value_tick v cb.
Proof. destruct cb; simpl; [done|]. by rewrite app_nil_r. Qed.

Lemma ticks_sendError e cb s : ticks (sendError e cb s) = ticks s ++ error_tick e cb.
Proof. destruct cb; simpl; [done|]. by rewrite app_nil_r. Qed.

Create Rewrite HintDb chan.
#[local] Hint Rewrite heap_sendValue heap_sendError log_sendValue log_sendError
  log_upd_chan ticks_upd_chan ticks_sendValue ticks_sendError : chan.

Lemma base_upd_queue s c q p q' :
  base_channel s c q p → base_channel (upd_chan (with_queue q') c s) c q' p.
Proof.
  unfold base_channel, upd_chan. intros H. rewrite H. simpl.
  rewrite list_lookup_insert_eq; [done|]. by eapply lookup_lt_Some.
Qed.

Lemma base_upd_pending s c q p p' :
  base_channel s c q p → base_channel (upd_chan (with_pending p') c s) c q p'.
Proof.
  unfold base_channel, upd_chan. intros H. rewrite H. simpl.
  rewrite list_lookup_insert_eq; [done|]. by eapply lookup_lt_Some.
Qed.

Lemma base_sendValue s c q p v cb :
  base_channel s c q p → base_channel (sendValue v cb s) c q p.
Proof. unfold base_channel. by rewrite heap_sendValue. Qed.

(** ** What [take] and [put] of the prototype do on the owner of the queues *)

Lemma Channel_take_ready s c o e q cb :
  heap s !! c = Some (CChan o) → _queue o = Some (e :: q) →
  Channel_take c cb s =
    Done tt (sendValue (_value e) cb
              (sendValue (_value e) (_callback e) (upd_chan (with_queue q) c s))).
Proof.
  intros H Hq. unfold Channel_take. by rewrite (get_own _queue _ _ _ _ H Hq).
Qed.

Lemma Channel_take_park s c o p cb :
  heap s !! c = Some (CChan o) → _queue o = Some [] → _pending o = Some p →
  Channel_take c (Some cb) s = Done tt (upd_chan (with_pending (p ++ [cb])) c s).
Proof.
  intros H Hq Hp. unfold Channel_take.
  by rewrite (get_own _queue _ _ _ _ H Hq), (get_own _pending _ _ _ _ H Hp).
Qed.

Lemma Channel_take_nothing s c o :
  heap s !! c = Some (CChan o) → _queue o = Some [] →
  Channel_take c None s = Done tt s.
Proof.
  intros H Hq. unfold Channel_take. by rewrite (get_own _queue _ _ _ _ H Hq).
Qed.

Lemma Channel_put_waiting s c o w p v cb :
  heap s !! c = Some (CChan o) → _pending o = Some (w :: p) →
  Channel_put c v cb s =
    Done tt (sendValue v (Some w) (sendValue v cb (upd_chan (with_pending p) c s))).
Proof.
  intros H Hp. unfold Channel_put. by rewrite (get_own _pending _ _ _ _ H Hp).
Qed.

Lemma Channel_put_park s c o q v cb :
  heap s !! c = Some (CChan o) → _queue o = Some q → _pending o = Some [] →
  Channel_put c v cb s = Done tt (upd_chan (with_queue (q ++ [mkCBV cb v])) c s).
Proof.
  intros H Hq Hp. unfold Channel_put.
  by rewrite (get_own _pending _ _ _ _ H Hp), (get_own _queue _ _ _ _ H Hq).
Qed.

(** ** What [take] and [put] do on a base channel *)

Lemma take_ready fuel s c e q p cb :
  base_channel s c (e :: q) p →
  take (S fuel) c cb s =
    Done tt (sendValue (_value e) cb
              (sendValue (_value e) (_callback e) (upd_chan (with_queue q) c s))).
Proof.
  intros H. simpl. rewrite (base_method_take _ _ _ _ H).
  by eapply Channel_take_ready.
Qed.

Lemma take_park fuel s c p cb :
  base_channel s c [] p →
  take (S fuel) c (Some cb) s = Done tt (upd_chan (with_pending (p ++ [cb])) c s).
Proof.
  intros H. simpl. rewrite (base_method_take _ _ _ _ H).
  by eapply Channel_take_park.
Qed.

Lemma take_nothing fuel s c p :
  base_channel s c [] p → take (S fuel) c None s = Done tt s.
Proof.
  intros H. simpl. rewrite (base_method_take _ _ _ _ H).
  by eapply Channel_take_nothing.
Qed.

Lemma put_waiting fuel s c q w p v cb :
  base_channel s c q (w :: p) →
  put (S fuel) c v cb s =
    Done tt (sendValue v (Some w) (sendValue v cb (upd_chan (with_pending p) c s))).
Proof.
  intros H. unfold put. rewrite (base_method_put _ _ _ _ H). simpl.
  by eapply Channel_put_waiting.
Qed.

Lemma put_park fuel s c q v cb :
  base_channel s c q [] →
  put (S fuel) c v cb s = Done tt (upd_chan (with_queue (q ++ [mkCBV cb v])) c s).
Proof.
  intros H. unfold put. rewrite (base_method_put _ _ _ _ H). simpl.
  by eapply Channel_put_park.
Qed.

Lemma new_Channel_base s : base_channel (new_Channel s).2 (new_Channel s).1 [] [].
Proof.
  unfold base_channel, new_Channel, alloc. simpl.
  rewrite lookup_app_r; [|done]. by rewrite Nat.sub_diag.
Qed.

(** ** The queue invariant (C4) *)

Lemma apply_op_invariant fuel s c q p o :
  base_channel s c q p → q = [] ∨ p = [] →
  ∃ s' q' p', apply_op (S fuel) c o s = Done tt s' ∧
    base_channel s' c q' p' ∧ (q' = [] ∨ p' = []).
Proof.
  intros H Hinv. destruct o as [v cb|cb]; unfold apply_op.
  - destruct p as [|w p].
    + rewrite (put_park _ _ _ _ _ _ H).
      eexists _, _, _. split; [done|]. split; [by eapply base_upd_queue|by right].
    + destruct Hinv as [-> | ?]; [|done].
      rewrite (put_waiting _ _ _ _ _ _ _ _ H).
      eexists _, _, _. split; [done|].
      split; [by do 2 eapply base_sendValue; eapply base_upd_pending|by left].
  - destruct q as [|e q].
    + destruct cb as [cb|].
      * rewrite (take_park _ _ _ _ _ H).
        eexists _, _, _. split; [done|]. split; [by eapply base_upd_pending|by left].
      * rewrite (take_nothing _ _ _ _ H).
        eexists _, _, _. split; [done|]. split; [done|by left].
    + destruct Hinv as [? | ->]; [done|].
      rewrite (take_ready _ _ _ _ _ _ _ H).
      eexists _, _, _. split; [done|].
      split; [by do 2 eapply base_sendValue; eapply base_upd_queue|by right].
Qed.

Lemma apply_ops_invariant fuel ops : ∀ s c q p,
  base_channel s c q p → q = [] ∨ p = [] →
  ∃ s' q' p', apply_ops (S fuel) c ops s = Done tt s' ∧
    base_channel s' c q' p' ∧ (q' = [] ∨ p' = []).
Proof.
  induction ops as [|o ops IH]; intros s c q p H Hinv.
  - simpl. eauto 10.
  - destruct (apply_op_invariant fuel s c q p o H Hinv) as (s1 & q1 & p1 & E1 & H1 & Hinv1).
    cbn [apply_ops]. rewrite E1. simpl. by eapply IH.
Qed.

(** C4: after every finite sequence of [put] and [take] on a newly created
    base channel (hence after every prefix of it), the ready queue or the
    waiter queue is empty, and [backlog()] is the length of the first
    minus the length of the second. *)
Theorem C4_ready_or_waiters_empty (s0 : state) (ops : list op) (fuel : nat) :
  let c := (new_Channel s0).1 in
  ∃ s q p,
    apply_ops (S fuel) c ops (new_Channel s0).2 = Done tt s ∧
    base_channel s c q p ∧
    (q = [] ∨ p = []) ∧
    backlog s c = Some (Z.of_nat (length q) - Z.of_nat (length p)).
Proof.
  intros c.
  destruct (apply_ops_invariant fuel ops _ _ _ _ (new_Channel_base s0) (or_introl eq_refl))
    as (s & q & p & E & H & Hinv).
  exists s, q, p. eauto using base_backlog.
Qed.

(** ** Pairing a [put] with a [take] (C3) *)

Lemma run_two_user fuel s a b e1 v1 e2 v2 rest :
  ticks s = Tick (User a) e1 v1 :: Tick (User b) e2 v2 :: rest →
  ∃ s', run 2 (S fuel) s = Done tt s' ∧
    log s' = log s ++ [Tick (User a) e1 v1; Tick (User b) e2 v2] ∧
    ticks s' = rest ∧ heap s' = heap s.
Proof.
  intros E. simpl. rewrite E. simpl.
  eexists. split; [done|]. simpl. by rewrite <- app_assoc.
Qed.

(** C3, as the code has it: when a [put(v, ack)] is paired with a
    [take(cb)] on a base channel, nothing is called in the tick of the
    pairing; [ack(null, v)] and then [cb(null, v)] are appended to the
    queue of deferred calls, so both run after the current tick and the
    producer's ack runs BEFORE the taker's callback. *)
Theorem C3_ack_then_callback s c v (a b : nat) (operation : state → outcome unit) :
  pairing s c v (User a) (User b) operation →
  ∃ s1,
    operation s = Done tt s1 ∧
    log s1 = log s ∧
    ticks s1 = ticks s ++ [Tick (User a) VNull v; Tick (User b) VNull v] ∧
    (ticks s = [] →
     ∀ fuel, ∃ s2,
       run 2 (S fuel) s1 = Done tt s2 ∧
       log s2 = log s ++ [Tick (User a) VNull v; Tick (User b) VNull v]).
Proof.
  intros Hpair.
  assert (∃ s1, operation s = Done tt s1 ∧ log s1 = log s ∧
            ticks s1 = ticks s ++ [Tick (User a) VNull v; Tick (User b) VNull v])
    as (s1 & E & L & T).
  { destruct Hpair as [fuel q p H|fuel q p H].
    - rewrite (put_waiting _ _ _ _ _ _ _ _ H). eexists. split; [done|].
      rewrite !log_sendValue, log_upd_chan, !ticks_sendValue, ticks_upd_chan.
      simpl. by rewrite <- app_assoc.
    - rewrite (take_ready _ _ _ _ _ _ _ H). eexists. split; [done|].
      rewrite !log_sendValue, log_upd_chan, !ticks_sendValue, ticks_upd_chan.
      simpl. by rewrite <- app_assoc. }
  exists s1. do 3 (split; [done|]). intros E0 fuel.
  destruct (run_two_user fuel s1 a b VNull v VNull v []) as (s2 & E2 & L2 & _).
  { by rewrite T, E0. }
  exists s2. split; [done|]. by rewrite L2, L.
Qed.

Lemma C3_witness :
  ∃ s1,
    put 1 0%nat (VNum 7) (Some (User 2))
        (mkState [CChan (base_chanobj [] [User 1])] [] [] 0) = Done tt s1 ∧
    ticks s1 = [Tick (User 2) VNull (VNum 7); Tick (User 1) VNull (VNum 7)].
Proof.
  destruct (C3_ack_then_callback
              (mkState [CChan (base_chanobj [] [User 1])] [] [] 0) 0%nat (VNum 7) 2 1
              (put 1 0%nat (VNum 7) (Some (User 2))))
    as (s1 & E & _ & T & _).
  - by eapply pairing_at_put.
  - exists s1. split; [exact E|exact T].
Defined.

(** C3 as the specification states it fails: in the rendezvous the ack is called first,
    so it is not called after the taker's callback consumed the value. *)
Lemma C3_counterexample :
  ∃ s,
    rendezvous = Done tt s ∧
    log s = [Tick (User 2) VNull (VNum 7); Tick (User 1) VNull (VNum 7)] ∧
    ¬ called_before (Tick (User 1) VNull (VNum 7)) (Tick (User 2) VNull (VNum 7)) (log s).
Proof.
  eexists. split; [reflexivity|]. split; [reflexivity|].
  simpl. intros (l1 & l2 & l3 & E).
  destruct l1 as [|t1 l1]; simplify_eq/=.
  destruct l1 as [|t1' l1]; simplify_eq/=.
  - destruct l2; simplify_eq/=.
  - destruct l1; simplify_eq/=.
Qed.

(** ** [take] without a callback (C9) *)

Lemma lookup_upd_chan_ne f c w s : c ≠ w → heap (upd_chan f c s) !! w = heap s !! w.
Proof.
  intros Hne. unfold upd_chan.
  destruct (heap s !! c) as [[]|]; simpl; by rewrite ?list_lookup_insert_ne.
Qed.

Lemma lookup_upd_chan_eq f c o s :
  heap s !! c = Some (CChan o) → heap (upd_chan f c s) !! c = Some (CChan (f o)).
Proof.
  intros H. unfold upd_chan. rewrite H. simpl.
  rewrite list_lookup_insert_eq; [done|]. by eapply lookup_lt_Some.
Qed.

Section Wrapper.

Context (s : state) (w c : loc) (N : Z) (t : option take_fn) (f : put_fn).
Context (fl : option fill_fn) (q : list CBV) (p : list callback).
Hypothesis Hw : heap s !! w = Some (CChan (wrapper_with c N t f fl)).
Hypothesis Hc : base_channel s c q p.

Lemma wrapper_ne : w ≠ c.
Proof. intros ->. unfold base_channel in Hc. by simplify_eq. Qed.

Lemma wrapper_get_queue : get _queue s w = Some (c, q).
Proof. eapply get_proto; eauto using wrapper_ne; done. Qed.

Lemma wrapper_get_pending : get _pending s w = Some (c, p).
Proof. eapply get_proto; eauto using wrapper_ne; done. Qed.

Lemma wrapper_backlog : backlog s w = Some (Z.of_nat (length q) - Z.of_nat (length p)).
Proof. unfold backlog. by rewrite wrapper_get_queue, wrapper_get_pending. Qed.

Lemma wrapper_get_channel : get _channel s w = Some (w, c).
Proof. by eapply get_own. Qed.

Lemma wrapper_get_bufferLength : get _bufferLength s w = Some (w, N).
Proof. by eapply get_own. Qed.

Lemma wrapper_method_put : method_put s w = f.
Proof. unfold method_put. by erewrite get_own. Qed.

Lemma wrapper_method_take_inherited : t = None → method_take s w = take_proto.
Proof. intros ->. unfold method_take. by erewrite get_proto_end. Qed.

Lemma wrapper_method_fill_inherited : fl = None → method_fill s w = fill_proto.
Proof. intros ->. unfold method_fill. by erewrite get_proto_end. Qed.

End Wrapper.

(** What [put] on an [expiringBuffer(N)] at capacity does: the oldest
    value leaves through a [take] without callback, then the new value is
    parked without callback and the producer's ack is sent. *)
Lemma expiringPut_evicts fuel s w c N e q v cb :
  heap s !! w = Some (CChan (wrapper_chanobj c N None expiringPut)) →
  base_channel s c (e :: q) [] →
  Z.of_nat (length (e :: q)) = N →
  ∃ s1 s',
    take (S fuel) w None s = Done tt s1 ∧
    put (S (S (S fuel))) w v cb s = Done tt s' ∧
    base_channel s' c (q ++ [mkCBV None v]) [] ∧
    ticks s1 = ticks s ++ value_tick (_value e) (_callback e) ∧
    ticks s' = ticks s1 ++ value_tick v cb ∧
    log s' = log s.
Proof.
  intros Hw Hc HN.
  pose proof (wrapper_ne _ _ _ _ _ _ _ _ _ Hw Hc) as Hne.
  set (s1 := sendValue (_value e) None
               (sendValue (_value e) (_callback e) (upd_chan (with_queue q) c s))).
  assert (Hc1 : base_channel s1 c q []).
  { subst s1. do 2 eapply base_sendValue. by eapply base_upd_queue. }
  assert (Hw1 : heap s1 !! w = Some (CChan (wrapper_chanobj c N None expiringPut))).
  { subst s1. rewrite !heap_sendValue. by rewrite lookup_upd_chan_ne. }
  assert (Et : take (S fuel) w None s = Done tt s1).
  { simpl. erewrite wrapper_method_take_inherited by done.
    unfold Channel_take. by erewrite wrapper_get_queue by done. }
  assert (El : expire_loop (S (S fuel)) w s = Done tt s1).
  { cbn [expire_loop].
    erewrite wrapper_backlog by done. erewrite wrapper_get_bufferLength by done.
    replace (N <=? _) with true by (symmetry; apply Z.leb_le; simpl length in *; lia).
    rewrite Et. cbn [bind expire_loop].
    erewrite wrapper_backlog by done. erewrite wrapper_get_bufferLength by done.
    replace (N <=? _) with false; [done|].
    symmetry; apply Z.leb_gt; simpl length in *; lia. }
  exists s1. eexists. split; [exact Et|].
  split.
  { unfold put. erewrite wrapper_method_put by done.
    cbn [put_with]. rewrite El. cbn [bind].
    erewrite wrapper_get_channel by done.
    rewrite (base_method_put _ _ _ _ Hc1). cbn [put_with].
    rewrite (Channel_put_park _ _ _ _ _ _ Hc1 eq_refl eq_refl). done. }
  split. { eapply base_sendValue. by eapply base_upd_queue. }
  split. { subst s1. autorewrite with chan. by rewrite app_nil_r. }
  split. { by autorewrite with chan. }
  subst s1. by autorewrite with chan.
Qed.

(** C9: on a base channel, [take()] without a callback removes the head
    [(value, ack)] of a non-empty ready queue and defers [ack(null, value)]
    (nothing is deferred when that [put] had no ack); on an empty ready
    queue it changes nothing.  An [expiringBuffer] at capacity evicts its
    oldest value by exactly this call. *)
Theorem C9_take_without_callback fuel s c q p :
  base_channel s c q p →
  match q with
  | e :: q' =>
      ∃ s', take (S fuel) c None s = Done tt s' ∧
        base_channel s' c q' p ∧
        ticks s' = ticks s ++ value_tick (_value e) (_callback e) ∧
        log s' = log s
  | [] => take (S fuel) c None s = Done tt s
  end ∧
  ∀ w v cb,
    heap s !! w = Some (CChan (wrapper_chanobj c (Z.of_nat (length q)) None expiringPut)) →
    p = [] → q ≠ [] →
    ∃ s1 s',
      take (S fuel) w None s = Done tt s1 ∧
      take (S fuel) c None s = Done tt s1 ∧
      put (S (S (S fuel))) w v cb s = Done tt s' ∧
      base_channel s' c (tail q ++ [mkCBV None v]) [] ∧
      ticks s' = ticks s1 ++ value_tick v cb.
Proof.
  intros H. split.
  - destruct q as [|e q'].
    + by eapply take_nothing.
    + rewrite (take_ready _ _ _ _ _ _ _ H). eexists. split; [done|].
      split. { do 2 eapply base_sendValue. by eapply base_upd_queue. }
      by rewrite !ticks_sendValue, !log_sendValue, ticks_upd_chan, log_upd_chan, app_nil_r.
  - intros w v cb Hw -> Hq. destruct q as [|e q']; [done|].
    destruct (expiringPut_evicts fuel s w c _ e q' v cb Hw H eq_refl)
      as (s1 & s' & Et & Ep & Hc' & T1 & T' & _).
    exists s1, s'. split; [done|]. split; [|done].
    rewrite (take_ready _ _ _ _ _ _ _ H).
    simpl in Et. erewrite wrapper_method_take_inherited in Et by done.
    unfold Channel_take in Et. by erewrite wrapper_get_queue in Et by done.
Qed.

Lemma C9_witness :
  ∃ s', take 1 0%nat None
          (mkState [CChan (base_chanobj [mkCBV (Some (User 5)) (VNum 3)] [])] [] [] 0)
        = Done tt s' ∧
        ticks s' = [Tick (User 5) VNull (VNum 3)].
Proof.
  destruct (C9_take_without_callback 0
              (mkState [CChan (base_chanobj [mkCBV (Some (User 5)) (VNum 3)] [])] [] [] 0)
              0%nat [mkCBV (Some (User 5)) (VNum 3)] [] eq_refl)
    as [(s' & E & _ & T & _) _].
  exists s'. split; [exact E|exact T].
Defined.

(** ** [fill] (C5, C10) *)

(** C10: [fill(v)] on a channel that has not been filled, so that its
    [fill] is still [Channel.prototype.fill], and whose [backlog()] is
    positive throws at once, and the state it throws in is the state it
    was called in: no queue and no method slot has changed, so [take],
    [put] and [fill] do afterwards what they did before. *)
Theorem C10_fill_positive_backlog_throws fuel s c v bl :
  backlog s c = Some bl → 0 < bl → method_fill s c = fill_proto →
  fill fuel c v s = Threw fill_error s.
Proof.
  intros Hb Hpos Hm. unfold fill, Channel_fill. rewrite Hm, Hb.
  by replace (0 <? bl) with true by (symmetry; by apply Z.ltb_lt).
Qed.

Lemma C10_witness :
  fill 0 0%nat (VNum 1)
    (mkState [CChan (base_chanobj [mkCBV None (VNum 3)] [])] [] [] 0)
  = Threw fill_error (mkState [CChan (base_chanobj [mkCBV None (VNum 3)] [])] [] [] 0).
Proof.
  apply (C10_fill_positive_backlog_throws 0 _ 0%nat (VNum 1) 1); [reflexivity|lia|reflexivity].
Defined.

(** C10 as the specification states it fails on a channel that has been
    filled: after [w = ch.buffer(3); w.fill(1); ch.put(3)] the backlog of
    [w] is 1, and [w.fill(9)] is the no-op that the first [fill]
    installed: it returns and throws nothing. *)
Lemma C10_counterexample :
  ∃ s, fill_after_put = Done tt s ∧
    backlog s 1%nat = Some 1 ∧
    (∀ fuel, fill fuel 1%nat (VNum 9) s = Done tt s).
Proof.
  eexists. split; [vm_compute; reflexivity|]. split; [reflexivity|].
  intros fuel. reflexivity.
Qed.

Lemma filled_take fuel s c v cb :
  filled s c v → take (S fuel) c cb s = Done tt (sendValue v cb s).
Proof.
  intros (o & H & Ht & _). simpl. unfold method_take.
  by rewrite (get_own own_take _ _ _ _ H Ht).
Qed.

Lemma filled_put fuel s c v w ack :
  filled s c v → put (S fuel) c w ack s = Done tt (sendError (VStr "filled") ack s).
Proof.
  intros (o & H & _ & Hp & _). unfold put, method_put.
  by rewrite (get_own own_put _ _ _ _ H Hp).
Qed.

Lemma filled_fill fuel s c v w : filled s c v → fill fuel c w s = Done tt s.
Proof.
  intros (o & H & _ & _ & Hf). unfold fill, method_fill.
  by rewrite (get_own own_fill _ _ _ _ H Hf).
Qed.

Lemma own_backlog s c o q p :
  heap s !! c = Some (CChan o) → _queue o = Some q → _pending o = Some p →
  backlog s c = Some (Z.of_nat (length q) - Z.of_nat (length p)).
Proof.
  intros H Hq Hp. unfold backlog.
  by rewrite (get_own _queue _ _ _ _ H Hq), (get_own _pending _ _ _ _ H Hp).
Qed.

Lemma heap_upd_chan f c o s :
  heap s !! c = Some (CChan o) → heap (upd_chan f c s) = <[c := CChan (f o)]> (heap s).
Proof. intros H. unfold upd_chan. by rewrite H. Qed.

(** The loop of [fill] hands [v] to every parked waiter, oldest first. *)
Lemma fill_loop_drains c v fuel p : ∀ s o,
  heap s !! c = Some (CChan o) → _queue o = Some [] → _pending o = Some p →
  ∃ s', fill_loop (S (length p + fuel)) put_proto c v s = Done tt s' ∧
    heap s' = <[c := CChan (with_pending [] o)]> (heap s) ∧
    ticks s' = ticks s ++ map (λ w, Tick w VNull v) p ∧
    log s' = log s.
Proof.
  induction p as [|w p IH]; intros s o H Hq Hp.
  - exists s. cbn [fill_loop length]. rewrite (own_backlog _ _ _ _ _ H Hq Hp). simpl.
    split; [done|]. split; [|by rewrite app_nil_r].
    symmetry. apply list_insert_id. rewrite H. destruct o; simpl in *; by subst.
  - cbn [fill_loop length Nat.add]. rewrite (own_backlog _ _ _ _ _ H Hq Hp).
    replace (_ <? 0) with true by (symmetry; apply Z.ltb_lt; simpl length; lia).
    cbn [put_with]. rewrite (Channel_put_waiting _ _ _ _ _ _ _ H Hp). cbn [bind].
    set (s1 := sendValue v (Some w) (sendValue v None (upd_chan (with_pending p) c s))).
    destruct (IH s1 (with_pending p o)) as (s' & E & Hh & Ht & Hl); [|done|done|].
    { subst s1. autorewrite with chan. by apply lookup_upd_chan_eq. }
    exists s'. split; [done|]. subst s1. autorewrite with chan in *.
    rewrite (heap_upd_chan _ _ _ _ H), list_insert_insert_eq in Hh.
    split; [done|]. split; [|done].
    rewrite Ht. simpl. by rewrite app_nil_r, <- app_assoc.
Qed.

(** One turn of the loop of [fill] on a wrapper: the [put] that the
    wrapper had before hands [v] to the oldest waiter. *)
Lemma wrapper_put_hands_over k s w c N t f0 fl f v w0 p :
  heap s !! w = Some (CChan (wrapper_with c N t f0 fl)) →
  base_channel s c [] (w0 :: p) →
  hands_over f N →
  put_with (S (S k)) f w v None s =
    Done tt (sendValue v (Some w0) (upd_chan (with_pending p) c s)).
Proof.
  intros Hw Hc Hf.
  assert (put_with (S k) (method_put s c) c v None s =
          Done tt (sendValue v (Some w0) (upd_chan (with_pending p) c s))) as Hinner.
  { rewrite (base_method_put _ _ _ _ Hc). simpl.
    by rewrite (Channel_put_waiting _ _ _ _ _ _ _ Hc eq_refl). }
  remember (S k) as m eqn:Hm.
  destruct Hf as [-> | [[-> HN] | [-> HN]]]; cbn [put_with].
  - erewrite wrapper_backlog by done. erewrite wrapper_get_channel by done.
    rewrite Hinner. by destruct (match get _bufferLength s w with Some _ => _ | None => _ end).
  - erewrite wrapper_backlog by done. erewrite wrapper_get_bufferLength by done.
    destruct (Z.ltb_spec (Z.of_nat (length (@nil CBV)) - Z.of_nat (length (w0 :: p))) N);
      [|simpl in *; lia].
    erewrite wrapper_get_channel by done. by rewrite Hinner.
  - subst m. cbn [expire_loop].
    erewrite wrapper_backlog by done. erewrite wrapper_get_bufferLength by done.
    destruct (Z.leb_spec N (Z.of_nat (length (@nil CBV)) - Z.of_nat (length (w0 :: p))));
      [simpl in *; lia|].
    cbn [bind]. erewrite wrapper_get_channel by done. by rewrite Hinner.
Qed.

Lemma fill_loop_drains_wrapper c w N t f0 fl f v fuel p : ∀ s,
  heap s !! w = Some (CChan (wrapper_with c N t f0 fl)) →
  base_channel s c [] p →
  hands_over f N →
  ∃ s', fill_loop (S (S (length p + fuel))) f w v s = Done tt s' ∧
    heap s' = <[c := CChan (base_chanobj [] [])]> (heap s) ∧
    ticks s' = ticks s ++ map (λ w, Tick w VNull v) p ∧
    log s' = log s.
Proof.
  induction p as [|w0 p IH]; intros s Hw Hc Hf.
  - exists s. cbn [fill_loop length Nat.add].
    erewrite wrapper_backlog by done. simpl.
    split; [done|]. split; [|by rewrite app_nil_r].
    symmetry. by apply list_insert_id.
  - cbn [fill_loop length Nat.add].
    erewrite wrapper_backlog by done.
    destruct (Z.ltb_spec (Z.of_nat (length (@nil CBV)) - Z.of_nat (length (w0 :: p))) 0);
      [|simpl in *; lia].
    erewrite wrapper_put_hands_over by done. cbn [bind].
    set (s1 := sendValue v (Some w0) (upd_chan (with_pending p) c s)).
    assert (w ≠ c) as Hne by (by eapply wrapper_ne).
    destruct (IH s1) as (s' & E & Hh & Ht & Hl); [| |done|].
    { subst s1. rewrite heap_sendValue, lookup_upd_chan_ne; done. }
    { subst s1. eapply base_sendValue. by eapply base_upd_pending. }
    exists s'. split; [done|]. subst s1.
    rewrite heap_sendValue, ticks_sendValue, log_sendValue, ticks_upd_chan, log_upd_chan in *.
    rewrite (heap_upd_chan _ _ _ _ Hc), list_insert_insert_eq in Hh.
    split; [done|]. split; [|done].
    rewrite Ht. simpl. by rewrite <- app_assoc.
Qed.

Lemma base_upd_chan_ne g s c w q p :
  w ≠ c → base_channel s c q p → base_channel (upd_chan g w s) c q p.
Proof. intros Hne H. unfold base_channel. by rewrite lookup_upd_chan_ne. Qed.

Lemma channel_on_hands_over s c this :
  channel_on s c this → this = c ∨
    ∃ N t f, heap s !! this = Some (CChan (wrapper_with c N t f None)) ∧ hands_over f N.
Proof.
  intros [|w N Hw|w N HN Hw|w N HN Hw]; [by left|right..];
    eexists _, _, _; (split; [exact Hw|]); unfold hands_over; auto.
Qed.

(** [fill(v)] on a wrapper: the closures go into the wrapper's own slots,
    the waiters parked on the base channel are served. *)
Lemma fill_wrapper fuel s c w N t f p v :
  heap s !! w = Some (CChan (wrapper_with c N t f None)) →
  base_channel s c [] p → hands_over f N →
  ∃ s', fill (S (S (length p + fuel))) w v s = Done tt s' ∧
    ticks s' = ticks s ++ map (λ w, Tick w VNull v) p ∧
    log s' = log s ∧ backlog s' w = Some 0 ∧ filled s' w v.
Proof.
  intros Hw Hc Hf. unfold fill, Channel_fill.
  erewrite wrapper_method_fill_inherited, wrapper_backlog by done.
  replace (0 <? _) with false by (symmetry; apply Z.ltb_ge; simpl; lia).
  erewrite wrapper_method_put by done.
  assert (w ≠ c) as Hne by (by eapply wrapper_ne).
  set (s1 := upd_chan _ w s).
  assert (H1 : heap s1 !! w =
    Some (CChan (wrapper_with c N (Some (take_filled v)) put_filled (Some noop))))
    by (subst s1; by rewrite (lookup_upd_chan_eq _ _ _ _ Hw)).
  assert (Hc1 : base_channel s1 c [] p) by (by apply base_upd_chan_ne).
  destruct (fill_loop_drains_wrapper c w N _ _ _ f v fuel p s1 H1 Hc1 Hf)
    as (s' & E & Hh & Ht & Hl).
  exists s'. split; [done|]. subst s1.
  rewrite ticks_upd_chan in Ht. rewrite log_upd_chan in Hl.
  do 2 (split; [done|]).
  assert (Hw' : heap s' !! w =
    Some (CChan (wrapper_with c N (Some (take_filled v)) put_filled (Some noop)))).
  { rewrite Hh, list_lookup_insert_ne; done. }
  assert (Hc' : base_channel s' c [] []).
  { unfold base_channel. rewrite Hh, list_lookup_insert_eq; [done|].
    by eapply lookup_lt_Some. }
  split; [by erewrite wrapper_backlog by done|].
  by eexists.
Qed.

(** X22: [fill(v)] on a base channel, or on a [buffer], a [droppingBuffer]
    of capacity at least 0 or an [expiringBuffer] of capacity at least 1
    made on it, when the backlog is at most 0 (with the queue invariant,
    the ready queue is empty): it returns, defers [w(null, v)] for every
    parked waiter [w], oldest first, calls nothing itself, and leaves the
    channel filled with backlog 0.  On a filled channel every [take(cb)]
    defers [cb(null, v)], every [put(w, ack)] defers [ack('filled', null)],
    neither changes the heap, and [fill] does nothing. *)
Theorem fill_serves_waiters fuel s c this q p v :
  base_channel s c q p → q = [] ∨ p = [] → channel_on s c this →
  Z.of_nat (length q) - Z.of_nat (length p) ≤ 0 →
  (∃ s', fill (S (S (length p + fuel))) this v s = Done tt s' ∧
     ticks s' = ticks s ++ map (λ w, Tick w VNull v) p ∧
     log s' = log s ∧
     backlog s' this = Some 0 ∧
     filled s' this v) ∧
  ∀ s2, filled s2 this v →
    (∀ fuel cb, ∃ s3, take (S fuel) this cb s2 = Done tt s3 ∧
       ticks s3 = ticks s2 ++ value_tick v cb ∧ heap s3 = heap s2 ∧ log s3 = log s2) ∧
    (∀ fuel w ack, ∃ s3, put (S fuel) this w ack s2 = Done tt s3 ∧
       ticks s3 = ticks s2 ++ error_tick (VStr "filled") ack ∧
       heap s3 = heap s2 ∧ log s3 = log s2) ∧
    (∀ fuel w, fill fuel this w s2 = Done tt s2).
Proof.
  intros H Hinv Hon Hbl. split.
  - assert (q = []) as ->.
    { destruct Hinv as [-> | ->]; [done|]. destruct q; [done|]. simpl in Hbl. lia. }
    destruct (channel_on_hands_over _ _ _ Hon) as [-> | (N & t & f & Hw & Hf)];
      [|by eapply fill_wrapper].
    unfold fill, Channel_fill.
    rewrite (base_method_fill _ _ _ _ H), (base_backlog _ _ _ _ H).
    replace (0 <? _) with false by (symmetry; apply Z.ltb_ge; simpl; lia).
    rewrite (base_method_put _ _ _ _ H).
    set (o := with_methods (take_filled v) put_filled noop (base_chanobj [] p)).
    set (s1 := upd_chan _ c s).
    assert (H1 : heap s1 !! c = Some (CChan o)) by (by apply lookup_upd_chan_eq).
    rewrite <- Nat.add_succ_r.
    destruct (fill_loop_drains c v (S fuel) p s1 o H1 eq_refl eq_refl) as (s' & E & Hh & Ht & Hl).
    exists s'. split; [done|]. subst s1.
    rewrite ticks_upd_chan in Ht. rewrite log_upd_chan in Hl.
    do 2 (split; [done|]).
    assert (H' : heap s' !! c = Some (CChan (with_pending [] o))).
    { rewrite Hh. rewrite list_lookup_insert_eq; [done|]. by eapply lookup_lt_Some. }
    split; [by rewrite (own_backlog _ _ _ _ _ H' eq_refl eq_refl)|].
    by exists (with_pending [] o).
  - intros s2 Hf. split; [|split].
    + intros fuel' cb. rewrite (filled_take _ _ _ _ _ Hf). eexists. split; [done|].
      by rewrite ticks_sendValue, heap_sendValue, log_sendValue.
    + intros fuel' w ack. rewrite (filled_put _ _ _ _ _ _ Hf). eexists. split; [done|].
      by rewrite ticks_sendError, heap_sendError, log_sendError.
    + intros fuel' w. by eapply filled_fill.
Qed.

Lemma fill_serves_waiters_witness :
  let s := mkState [CChan (base_chanobj [] [User 1; User 2]);
                    CChan (wrapper_chanobj 0 3 (Some bufferedTake) bufferedPut)] [] [] 0 in
  ∃ s', fill 4 1%nat (VNum 4) s = Done tt s' ∧
        ticks s' = [Tick (User 1) VNull (VNum 4); Tick (User 2) VNull (VNum 4)] ∧
        filled s' 1%nat (VNum 4).
Proof.
  intros s.
  destruct (fill_serves_waiters 0 s 0%nat 1%nat [] [User 1; User 2] (VNum 4))
    as [(s' & E & T & _ & _ & F) _].
  - reflexivity.
  - by left.
  - by apply (on_buffer s 0%nat 1%nat 3).
  - simpl. lia.
  - exists s'. split; [exact E|]. split; [exact T|exact F].
Defined.

(** The loop of [fill] on a wrapper with [droppingPut] as [origPut],
    a capacity that is negative and not above the backlog: [droppingPut]
    drops the value, the takers stay parked, and no number of turns ends
    the loop. *)
Lemma fill_loop_dropping_never_ends s c w N t f fl p v :
  heap s !! w = Some (CChan (wrapper_with c N t f fl)) →
  base_channel s c [] p →
  N ≤ - Z.of_nat (length p) < 0 →
  ∀ fuel, fill_loop fuel droppingPut w v s = OutOfFuel.
Proof.
  intros Hw Hc HN fuel. induction fuel as [|fuel IH]; [done|].
  cbn [fill_loop]. erewrite wrapper_backlog by done.
  destruct (Z.ltb_spec (Z.of_nat (length (@nil CBV)) - Z.of_nat (length p)) 0);
    [|simpl in *; lia].
  destruct fuel as [|fuel]; [done|]. cbn [put_with].
  erewrite wrapper_backlog by done. erewrite wrapper_get_bufferLength by done.
  destruct (Z.ltb_spec (Z.of_nat (length (@nil CBV)) - Z.of_nat (length p)) N);
    [simpl in *; lia|].
  exact IH.
Qed.

Lemma fill_droppingBuffer_never_returns s c w N p v :
  heap s !! w = Some (CChan (wrapper_chanobj c N None droppingPut)) →
  base_channel s c [] p →
  N ≤ - Z.of_nat (length p) < 0 →
  ∀ fuel, fill fuel w v s = OutOfFuel.
Proof.
  intros Hw Hc HN fuel. unfold fill, Channel_fill.
  erewrite wrapper_method_fill_inherited, wrapper_backlog by done.
  replace (0 <? _) with false by (symmetry; apply Z.ltb_ge; simpl; lia).
  erewrite wrapper_method_put by done.
  assert (w ≠ c) as Hne by (by eapply wrapper_ne).
  eapply (fill_loop_dropping_never_ends _ c w N _ _ _ p).
  - by rewrite (lookup_upd_chan_eq _ _ _ _ Hw).
  - by apply base_upd_chan_ne.
  - done.
Qed.

(** C5: [fill(v)] does not serve the waiter of every channel whose backlog
    is at most 0.  After [ch = new Channel(); ch.take(cb);
    w = ch.droppingBuffer(-1)] the backlog of [w] is -1 and [cb] is
    parked, and [w.fill(4)] never returns: the loop that is to satisfy the
    waiting takers calls the [put] that [w] had, [droppingPut], which
    drops the value, so the backlog stays -1, whatever the number of
    turns.  [cb] is not served and [fill] has no "after". *)
Theorem C5_fill_never_returns :
  ∃ s w, waiter_then_droppingBuffer (-1) = Done w s ∧
    base_channel s 0%nat [] [User 1] ∧
    backlog s w = Some (-1) ∧
    ∀ fuel, fill fuel w (VNum 4) s = OutOfFuel.
Proof.
  eexists _, _. split; [reflexivity|]. split; [reflexivity|]. split; [reflexivity|].
  eapply (fill_droppingBuffer_never_returns _ 0%nat 1%nat (-1) [User 1]);
    [reflexivity|reflexivity|simpl; lia].
Qed.

(** ** [resolve] (C1) *)

Lemma run_fixpoint fuel s : run 1 fuel s = Done tt s → ∀ n, run n fuel s = Done tt s.
Proof.
  intros H n. induction n as [|n IH]; [done|].
  simpl in *. destruct (ticks s) as [|t rest]; [done|].
  destruct (invoke fuel _ _ _ _) as [[] s'| |]; simpl in *; [|done..].
  by simplify_eq.
Qed.

(** Where the contract holds: an array of channels only, not recursive. *)
Example resolve_two_channels_calls_back_once :
  ∃ s, resolve_two_channels = Done tt s ∧
    log s = [Tick (User 1) VNull (VRef 2%nat)] ∧
    heap s !! 2%nat = Some (CArr [VNum 10; VNum 20]) ∧
    ticks s = [].
Proof. eexists. split; [vm_compute; reflexivity|]. done. Qed.

(** C1 fails on the code.  (1) With a scalar next to a channel in the
    array, [cb] is called in the first tick with the array whose channel
    slot still holds the channel, which still waits for its value.
    (2) With [recursive = true], once the channel has delivered, the
    receiver re-schedules itself for ever: however many deferred calls
    run, [cb] has not been called and the slot has not been replaced.
    (3) With a keyed object inside a keyed object, the shared global
    counter goes to -1: every channel has delivered, nothing is left to
    run, and [cb] has not been called. *)
Theorem C1_resolve_breaks_contract :
  (∃ s, resolve_mixed_array = Done tt s ∧
     log s = [Tick (User 1) VNull (VRef 1%nat)] ∧
     heap s !! 1%nat = Some (CArr [VRef 0%nat; VNum 5]) ∧
     base_channel s 0%nat [] [arrReceiver 1%nat 0%nat 2%nat false (User 1)] ∧
     ticks s = []) ∧
  (∃ s, resolve_recursive_array = Done tt s ∧
     ∀ n, ∃ s', run n 3 s = Done tt s' ∧
       log s' = [] ∧ heap s' !! 1%nat = Some (CArr [VRef 0%nat])) ∧
  (∃ s, resolve_nested_object = Done tt s ∧
     log s = [] ∧ ticks s = [] ∧ g_unresolved s = -1 ∧
     base_channel s 0%nat [] [] ∧ base_channel s 1%nat [] [] ∧
     heap s !! 2%nat = Some (CObj [("c"%string, VNum 20)]) ∧
     heap s !! 3%nat = Some (CObj [("a"%string, VNum 10); ("b"%string, VRef 2%nat)])).
Proof.
  split; [|split].
  - eexists. split; [vm_compute; reflexivity|]. done.
  - eexists. split; [vm_compute; reflexivity|].
    intros [|[|n]].
    + eexists. split; [vm_compute; reflexivity|]. done.
    + eexists. split; [vm_compute; reflexivity|]. done.
    + eexists. change (S (S n)) with (2 + n)%nat. split.
      * cbn [run Nat.add ticks invoke resolve t_callback t_err t_value bind].
        simpl. apply run_fixpoint. vm_compute. reflexivity.
      * done.
  - eexists. split; [vm_compute; reflexivity|]. done.
Qed.

(** ** [stream] and [takeN] (C8) *)

Lemma index_nat {A} (l : list A) (n : nat) : index l (Z.of_nat n) = l !! n.
Proof. unfold index. destruct (Z.ltb_spec (Z.of_nat n) 0); [lia|]. by rewrite Nat2Z.id. Qed.

Lemma run_quiet n fuel s : ticks s = [] → run n fuel s = Done tt s.
Proof. intros E. destruct n; simpl; [done|]. by rewrite E. Qed.

Lemma bind_assoc {A B C} (o : outcome A) (f : A → state → outcome B)
    (g : B → state → outcome C) :
  bind (bind o f) g = bind o (λ a s, bind (f a s) g).
Proof. by destruct o. Qed.

Lemma run_add fuel a b : ∀ s,
  run (a + b) fuel s = let* _ := run a fuel s in run b fuel.
Proof.
  induction a as [|a IH]; intros s; [done|].
  simpl. destruct (ticks s) as [|t rest] eqn:E.
  - simpl. by rewrite run_quiet.
  - rewrite bind_assoc. destruct (invoke _ _ _ _ _) as [[] s'| |]; simpl; [|done..].
    apply IH.
Qed.

Section StreamTakeN.

Context (first : bool) (cb ack : option callback).

#[local] Abbreviation receive_closure := (Channel.receive_closure first cb).
#[local] Abbreviation next_closure := (Channel.next_closure first ack).
#[local] Abbreviation stream_state := (Channel.stream_state first).

(** [next] puts the element at [i], which has to wait for a taker. *)
Lemma next_puts xs fuel group (i : nat) x t l e v :
  xs !! i = Some x →
  invoke (S (S fuel)) next_closure e v (stream_state xs group (Z.of_nat i) [] [] t l) =
    Done tt (stream_state xs group (Z.of_nat i + 1)
               [mkCBV (Some next_closure) x] [] t l).
Proof.
  intros Hx. pose proof (lookup_lt_Some _ _ _ Hx) as Hlt.
  destruct first;
    cbn [invoke Channel.next_closure i_loc stream_next_body Channel.stream_state
         heap lookup list_lookup];
    (destruct (Z.ltb_spec (Z.of_nat i) (Z.of_nat (length xs))); [|lia]);
    rewrite index_nat, Hx; reflexivity.
Qed.

(** [next] past the last element sends the ack of [stream]. *)
Lemma next_finishes xs fuel group t l e v :
  invoke (S (S fuel)) next_closure e v
         (stream_state xs group (Z.of_nat (length xs)) [] [] t l) =
    Done tt (stream_state xs group (Z.of_nat (length xs)) [] []
               (t ++ value_tick (VRef 1%nat) ack) l).
Proof.
  destruct first;
    cbn [invoke Channel.next_closure i_loc stream_next_body Channel.stream_state
         heap lookup list_lookup];
    rewrite Z.ltb_irrefl; (destruct ack; simpl; [done|]); by rewrite app_nil_r.
Qed.

(** [receive] stores a value and takes the one after it, which is ready. *)
Lemma receive_takes xs fuel group x y i t l :
  x ≠ VNull → (length group + 1 < length xs)%nat →
  invoke (S (S fuel)) (receive_closure xs) VNull x
         (stream_state xs group i [mkCBV (Some next_closure) y] [] t l) =
    Done tt (stream_state xs (group ++ [x]) i [] []
               (t ++ [Tick next_closure VNull y; Tick (receive_closure xs) VNull y]) l).
Proof.
  intros Hx Hlt.
  destruct first;
    cbn [invoke Channel.receive_closure group_loc takeN_receive_body
         Channel.stream_state heap lookup list_lookup truthy];
    (destruct (decide (x = VNull)); [done|]);
    rewrite length_app; simpl length;
    (destruct (Z.ltb_spec (Z.of_nat (length group + 1)) (Z.of_nat (length xs))); [|lia]);
    cbn;
    unfold nextTick, set_heap, set_cell, set_ticks, Channel.stream_state,
      Channel.receive_closure, Channel.next_closure, base_chanobj, with_queue; simpl;
    by rewrite <- app_assoc.
Qed.

(** [receive] stores the last value and sends the group. *)
Lemma receive_finishes xs fuel group x i t l :
  x ≠ VNull → (length group + 1 = length xs)%nat →
  invoke (S (S fuel)) (receive_closure xs) VNull x (stream_state xs group i [] [] t l) =
    Done tt (stream_state xs (group ++ [x]) i [] []
               (t ++ value_tick (VRef (group_loc first)) cb) l).
Proof.
  intros Hx Hlt.
  destruct first;
    cbn [invoke Channel.receive_closure group_loc takeN_receive_body
         Channel.stream_state heap lookup list_lookup truthy];
    (destruct (decide (x = VNull)); [done|]);
    rewrite length_app; simpl length;
    (destruct (Z.ltb_spec (Z.of_nat (length group + 1)) (Z.of_nat (length xs))); [lia|]);
    (destruct cb; simpl; [done|]); by rewrite app_nil_r.
Qed.

Lemma run_st xs n fuel group i q p c e v t l :
  run (S n) fuel (stream_state xs group i q p (Tick c e v :: t) l) =
    let* _ := invoke fuel c e v (stream_state xs group i q p t l) in run n fuel.
Proof. reflexivity. Qed.

(** The loop: [pre] has been received, [x] is on its way to both closures. *)
Lemma stream_takeN_loop xs fuel l post : ∀ pre x,
  xs = pre ++ x :: post → Forall (λ v, v ≠ VNull) xs →
  run (2 * length post + 2) (S (S fuel))
      (stream_state xs pre (Z.of_nat (length pre) + 1) [] []
          [Tick next_closure VNull x; Tick (receive_closure xs) VNull x] l) =
    Done tt (stream_state xs xs (Z.of_nat (length xs)) [] []
               (value_tick (VRef 1%nat) ack ++ value_tick (VRef (group_loc first)) cb) l).
Proof.
  induction post as [|y post IH]; intros pre x Hxs Hnn.
  - assert (length xs = length pre + 1)%nat as Hlen by (rewrite Hxs, length_app; simpl; lia).
    assert (x ≠ VNull) as Hx.
    { rewrite Forall_forall in Hnn. apply Hnn. rewrite Hxs. apply elem_of_app. right. left. }
    change (2 * length [] + 2)%nat with 2%nat.
    replace (Z.of_nat (length pre) + 1) with (Z.of_nat (length xs)) by lia.
    rewrite run_st, next_finishes. cbn [bind app].
    rewrite run_st, receive_finishes by (done || lia). cbn [bind].
    by rewrite <- Hxs.
  - assert (x ≠ VNull) as Hx.
    { rewrite Forall_forall in Hnn. apply Hnn. rewrite Hxs. apply elem_of_app. right. left. }
    assert (xs !! (length pre + 1)%nat = Some y) as Hy.
    { rewrite Hxs. rewrite lookup_app_r by lia.
      by replace (length pre + 1 - length pre)%nat with 1%nat by lia. }
    assert (length xs = length pre + S (S (length post)))%nat as Hlen
      by (rewrite Hxs, length_app; simpl; lia).
    replace (2 * length (y :: post) + 2)%nat with (S (S (2 * length post + 2))) by (simpl; lia).
    replace (Z.of_nat (length pre) + 1) with (Z.of_nat (length pre + 1)) by lia.
    rewrite run_st, (next_puts _ _ _ _ y) by done. cbn [bind].
    rewrite run_st, receive_takes by (done || lia). cbn [bind app].
    replace (Z.of_nat (length pre + 1) + 1) with (Z.of_nat (length (pre ++ [x])) + 1)
      by (rewrite length_app; simpl; lia).
    apply IH; [|done]. by rewrite <- app_assoc.
Qed.

End StreamTakeN.

Lemma stream_takeN first xs fuel (a b : nat) :
  xs ≠ [] → Forall (λ v, v ≠ VNull) xs →
  stream_and_takeN first (Some (User b)) (Some (User a)) xs (S (S fuel)) =
    Done tt (stream_state first xs xs (Z.of_nat (length xs)) [] [] []
               [Tick (User a) VNull (VRef 1%nat);
                Tick (User b) VNull (VRef (group_loc first))]).
Proof.
  intros Hne Hnn. destruct xs as [|x post]; [done|].
  unfold stream_and_takeN.
  replace (2 * length (x :: post) + 2)%nat with ((2 * length post + 2) + 2)%nat
    by (simpl; lia).
  destruct first.
  - cbn -[run Z.of_nat Nat.add Nat.mul].
    destruct (Z.ltb_spec 0 (Z.of_nat (S (length post)))); [|lia].
    cbn [bind].
    match goal with
    | |- run ?k ?f ?s0 = _ =>
        change s0 with
          (stream_state true (x :: post) [] (Z.of_nat (length (@nil value)) + 1) [] []
              [Tick (next_closure true (Some (User a))) VNull x;
               Tick (receive_closure true (Some (User b)) (x :: post)) VNull x] [])
    end.
    rewrite run_add.
    rewrite (stream_takeN_loop true _ _ (x :: post) fuel [] post [] x eq_refl Hnn).
    reflexivity.
  - cbn -[run Z.of_nat Nat.add Nat.mul].
    destruct (Z.ltb_spec 0 (Z.of_nat (S (length post)))); [|lia].
    cbn -[run Z.of_nat Nat.add Nat.mul].
    match goal with
    | |- run ?k ?f ?s0 = _ =>
        change s0 with
          (stream_state false (x :: post) [] (Z.of_nat (length (@nil value)) + 1) [] []
              [Tick (next_closure false (Some (User a))) VNull x;
               Tick (receive_closure false (Some (User b)) (x :: post)) VNull x] [])
    end.
    rewrite run_add.
    rewrite (stream_takeN_loop false _ _ (x :: post) fuel [] post [] x eq_refl Hnn).
    reflexivity.
Qed.

(** C8, as the code has it: for every non-empty array [xs] without a
    [null] element, [takeN(|xs|, cb)] and [stream(xs, ack)] on a new
    channel, in either order, make the event loop call [ack(null, xs)],
    with the streamed array itself, once the last element has been taken,
    and call [cb(null, group)] with a new array whose elements are those
    of [xs]; nothing else is called and nothing is left in the channel. *)
Theorem C8_stream_and_takeN (takeN_first : bool) (xs : list value) (a b : nat)
    (fuel : nat) :
  xs ≠ [] → Forall (λ v, v ≠ VNull) xs →
  ∃ s,
    stream_and_takeN takeN_first (Some (User b)) (Some (User a)) xs (S (S fuel))
      = Done tt s ∧
    log s = [Tick (User a) VNull (VRef 1%nat);
             Tick (User b) VNull (VRef (group_loc takeN_first))] ∧
    heap s !! 1%nat = Some (CArr xs) ∧
    heap s !! group_loc takeN_first = Some (CArr xs) ∧
    ticks s = [] ∧
    base_channel s 0%nat [] [].
Proof.
  intros Hne Hnn. eexists. split; [by apply stream_takeN|].
  by destruct takeN_first.
Qed.

Lemma C8_witness :
  ∃ s,
    stream_and_takeN true (Some (User 2)) (Some (User 1)) [VNum 7; VNum 8] 2 = Done tt s ∧
    log s = [Tick (User 1) VNull (VRef 1%nat); Tick (User 2) VNull (VRef 2%nat)] ∧
    heap s !! 2%nat = Some (CArr [VNum 7; VNum 8]).
Proof.
  destruct (C8_stream_and_takeN true [VNum 7; VNum 8] 1 2 0) as (s & E & L & _ & G & _).
  - done.
  - by repeat constructor.
  - exists s. split; [exact E|]. split; [exact L|exact G].
Defined.

(** C8 as the specification states it fails.  With a [null] in the array, [takeN] stops
    at it: [cb] gets the elements before the [null], the element after it
    stays parked and the ack of [stream] is never called.  With the empty
    array, [takeN(0, cb)] waits for a value that never comes: only the ack
    of [stream] is called. *)
Lemma C8_counterexample :
  (∃ s,
     stream_and_takeN true (Some (User 2)) (Some (User 1)) [VNum 1; VNull; VNum 3] 2
       = Done tt s ∧
     log s = [Tick (User 2) VNull (VRef 2%nat)] ∧
     heap s !! 2%nat = Some (CArr [VNum 1]) ∧
     ticks s = [] ∧
     base_channel s 0%nat
       [mkCBV (Some (stream_next 3%nat 1%nat 0%nat (Some (User 1)))) (VNum 3)] []) ∧
  (∃ s,
     stream_and_takeN true (Some (User 2)) (Some (User 1)) [] 2 = Done tt s ∧
     log s = [Tick (User 1) VNull (VRef 1%nat)] ∧
     ticks s = [] ∧
     base_channel s 0%nat [] [takeN_receive 2%nat 0 0%nat (Some (User 2))]).
Proof.
  split; (eexists; split; [vm_compute; reflexivity|done]).
Qed.

(** ** Every callback that enters a channel leaves it once (C2) *)

Lemma tally_app {A} (f : A → bool) l1 l2 :
  tally f (l1 ++ l2) = (tally f l1 + tally f l2)%nat.
Proof. induction l1 as [|x l1 IH]; simpl; [done|]. rewrite IH. lia. Qed.

Lemma total_of_app {A} (f : A → nat) l1 l2 :
  total_of f (l1 ++ l2) = (total_of f l1 + total_of f l2)%nat.
Proof. induction l1 as [|x l1 IH]; simpl; [done|]. rewrite IH. lia. Qed.

Lemma total_of_insert {A} (f : A → nat) (l : list A) i x y :
  l !! i = Some y →
  (total_of f (<[i:=x]> l) + f y = total_of f l + f x)%nat.
Proof.
  revert i. induction l as [|z l IH]; intros [|i] H; simplify_eq/=; [lia|].
  specialize (IH _ H). lia.
Qed.

Lemma tally_insert {A} (f : A → bool) (l : list A) i x y :
  l !! i = Some y →
  (tally f (<[i:=x]> l) + (if f y then 1 else 0) =
   tally f l + (if f x then 1 else 0))%nat.
Proof.
  revert i. induction l as [|z l IH]; intros [|i] H; simplify_eq/=; [lia|].
  specialize (IH _ H). lia.
Qed.

Section Flow.

(** [f] selects callbacks, [g] selects calls; a selected call is a call of
    a selected callback. *)
Context (f : callback → bool) (g : tick → bool).
Hypothesis g_f : ∀ t, g t = true → f (t_callback t) = true.

#[local] Abbreviation parked_call := (Channel.parked_call g).
#[local] Abbreviation parked_in := (Channel.parked_in g).
#[local] Abbreviation waiting_in := (Channel.waiting_in f).
#[local] Abbreviation flow := (Channel.flow g).
#[local] Abbreviation waiters := (Channel.waiters f).
#[local] Abbreviation sent := (Channel.sent g).
#[local] Abbreviation unselected := (Channel.unselected f).
#[local] Abbreviation kept := (Channel.kept f g).
#[local] Abbreviation put_law := (Channel.put_law f g).

Lemma flow_sendValue v cb s : flow (sendValue v cb s) = (flow s + sent cb VNull v)%nat.
Proof.
  unfold flow. destruct cb as [c|]; simpl; [|lia].
  rewrite tally_app. simpl. lia.
Qed.

Lemma flow_sendError e cb s : flow (sendError e cb s) = (flow s + sent cb e VNull)%nat.
Proof.
  unfold flow. destruct cb as [c|]; simpl; [|lia].
  rewrite tally_app. simpl. lia.
Qed.

Lemma waiters_sendValue v cb s : waiters (sendValue v cb s) = waiters s.
Proof. unfold waiters. by rewrite heap_sendValue. Qed.

Lemma waiters_sendError v cb s : waiters (sendError v cb s) = waiters s.
Proof. unfold waiters. by rewrite heap_sendError. Qed.

Lemma flow_upd_chan h c o s :
  heap s !! c = Some (CChan o) →
  (flow (upd_chan h c s) + parked_in (CChan o) = flow s + parked_in (CChan (h o)))%nat.
Proof.
  intros H. unfold flow. rewrite log_upd_chan, ticks_upd_chan, (heap_upd_chan _ _ _ _ H).
  pose proof (total_of_insert parked_in (heap s) c (CChan (h o)) _ H). lia.
Qed.

Lemma waiters_upd_chan h c o s :
  heap s !! c = Some (CChan o) →
  (waiters (upd_chan h c s) + waiting_in (CChan o) =
   waiters s + waiting_in (CChan (h o)))%nat.
Proof.
  intros H. unfold waiters. rewrite (heap_upd_chan _ _ _ _ H).
  apply total_of_insert. done.
Qed.

Lemma get_sound {A} (field : chanobj → option A) s c l a :
  get field s c = Some (l, a) →
  ∃ o, heap s !! l = Some (CChan o) ∧ field o = Some a.
Proof.
  unfold get. generalize (length (heap s)). intros n. revert c.
  induction n as [|n IH]; intros c; simpl; [done|].
  destruct (heap s !! c) as [[o| | |]|] eqn:E; try done.
  destruct (field o) eqn:Ef.
  - intros; simplify_eq. eauto.
  - destruct (proto o); [apply IH|done].
Qed.

(** A waiter counted by [waiters] is in some waiter queue. *)
Lemma waiters_zero_lookup s c o p :
  waiters s = 0%nat → heap s !! c = Some (CChan o) → _pending o = Some p →
  tally f p = 0%nat.
Proof.
  unfold waiters. intros Hz H Hp.
  assert (∀ h i x, h !! i = Some x → (waiting_in x ≤ total_of waiting_in h)%nat) as Hle.
  { clear. induction h as [|z h IH]; intros [|i] x Hx; simplify_eq/=; [lia|].
    specialize (IH _ _ Hx). lia. }
  specialize (Hle _ _ _ H). simpl in Hle. rewrite Hp in Hle. simpl in Hle. lia.
Qed.

Lemma after_bind {A B} (Q : state → Prop) (o : outcome A) (k : A → state → outcome B) :
  after Q o → (∀ a s, Q s → after Q (k a s)) → after Q (bind o k).
Proof. destruct o; simpl; auto. Qed.

Lemma sent_unselected cb e v : unselected cb → sent cb e v = 0%nat.
Proof.
  destruct cb as [c|]; simpl; [|done]. intros Hc.
  destruct (g _) eqn:E; [|done]. apply g_f in E. simpl in E. congruence.
Qed.

Lemma sent_parked e :
  sent (_callback e) VNull (_value e) = if parked_call e then 1%nat else 0%nat.
Proof. unfold sent, parked_call. by destruct (_callback e). Qed.

Lemma Channel_take_kept this cb s :
  waiters s = 0%nat → unselected cb → after (kept s) (Channel_take this cb s).
Proof.
  intros Hw Hcb. unfold Channel_take.
  destruct (get _queue s this) as [[qo [|e rest]]|] eqn:Eq; [| |done].
  - destruct cb as [c|]; [|done].
    destruct (get _pending s this) as [[po p]|] eqn:Ep; [|done].
    apply get_sound in Ep as (o & H & Hp). cbn [after]. unfold kept.
    pose proof (flow_upd_chan (with_pending (p ++ [c])) _ _ _ H) as Hf.
    pose proof (waiters_upd_chan (with_pending (p ++ [c])) _ _ _ H) as Hw'.
    simpl in Hf, Hw'. rewrite Hp in Hw'. simpl in Hw', Hcb.
    rewrite tally_app in Hw'. simpl in Hw'. rewrite Hcb in Hw'.
    split; lia.
  - apply get_sound in Eq as (o & H & Hq). cbn [after]. unfold kept.
    pose proof (flow_upd_chan (with_queue rest) _ _ _ H) as Hf.
    pose proof (waiters_upd_chan (with_queue rest) _ _ _ H) as Hw'.
    simpl in Hf, Hw'. rewrite Hq in Hf. simpl in Hf.
    split.
    + rewrite !flow_sendValue, sent_parked, (sent_unselected cb) by done. lia.
    + rewrite !waiters_sendValue. lia.
Qed.

Lemma Channel_put_law this v cb s :
  waiters s = 0%nat → put_law s cb (VNull, v) (Channel_put this v cb s).
Proof.
  intros Hw. unfold Channel_put.
  destruct (get _pending s this) as [[po [|w rest]]|] eqn:Ep; [| |done].
  - destruct (get _queue s this) as [[qo q]|] eqn:Eq; [|done].
    apply get_sound in Eq as (o & H & Hq). cbn [put_law fst snd].
    pose proof (flow_upd_chan (with_queue (q ++ [mkCBV cb v])) _ _ _ H) as Hf.
    pose proof (waiters_upd_chan (with_queue (q ++ [mkCBV cb v])) _ _ _ H) as Hw'.
    simpl in Hf, Hw'. rewrite Hq in Hf. simpl in Hf.
    rewrite tally_app in Hf. simpl in Hf.
    pose proof (sent_parked (mkCBV cb v)) as Hs. simpl in Hs.
    split; lia.
  - apply get_sound in Ep as (o & H & Hp). cbn [put_law fst snd].
    pose proof (waiters_zero_lookup _ _ _ _ Hw H Hp) as Hz. simpl in Hz.
    destruct (f w) eqn:Efw; [lia|].
    pose proof (flow_upd_chan (with_pending rest) _ _ _ H) as Hf.
    pose proof (waiters_upd_chan (with_pending rest) _ _ _ H) as Hw'.
    simpl in Hf, Hw'. rewrite Hp in Hw'. simpl in Hw'. rewrite Efw in Hw'.
    split.
    + rewrite !flow_sendValue, (sent_unselected (Some w)) by done. lia.
    + rewrite !waiters_sendValue. lia.
Qed.

Lemma kept_refl s : waiters s = 0%nat → kept s s.
Proof. by split. Qed.

Lemma kept_trans s1 s2 s3 : kept s1 s2 → kept s2 s3 → kept s1 s3.
Proof. unfold kept. intros [] []. split; congruence. Qed.

Lemma clear_callback_tally i qs q :
  index qs i = Some q →
  (tally parked_call (clear_callback i qs) + (if parked_call q then 1 else 0) =
   tally parked_call qs)%nat.
Proof.
  intros H. unfold clear_callback. rewrite H.
  unfold index in H. destruct (i <? 0); [done|].
  pose proof (tally_insert parked_call qs _ (mkCBV None (_value q)) _ H) as Ht.
  unfold parked_call at 4 in Ht. simpl in Ht. lia.
Qed.

Lemma bufferedTake_release_kept this s :
  waiters s = 0%nat → after (kept s) (bufferedTake_release this s).
Proof.
  intros Hw. unfold bufferedTake_release.
  destruct (backlog s this); [|by apply kept_refl].
  destruct (get _bufferLength s this) as [[? N]|]; [|by apply kept_refl].
  destruct (N <=? z); [|by apply kept_refl].
  destruct (get _queue s this) as [[qo qs]|] eqn:Eq; [|by apply kept_refl].
  destruct (index qs (N - 1)) as [q|] eqn:Ei; [|by apply kept_refl].
  apply get_sound in Eq as (o & H & Hq). cbn [after]. unfold kept.
  assert (heap (sendValue (_value q) (_callback q) s) !! qo = Some (CChan o)) as H'
    by (by rewrite heap_sendValue).
  pose proof (flow_upd_chan (with_queue (clear_callback (N - 1) qs)) _ _ _ H') as Hf.
  pose proof (waiters_upd_chan (with_queue (clear_callback (N - 1) qs)) _ _ _ H') as Hw'.
  simpl in Hf, Hw'. rewrite Hq in Hf. simpl in Hf.
  pose proof (clear_callback_tally _ _ _ Ei).
  rewrite flow_sendValue, sent_parked in Hf. rewrite waiters_sendValue in Hw'.
  split; lia.
Qed.

Lemma take_kept fuel : ∀ this cb s,
  waiters s = 0%nat → unselected cb → after (kept s) (take fuel this cb s).
Proof.
  induction fuel as [|fuel IH]; intros this cb s Hw Hcb; [done|]. simpl.
  destruct (method_take s this).
  - by apply Channel_take_kept.
  - destruct (get _channel s this) as [[? ch]|]; [|by apply kept_refl].
    specialize (IH ch cb s Hw Hcb).
    destruct (take fuel ch cb s) as [[] s1| |]; simpl in *; [|done..].
    pose proof (bufferedTake_release_kept this s1 (proj2 IH)) as Hr.
    destruct (bufferedTake_release this s1); simpl in *; eauto using kept_trans.
  - cbn [after]. split; [|by rewrite waiters_sendValue].
    rewrite flow_sendValue, sent_unselected by done. lia.
Qed.

Lemma expire_loop_kept fuel : ∀ this s,
  waiters s = 0%nat → after (kept s) (expire_loop fuel this s).
Proof.
  induction fuel as [|fuel IH]; intros this s Hw; [done|]. simpl.
  destruct (backlog s this); [|by apply kept_refl].
  destruct (get _bufferLength s this) as [[? N]|]; [|by apply kept_refl].
  destruct (N <=? z); [|by apply kept_refl].
  pose proof (take_kept fuel this None s Hw I) as Ht.
  destruct (take fuel this None s) as [[] s1| |]; simpl in *; [|done..].
  specialize (IH this s1 (proj2 Ht)).
  destruct (expire_loop fuel this s1); simpl in *; eauto using kept_trans.
Qed.

Lemma put_law_kept s s1 cb tok o :
  kept s s1 → put_law s1 cb tok o → put_law s cb tok o.
Proof.
  intros [Hf Hw]. destruct o as [[] s2|e s2|]; cbn [put_law]; [| |done].
  - intros [-> ?]. split; [|done]. by rewrite Hf.
  - unfold kept. intros [-> ?]. by split.
Qed.

(** The inner [put] without callback of a buffer, then the ack. *)
Lemma put_then_ack s cb v tok (o : outcome unit) :
  put_law s None tok o →
  put_law s cb (VNull, v)
    (let* _ := o in fun s => Done tt (sendValue v cb s)).
Proof.
  destruct o as [[] s1|e s1|]; cbn [put_law bind fst snd]; [|done..].
  intros [Hf Hw]. rewrite flow_sendValue, waiters_sendValue. simpl in Hf. split; lia.
Qed.

Lemma put_with_law fuel : ∀ fn this v cb s,
  waiters s = 0%nat →
  put_law s cb (ack_arguments fuel s fn this v) (put_with fuel fn this v cb s).
Proof.
  induction fuel as [|fuel IH]; intros fn this v cb s Hw; [done|].
  destruct fn; cbn [put_with ack_arguments].
  - by apply Channel_put_law.
  - unfold below_capacity.
    destruct (backlog s this) as [bl|]; [|by apply kept_refl].
    destruct (get _channel s this) as [[? ch]|]; [|by apply kept_refl].
    match goal with |- context [if ?b then _ else _] => destruct b end.
    + eapply put_then_ack. by apply IH.
    + by apply IH.
  - unfold below_capacity.
    destruct (backlog s this) as [bl|]; [|by apply kept_refl].
    match goal with |- context [if ?b then _ else _] => destruct b end.
    + destruct (get _channel s this) as [[? ch]|]; [|by apply kept_refl].
      eapply put_then_ack. by apply IH.
    + cbn [put_law fst snd]. rewrite flow_sendValue, waiters_sendValue. done.
  - pose proof (expire_loop_kept fuel this s Hw) as He.
    destruct (expire_loop fuel this s) as [[] s1| |]; simpl in He |- *; [|done..].
    eapply put_law_kept; [exact He|].
    destruct (get _channel s1 this) as [[? ch]|]; [|apply kept_refl, He].
    eapply put_then_ack. apply IH, He.
  - cbn [put_law fst snd]. rewrite flow_sendError, waiters_sendError. done.
Qed.

Lemma put_kept fuel fn this v s :
  waiters s = 0%nat → after (kept s) (put_with fuel fn this v None s).
Proof.
  intros Hw. pose proof (put_with_law fuel fn this v None s Hw) as H.
  destruct (put_with fuel fn this v None s); simpl in *; [|done..].
  destruct H. split; [lia|done].
Qed.

Lemma fill_loop_kept fuel : ∀ origPut this v s,
  waiters s = 0%nat → after (kept s) (fill_loop fuel origPut this v s).
Proof.
  induction fuel as [|fuel IH]; intros origPut this v s Hw; [done|]. simpl.
  destruct (backlog s this); [|by apply kept_refl].
  destruct (_ <? 0); [|by apply kept_refl].
  pose proof (put_kept fuel origPut this v s Hw) as Hp.
  destruct (put_with fuel origPut this v None s) as [[] s1| |]; simpl in *; [|done..].
  specialize (IH origPut this v s1 (proj2 Hp)).
  destruct (fill_loop fuel origPut this v s1); simpl in *; eauto using kept_trans.
Qed.

Lemma kept_upd_methods t p fl c s :
  waiters s = 0%nat → kept s (upd_chan (with_methods t p fl) c s).
Proof.
  intros Hw. destruct (heap s !! c) as [[o| | |]|] eqn:H.
  - pose proof (flow_upd_chan (with_methods t p fl) _ _ _ H) as Hf.
    pose proof (waiters_upd_chan (with_methods t p fl) _ _ _ H) as Hw'.
    simpl in Hf, Hw'. unfold kept. lia.
  - unfold upd_chan. rewrite H. by apply kept_refl.
  - unfold upd_chan. rewrite H. by apply kept_refl.
  - unfold upd_chan. rewrite H. by apply kept_refl.
  - unfold upd_chan. rewrite H. by apply kept_refl.
Qed.

Lemma fill_kept fuel this v s :
  waiters s = 0%nat → after (kept s) (fill fuel this v s).
Proof.
  intros Hw. unfold fill, Channel_fill.
  destruct (method_fill s this); [|by apply kept_refl].
  destruct (backlog s this); [|by apply kept_refl].
  destruct (0 <? _); [by apply kept_refl|].
  pose proof (kept_upd_methods (take_filled v) put_filled noop this s Hw) as Hk.
  pose proof (fill_loop_kept fuel (method_put s this) this v _ (proj2 Hk)) as Hl.
  destruct (fill_loop _ _ _ _ _); simpl in *; eauto using kept_trans.
Qed.

Lemma kept_alloc o s : waiters s = 0%nat → _queue o = None → _pending o = None →
  kept s (alloc (CChan o) s).2.
Proof.
  intros Hw Hq Hp. unfold kept, flow, waiters, alloc in *. simpl.
  rewrite !total_of_app. simpl. rewrite Hq, Hp. simpl. split; lia.
Qed.

Lemma kept_new_Channel s : waiters s = 0%nat → kept s (new_Channel s).2.
Proof.
  intros Hw. unfold kept, flow, waiters, new_Channel, alloc in *. simpl.
  rewrite !total_of_app. simpl. split; lia.
Qed.

End Flow.

(** *** Programs over channels *)

Lemma tally_zero_head {A} (f : A → bool) x l : tally f (x :: l) = 0%nat → f x = false.
Proof. simpl. destruct (f x); [lia|done]. Qed.

Lemma plain_head s t rest : plain s → ticks s = t :: rest → ∃ n, t_callback t = User n.
Proof.
  intros [_ Hf] E. unfold flow in Hf. rewrite E in Hf.
  assert (tally (λ t, not_user (t_callback t)) (t :: rest) = 0%nat) as H by lia.
  apply tally_zero_head in H. destruct (t_callback t); try done. eauto.
Qed.

Section Perform.

Context (f : callback → bool) (g : tick → bool).
Hypothesis g_f : ∀ t, g t = true → f (t_callback t) = true.

#[local] Abbreviation added := (Channel.added g).

Lemma run_one_kept fuel s :
  waiters f s = 0%nat → (∀ t rest, ticks s = t :: rest → ∃ n, t_callback t = User n) →
  after (kept f g s) (run 1 fuel s).
Proof.
  intros Hw Hhead. simpl. destruct (ticks s) as [|t rest] eqn:E; [by apply kept_refl|].
  destruct (Hhead _ _ eq_refl) as [n Hn]. destruct fuel as [|fuel]; [done|].
  destruct t as [cb e v]. simpl in Hn. subst cb. simpl.
  unfold kept, flow, waiters in *. simpl. rewrite E, tally_app. simpl. split; lia.
Qed.

Lemma perform_law fuel cmd s :
  waiters f s = 0%nat →
  (∀ c n, cmd = call_take c (Some n) → f (User n) = false) →
  (∀ t rest, ticks s = t :: rest → ∃ n, t_callback t = User n) →
  match perform fuel cmd s with
  | Done _ s' => flow g s' = (flow g s + added fuel cmd s)%nat ∧ waiters f s' = 0%nat
  | Threw _ s' => kept f g s s'
  | OutOfFuel => True
  end.
Proof.
  intros Hw Htake Hhead.
  assert (∀ o : outcome unit, after (kept f g s) o →
            match o with
            | Done _ s' => flow g s' = (flow g s + 0)%nat ∧ waiters f s' = 0%nat
            | Threw _ s' => kept f g s s'
            | OutOfFuel => True
            end) as Hkept.
  { intros [[] s'|e s'|]; simpl; [|done..]. intros []. split; [lia|done]. }
  destruct cmd as [|c N|c N|c N|c v ack|c cb|c v|]; cbn [perform added].
  - apply (Hkept (Done tt _)). by apply kept_new_Channel.
  - apply (Hkept (Done tt _)). by apply kept_alloc.
  - apply (Hkept (Done tt _)). by apply kept_alloc.
  - apply (Hkept (Done tt _)). by apply kept_alloc.
  - by apply put_with_law.
  - apply Hkept. apply take_kept; [done..|]. destruct cb as [n|]; simpl; eauto.
  - apply Hkept. by apply fill_kept.
  - apply Hkept. by apply run_one_kept.
Qed.

End Perform.

Lemma call_of_is_user a k t : call_of a k t = true → is_user a (t_callback t) = true.
Proof. unfold call_of. by intros [? _]%andb_true_iff. Qed.

Lemma perform_plain fuel cmd s :
  plain s → after plain (perform fuel cmd s).
Proof.
  intros Hp. pose proof Hp as [Hw Hf].
  pose proof (perform_law not_user (λ t, not_user (t_callback t)) (λ _ H, H)
                fuel cmd s Hw (λ _ _ _, eq_refl) (λ t rest, plain_head s t rest Hp)) as H.
  destruct (perform fuel cmd s) as [[] s'|e s'|] eqn:E; simpl; [| |done].
  - destruct H as [H1 H2].
    split; [done|]. rewrite H1, Hf.
    destruct cmd; simpl; try done. by destruct ack.
  - destruct H as [H1 H2].
    split; [done|]. by rewrite H1.
Qed.

Lemma tally_singleton (k k' : value * value) :
  tally (λ x, bool_decide (x = k)) [k'] = if bool_decide (k' = k) then 1%nat else 0%nat.
Proof. simpl. destruct (bool_decide _); lia. Qed.

Lemma added_due a k fuel cmd s s' :
  perform fuel cmd s = Done tt s' →
  added (call_of a k) fuel cmd s = tally (λ x, bool_decide (x = k)) (due a fuel cmd s).
Proof.
  intros E. destruct cmd as [| | | |c v [n|]| | |]; simpl; try done.
  unfold call_of. simpl.
  destruct (bool_decide (n = a)) eqn:En; simpl; [|done].
  simpl in E. rewrite E. rewrite tally_singleton.
  by destruct (ack_arguments _ _ _ _ _).
Qed.

Lemma due_threw a fuel cmd s e s' :
  perform fuel cmd s = Threw e s' → due a fuel cmd s = [].
Proof.
  intros E. destruct cmd as [| | | |c v [n|]| | |]; simpl; try done.
  destruct (bool_decide (n = a)); [|done]. simpl in E. by rewrite E.
Qed.

Lemma play_acks a k fuel cmds : ∀ s s',
  (∀ c, call_take c (Some a) ∉ cmds) →
  plain s → waiters (is_user a) s = 0%nat →
  play fuel cmds s = Some s' →
  acks a k s' = (acks a k s + tally (λ x, bool_decide (x = k)) (dues a fuel cmds s))%nat.
Proof.
  induction cmds as [|cmd cmds IH]; intros s s' Hno Hp Hw E; simpl in *.
  - simplify_eq. lia.
  - pose proof (perform_plain fuel cmd s Hp) as Hp'.
    assert (∀ c n, cmd = call_take c (Some n) → is_user a (User n) = false) as Htake.
    { intros c n ->. simpl. apply bool_decide_eq_false. intros ->.
      apply (Hno c). by left. }
    pose proof (perform_law (is_user a) (call_of a k) (call_of_is_user a k)
                  fuel cmd s Hw Htake (λ t rest, plain_head s t rest Hp)) as H.
    assert (∀ c, call_take c (Some a) ∉ cmds) as Hno'.
    { intros c Hc. apply (Hno c). by right. }
    destruct (perform fuel cmd s) as [[] s1|e s1|] eqn:E1; [| |done].
    + destruct H as [H1 H2].
      rewrite tally_app, (IH s1 s' Hno' Hp' H2 E).
      pose proof (added_due a k fuel cmd s s1 E1). unfold acks. lia.
    + destruct H as [H1 H2].
      rewrite tally_app, (IH s1 s' Hno' Hp' H2 E).
      rewrite (due_threw a fuel cmd s e s1 E1). unfold acks. simpl. lia.
Qed.

(** The loop of an [expiringBuffer(N)], [N ≥ 1], ends: each turn takes one
    parked value away. *)
Lemma expire_loop_returns c w N k q : ∀ s p,
  1 ≤ N →
  heap s !! w = Some (CChan (wrapper_chanobj c N None expiringPut)) →
  base_channel s c q p → q = [] ∨ p = [] →
  ∃ s' q',
    expire_loop (S (length q) + k) w s = Done tt s' ∧
    heap s' !! w = Some (CChan (wrapper_chanobj c N None expiringPut)) ∧
    base_channel s' c q' p.
Proof.
  induction q as [|e q IH]; intros s p HN Hw Hc Hinv.
  - exists s, []. split; [|done]. cbn [expire_loop length Nat.add].
    erewrite wrapper_backlog by done. erewrite wrapper_get_bufferLength by done.
    destruct (Z.leb_spec N (Z.of_nat (length (@nil CBV)) - Z.of_nat (length p))); [|done].
    simpl in *. lia.
  - destruct Hinv as [? | ->]; [done|].
    cbn [expire_loop length Nat.add].
    erewrite wrapper_backlog by done. erewrite wrapper_get_bufferLength by done.
    destruct (Z.leb_spec N (Z.of_nat (length (e :: q)) - Z.of_nat (length (@nil callback)))).
    + assert (take (length q + k + 1) w None s =
              Done tt (sendValue (_value e) None
                         (sendValue (_value e) (_callback e)
                            (upd_chan (with_queue q) c s)))) as Et.
      { replace (length q + k + 1)%nat with (S (length q + k)) by lia. simpl.
        erewrite wrapper_method_take_inherited by done.
        unfold Channel_take. by erewrite wrapper_get_queue by done. }
      replace (S (length q + k)) with (length q + k + 1)%nat by lia.
      rewrite Et. cbn [bind].
      replace (length q + k + 1)%nat with (S (length q) + k)%nat by lia.
      apply IH; [done| | |by right].
      * rewrite !heap_sendValue, lookup_upd_chan_ne; [done|].
        intros ->. unfold base_channel in Hc. by simplify_eq.
      * do 2 eapply base_sendValue. by eapply base_upd_queue.
    + eauto.
Qed.

(** On a base channel and on a wrapper made on it, [put] returns. *)
Lemma put_returns s c q p this v cb k :
  base_channel s c q p → q = [] ∨ p = [] → channel_on s c this →
  ∃ s', put (length q + 3 + k) this v cb s = Done tt s'.
Proof.
  intros Hc Hinv Hon.
  assert (∀ s1 q1 p1 cb1 n, base_channel s1 c q1 p1 →
            ∃ s', put_with (S n) (method_put s1 c) c v cb1 s1 = Done tt s') as Hbase.
  { intros s1 q1 p1 cb1 n H1. rewrite (base_method_put _ _ _ _ H1). simpl.
    destruct p1.
    - rewrite (Channel_put_park _ _ _ _ _ _ H1 eq_refl eq_refl). eauto.
    - rewrite (Channel_put_waiting _ _ _ _ _ _ _ H1 eq_refl). eauto. }
  replace (length q + 3 + k)%nat with (S (S (S (length q + k)))) by lia.
  remember (S (S (length q + k))) as m eqn:Hm.
  destruct Hon as [|w N Hw|w N _ Hw|w N HN Hw]; unfold put.
  - by eapply Hbase.
  - erewrite wrapper_method_put by done. cbn [put_with].
    erewrite wrapper_backlog by done. erewrite wrapper_get_channel by done.
    erewrite wrapper_get_bufferLength by done. subst m.
    destruct (_ <? N).
    + destruct (Hbase s q p None (S (length q + k)) Hc) as [s' ->]. simpl. eauto.
    + by eapply Hbase.
  - erewrite wrapper_method_put by done. cbn [put_with].
    erewrite wrapper_backlog by done. erewrite wrapper_get_bufferLength by done.
    destruct (_ <? N); [|eauto].
    erewrite wrapper_get_channel by done. subst m.
    destruct (Hbase s q p None (S (length q + k)) Hc) as [s' ->]. simpl. eauto.
  - erewrite wrapper_method_put by done. cbn [put_with].
    destruct (expire_loop_returns c w N (S k) q s p HN Hw Hc Hinv) as (s1 & q1 & E & Hw1 & Hc1).
    replace m with (S (length q) + S k)%nat by lia.
    rewrite E. cbn [bind].
    erewrite wrapper_get_channel by done.
    replace (S (length q) + S k)%nat with (S (S (length q + k))) by lia.
    destruct (Hbase s1 q1 p None (S (length q + k)) Hc1) as [s' ->]. simpl. eauto.
Qed.

(** A [put] that does not return: the loop of an [expiringBuffer(0)] asks
    an empty channel for room for ever. *)
Lemma expiring_zero_put_never_returns fuel v cb :
  put fuel 1%nat v cb expiring_zero = OutOfFuel.
Proof.
  destruct fuel as [|fuel]; [done|].
  assert (∀ n, expire_loop n 1%nat expiring_zero = OutOfFuel) as Hloop.
  { induction n as [|n IH]; [done|].
    change (expire_loop (S n) 1%nat expiring_zero)
      with (let* _ := take n 1%nat None expiring_zero in expire_loop n 1%nat).
    destruct n as [|n]; [done|].
    change (take (S n) 1%nat None expiring_zero) with (Done tt expiring_zero).
    exact IH. }
  change (put (S fuel) 1%nat v cb expiring_zero)
    with (let* _ := expire_loop fuel 1%nat expiring_zero in
          fun s =>
            match get _channel s 1%nat with
            | None => Threw TypeError s
            | Some (_, ch) =>
                let* _ := put_with fuel (method_put s ch) ch v None s in
                fun s => Done tt (sendValue v cb s)
            end).
  by rewrite Hloop.
Qed.

(** C2, as the code has it.  Take any program over channels (base,
    [buffer], [droppingBuffer], [expiringBuffer], filled) that never uses
    the function [User a] as a taker.  At every point, for every pair of
    arguments [k], the calls [a(k)] already made, plus those waiting in
    the tick queue, plus those parked with a value that no taker has
    consumed yet, are exactly the calls owed by the table, one for each
    [put(v, a)] that has returned: [(null, v)] from a base channel, from
    a buffer or dropping buffer below capacity and from an expiring
    buffer (at once, also for a value it evicts later), [(null, null)]
    from a dropping buffer at capacity, [('filled', null)] from a filled
    channel.  No ack is lost and none is called twice. *)
Theorem C2_ack_exactly_once (a : nat) (fuel : nat) (cmds : list command) (s : state)
    (k : value * value) :
  (∀ c, call_take c (Some a) ∉ cmds) →
  play fuel cmds empty_state = Some s →
  (tally (call_of a k) (log s) + tally (call_of a k) (ticks s) +
   total_of (parked_in (call_of a k)) (heap s))%nat =
  tally (λ x, bool_decide (x = k)) (dues a fuel cmds empty_state).
Proof.
  intros Hno E.
  pose proof (play_acks a k fuel cmds empty_state s Hno) as H.
  unfold acks, flow in H. simpl in H. apply H; done.
Qed.

Lemma C2_witness :
  ∃ s, play 3 dropping_twice empty_state = Some s ∧
    log s = [Tick (User 7) VNull (VNum 1); Tick (User 7) VNull VNull] ∧
    dues 7 3 dropping_twice empty_state = [(VNull, VNum 1); (VNull, VNull)] ∧
    (tally (call_of 7 (VNull, VNull)) (log s) + tally (call_of 7 (VNull, VNull)) (ticks s) +
     total_of (parked_in (call_of 7 (VNull, VNull))) (heap s))%nat = 1%nat.
Proof.
  eexists. split; [vm_compute; reflexivity|]. split; [reflexivity|].
  split; [vm_compute; reflexivity|].
  etrans.
  - apply (C2_ack_exactly_once 7 3 dropping_twice _ (VNull, VNull)).
    + intros c H. unfold dropping_twice in H.
      repeat (apply elem_of_cons in H as [H|H]; [done|]). by apply elem_of_nil in H.
    + vm_compute. reflexivity.
  - vm_compute. reflexivity.
Defined.

(** C2 as the specification states it fails: the expiring buffer has discarded the value
    1 (only 2 is left in the queue, and nothing is left to run), yet the
    ack of [put(1, a)] was called with [(null, 1)], not [(null, null)]. *)
Lemma C2_counterexample :
  ∃ s, play 3 expiring_twice empty_state = Some s ∧
    log s = [Tick (User 1) VNull (VNum 1); Tick (User 2) VNull (VNum 2)] ∧
    ticks s = [] ∧
    base_channel s 0%nat [mkCBV None (VNum 2)] [] ∧
    tally (call_of 1 (VNull, VNull)) (log s) = 0%nat.
Proof. eexists. split; [vm_compute; reflexivity|]. done. Qed.

End ChannelFacts.

(** * Facts about the task runtime *)

Module StateMachineFacts.

Import StateMachine.
Import Channel (value, VUndefined, VNull, VBool, VNum, VStr, VRef, truthy).

(** ** [retry] (C6) *)

(** C6: [retry()] throws when [currentErrorStep] is null.  Otherwise it
    inserts into the unwind stack, at the handler's [unwindPoint], the
    handler's own record and above it a [Retry] record for the handler's
    [retryStep]; it clears [err] (and [currentErrorStep]), sets
    [strict_unwind], stores [null] followed by its arguments as [args],
    and defers [unwind]; it calls nothing in the current tick. *)
Theorem C6_retry (P : program) (fuel : nat) (arguments : list value) (m : machine) :
  match currentErrorStep (state m) with
  | None => call P (S fuel) (retry arguments) m = Threw retry_error m
  | Some e =>
      ∃ m', call P (S fuel) (retry arguments) m = Done m' ∧
        let u := unwinding (state m) in
        let at_ := Nat.min (unwindPoint e) (length u) in
        unwinding (state m') =
          firstn (unwindPoint e) u ++ [ErrorStep e; Retry (retryStep e)] ++
          skipn (unwindPoint e) u ∧
        unwinding (state m') !! at_ = Some (ErrorStep e) ∧
        unwinding (state m') !! S at_ = Some (Retry (retryStep e)) ∧
        err (state m') = VNull ∧
        strict_unwind (state m') = true ∧
        currentErrorStep (state m') = None ∧
        args (state m') = VNull :: arguments ∧
        ticks m' = ticks m ++ [boundUnwind] ∧
        trace m' = trace m
  end.
Proof.
  simpl. unfold do_retry. destruct (currentErrorStep (state m)) as [e|]; [|done].
  eexists. split; [done|]. simpl. unfold splice2.
  split; [done|].
  assert (length (firstn (unwindPoint e) (unwinding (state m))) =
          Nat.min (unwindPoint e) (length (unwinding (state m)))) as Hlen
    by apply length_firstn.
  split.
  { rewrite lookup_app_r by lia. by rewrite Hlen, Nat.sub_diag. }
  split; [|done].
  rewrite lookup_app_r by lia. rewrite Hlen.
  by replace (S _ - _)%nat with 1%nat by lia.
Qed.

(** ** The final callback (C7) *)

Lemma final_calls_emit e m :
  final_calls (emit e m) = (final_calls m + (if is_final e then 1 else 0))%nat.
Proof.
  unfold final_calls. simpl. rewrite filter_app, length_app. f_equal.
  by destruct e.
Qed.

Lemma once_same_calls P m m' : same_calls m m' → once P m → once P m'.
Proof.
  intros [Ht Hf] (H1 & H3). unfold once, final_calls, expected_final_calls in *.
  by rewrite Ht, Hf.
Qed.

Lemma once_emit_other P e m : is_final e = false → once P m → once P (emit e m).
Proof.
  intros He (H1 & H3). unfold once. rewrite final_calls_emit, He.
  split.
  - rewrite H1. unfold expected_final_calls. simpl. lia.
  - simpl. apply Forall_app. split; [done|]. constructor; [|done].
    by destruct e.
Qed.

Lemma same_calls_do_callback P a m : same_calls m (do_callback P a m).
Proof.
  unfold do_callback, same_calls.
  destruct (truthy _); [destruct (instanceof_Error P _); destruct (onerror P)|]; done.
Qed.

Lemma pop_None {A} (xs : list A) : pop xs = None → xs = [].
Proof.
  unfold pop. destruct (rev xs) eqn:E; [|done]. intros _.
  by rewrite <- (rev_involutive xs), E.
Qed.

Lemma pop_snoc {A} (xs : list A) (x : A) : pop (xs ++ [x]) = Some (x, xs).
Proof. unfold pop. rewrite rev_app_distr. simpl. by rewrite rev_involutive. Qed.

Lemma post_bind Q o f :
  post Q o → (∀ m, Q m → post Q (f m)) → post Q (bind o f).
Proof. destruct o; simpl; auto. Qed.

Section Once.

Variable P : program.

Lemma once_exec_call fuel :
  (∀ s m, once P m → post (once P) (exec P fuel s m)) ∧
  (∀ c m, once P m → post (once P) (call P fuel c m)).
Proof.
  induction fuel as [|fuel [IHe IHc]]; [done|].
  assert (Habort : ∀ m, once P m →
            post (once P) (exec P fuel (fn P [abort_with_error (state m)])
                         (on_state (set_abort_with_error VNull) m))).
  { intros m Hm. apply IHe. by eapply once_same_calls. }
  split.
  - intros [|e|c k|c k h|k] m Hm; simpl.
    + done.
    + done.
    + apply post_bind; [by apply IHc|]. intros; by apply IHe.
    + specialize (IHc c m Hm). destruct (call P fuel c m); simpl in *; [| |done]; by apply IHe.
    + by apply IHe.
  - intros c m Hm.
    destruct c; cbn [call];
      try (by simpl; eapply once_same_calls; [|exact Hm]).
    + (* do_step *)
      destruct (truthy _).
      * apply Habort. by eapply once_same_calls.
      * apply IHe. by eapply once_same_calls.
    + (* resume *)
      destruct (latches m !! k) as [l|]; [|done].
      destruct (l_done l).
      * simpl. apply once_emit_other; [done|]. by eapply once_same_calls.
      * destruct (truthy _); [|destruct (l_withErr l)].
        -- apply Habort. by eapply once_same_calls.
        -- apply IHe. by eapply once_same_calls.
        -- apply IHe. by eapply once_same_calls.
    + (* callback *)
      simpl. eapply once_same_calls; [|exact Hm]. apply same_calls_do_callback.
    + (* unwind *)
      destruct (pop (unwinding (state m))) as [[r rest]|] eqn:Hpop.
      * destruct r as [saved|r|p saved|e|a|st saved].
        -- unfold restoreStateVars. destruct (has_state_vars P); simpl.
           ++ apply IHc. by eapply once_same_calls.
           ++ by eapply once_same_calls.
        -- simpl. by eapply once_same_calls.
        -- destruct (_ || _); simpl; by eapply once_same_calls.
        -- destruct (truthy _); simpl; by eapply once_same_calls.
        -- apply post_bind.
           ++ apply IHe. apply once_emit_other; [done|]. by eapply once_same_calls.
           ++ intros m' Hm'. simpl. by eapply once_same_calls.
        -- unfold do_beginCleanup, captureStateVars, restoreStateVars.
           destruct (has_state_vars P); simpl; by eapply once_same_calls.
      * destruct (isFinished (state m)) eqn:Hfin; [done|].
        destruct (finalCallback P) as [f|] eqn:Hf.
        -- apply IHe. destruct Hm as (H1 & H3).
           unfold once. rewrite final_calls_emit.
           change (final_calls (on_state _ (on_state _ m))) with (final_calls m).
           rewrite H1. unfold expected_final_calls. rewrite Hfin, Hf. simpl.
           split; [done|].
           apply Forall_app. split; [done|]. constructor; [|done]. simpl.
           split; [by apply pop_None|done].
        -- simpl. destruct Hm as (H1 & H3). unfold once.
           change (final_calls (on_state _ (on_state _ m))) with (final_calls m).
           rewrite H1. unfold expected_final_calls. rewrite Hfin, Hf. simpl. done.
    + (* pushCleanupStep *)
      unfold captureStateVars. destruct (has_state_vars P); simpl; by eapply once_same_calls.
    + (* beginCleanup *)
      unfold do_beginCleanup, captureStateVars, restoreStateVars.
      destruct (has_state_vars P); simpl; by eapply once_same_calls.
    + (* retry *)
      unfold do_retry. destruct (currentErrorStep _); simpl; by eapply once_same_calls.
    + (* pushPhi *)
      unfold do_pushPhi, captureStateVars.
      destruct captureState, (has_state_vars P); simpl; by eapply once_same_calls.
    + (* abort *)
      destruct (0 <? _); simpl; eapply once_same_calls; try exact Hm; [done|].
      apply same_calls_do_callback.
Qed.

Lemma once_dispatch fuel t m : once P m → post (once P) (dispatch P fuel t m).
Proof.
  intros Hm. destruct t; simpl.
  - by apply once_exec_call.
  - by apply once_exec_call.
  - destruct (onerror P); [|done]. by apply once_exec_call.
Qed.

Lemma once_session fuel inputs : ∀ m, once P m → post (once P) (session P fuel inputs m).
Proof.
  induction inputs as [|[|s] inputs IH]; intros m Hm; simpl; [done| |].
  - destruct (ticks m) as [|t rest]; [by apply IH|].
    apply post_bind; [|done]. apply once_dispatch. by eapply once_same_calls.
  - apply post_bind; [|done]. by apply once_exec_call.
Qed.

End Once.

Lemma once_new P : once P new_StateMachine.
Proof. by split. Qed.

Lemma expected_final_calls_le P m : (expected_final_calls P m ≤ 1)%nat.
Proof. unfold expected_final_calls. destruct (isFinished _), (finalCallback P); lia. Qed.

(** C7, as the code has it: whatever the task's code and whatever reaches
    the task from outside, the final callback has been called at most
    once: exactly once if the task has finished (and was given a final
    callback), not at all before.  Every call of it found the unwind
    stack empty and [isFinished] already set.  It is [unwind] on an empty
    stack that finishes the task: it does nothing when [isFinished] is
    set, and otherwise zeroes [waiting], sets [isFinished] and only then
    calls the final callback with [state.args]. *)
Theorem C7_final_callback_at_most_once (P : program) (fuel : nat) (inputs : list input) :
  post (λ m, (final_calls m ≤ 1)%nat ∧
             final_calls m = expected_final_calls P m ∧
             Forall called_when_done (trace m))
       (session P fuel inputs new_StateMachine) ∧
  ∀ m, unwinding (state m) = [] →
    call P (S fuel) unwind m =
      if isFinished (state m) then Done m
      else
        let m1 := on_state (set_isFinished true) (on_state (set_waiting 0) m) in
        match finalCallback P with
        | Some f =>
            exec P fuel (f (args (state m)))
                 (emit (FinalCallback (args (state m)) (state m1)) m1)
        | None => Done m1
        end.
Proof.
  split.
  - pose proof (once_session P fuel inputs _ (once_new P)) as H.
    destruct (session P fuel inputs new_StateMachine); simpl in *; [| |done].
    + destruct H as [H1 H2]. rewrite H1. eauto using expected_final_calls_le.
    + destruct H as [H1 H2]. rewrite H1. eauto using expected_final_calls_le.
  - intros m Hu. cbn [call]. by rewrite Hu.
Qed.

Lemma C7_witness :
  ∃ m, call idle_task 2 unwind new_StateMachine = Done m ∧
    final_calls m = 1%nat ∧ isFinished (state m) = true.
Proof.
  destruct (C7_final_callback_at_most_once idle_task 1 []) as [_ H].
  rewrite (H new_StateMachine eq_refl). eexists. split; [vm_compute; reflexivity|]. done.
Defined.

(** C7 as the specification states it fails: a started task whose step function never
    completes is never finished; once its only deferred call has run,
    nothing is left to run and the final callback has not been called. *)
Lemma C7_counterexample :
  ∃ m, session idle_task 2 [outside (Do start Stop); tick; tick; tick] new_StateMachine
       = Done m ∧
    ticks m = [] ∧ isFinished (state m) = false ∧ final_calls m = 0%nat.
Proof. eexists. split; [vm_compute; reflexivity|]. done. Qed.

Lemma session_quiet P fuel n m :
  ticks m = [] → session P fuel (replicate n tick) m = Done m.
Proof. intros E. induction n as [|n IH]; simpl; [done|]. by rewrite E. Qed.

Lemma bind_bind o f g : bind (bind o f) g = bind o (λ m, bind (f m) g).
Proof. by destruct o. Qed.

Lemma session_app P fuel l1 l2 : ∀ m,
  session P fuel (l1 ++ l2) m = bind (session P fuel l1 m) (session P fuel l2).
Proof.
  induction l1 as [|[|s] l1 IH]; intros m; simpl; [done| |].
  - destruct (ticks m); [done|]. rewrite bind_bind.
    destruct (dispatch _ _ _ _); simpl; done.
  - rewrite bind_bind. destruct (exec _ _ _ _); simpl; done.
Qed.

(** However many turns the event loop takes. *)
Lemma idle_task_never_calls_back n :
  ∃ m, session idle_task 2 ([outside (Do start Stop); tick] ++ replicate n tick)
         new_StateMachine = Done m ∧
    final_calls m = 0%nat.
Proof.
  assert (∃ m1, session idle_task 2 [outside (Do start Stop); tick] new_StateMachine
                = Done m1 ∧ ticks m1 = [] ∧ final_calls m1 = 0%nat) as (m1 & E & T & F).
  { eexists. split; [vm_compute; reflexivity|]. done. }
  exists m1. rewrite session_app, E. simpl. by rewrite session_quiet.
Qed.

Example one_step_task_calls_back_once :
  ∃ m, session one_step_task 3 [outside (Do start Stop); tick; tick; tick; tick]
         new_StateMachine = Done m ∧
    filter is_final (trace m) =
      [FinalCallback [VNull; VNum 42] (state m)] ∧
    isFinished (state m) = true ∧ final_calls m = 1%nat.
Proof. eexists. split; [vm_compute; reflexivity|]. done. Qed.

End StateMachineFacts.

(** * Further properties *)

Module ChannelOpsFacts.

Import Channel ChannelOps ChannelFacts.

Lemma run_cons n fuel s t rest :
  ticks s = t :: rest →
  run (S n) fuel s =
    let* _ := invoke fuel (t_callback t) (t_err t) (t_value t) (set_ticks rest s) in
    run n fuel.
Proof. intros H. simpl. by rewrite H. Qed.

Lemma run_user n fuel s a e v rest :
  ticks s = Tick (User a) e v :: rest →
  run (S n) (S fuel) s =
    run n (S fuel) (set_log (log s ++ [Tick (User a) e v]) (set_ticks rest s)).
Proof. intros H. by rewrite (run_cons _ _ _ _ _ H). Qed.

Lemma base_set_cell s c q p l x :
  l ≠ c → base_channel s c q p → base_channel (set_cell l x s) c q p.
Proof. intros Hne H. unfold base_channel, set_cell. simpl. by rewrite list_lookup_insert_ne. Qed.

Lemma acks_of_app q1 q2 : acks_of (q1 ++ q2) = acks_of q1 ++ acks_of q2.
Proof. apply flat_map_app. Qed.

(** A deferred call of a function of the program, alone in the tick
    queue, is made and logged. *)
Lemma run_last_user n fuel s v b :
  ticks s = [] → (1 ≤ n)%nat →
  ∃ s', run n (S fuel) (sendValue v (user b) s) = Done tt s' ∧
    heap s' = heap s ∧ ticks s' = [] ∧ log s' = log s ++ value_tick v (user b).
Proof.
  intros Ht Hn. destruct b as [b|]; simpl.
  - destruct n as [|n]; [lia|].
    erewrite run_user; [|simpl; by rewrite Ht].
    rewrite run_quiet by done. by eexists.
  - rewrite run_quiet by done. eexists. split; [done|]. by rewrite app_nil_r.
Qed.

(** [take(receive)] on a ready queue, up to the call of [receive]: the
    head leaves the queue and its ack is called. *)
Lemma take_then_receive c recv k n fuel s a v rest :
  base_channel s c (entry (a, v) :: rest) [] → ticks s = [] → (2 ≤ n)%nat →
  ∃ s1 n1, (n ≤ n1 + 2)%nat ∧
    (let* _ := take (S k) c (Some recv) s in run n (S fuel)) =
      (let* _ := invoke (S fuel) recv VNull v s1 in run n1 (S fuel)) ∧
    heap s1 = heap (upd_chan (with_queue rest) c s) ∧
    ticks s1 = [] ∧
    log s1 = log s ++ value_tick v (user a).
Proof.
  intros Hc Ht Hn. rewrite (take_ready _ _ _ _ _ _ _ Hc). cbn [bind].
  destruct a as [a|]; cbn [entry user _value _callback fst snd sendValue nextTick].
  - destruct n as [|[|n]]; [lia..|].
    erewrite run_user; [|simpl; by rewrite ticks_upd_chan, Ht].
    erewrite run_cons; [|done]. cbn [t_callback t_err t_value].
    eexists _, n. split; [lia|]. split; [done|]. simpl.
    by rewrite log_upd_chan.
  - destruct n as [|n]; [lia|].
    erewrite run_cons; [|simpl; by rewrite ticks_upd_chan, Ht].
    cbn [t_callback t_err t_value].
    eexists _, n. split; [lia|]. split; [done|]. simpl.
    by rewrite log_upd_chan, app_nil_r.
Qed.

(** The rounds of [takeN]: each turn of [receive] adds the value it gets
    to the group and takes again, until the group has [N] values or the
    value is null. *)
Lemma takeN_rounds c g N b fuel q2 stop : ∀ l1 gs s k n,
  match stop with
  | None => l1 ≠ [] ∧ Z.of_nat (length gs + length l1) = Z.max 1 N
  | Some _ => Z.of_nat (length gs + length l1) < N
  end →
  Forall (λ e, e.2 ≠ VNull) l1 →
  c ≠ g →
  base_channel s c (map entry l1 ++ sentinel stop ++ q2) [] →
  heap s !! g = Some (CArr gs) →
  ticks s = [] →
  (2 * (length l1 + length (sentinel stop)) + 1 ≤ n)%nat →
  ∃ s',
    (let* _ := take (S k) c (Some (takeN_receive g N c (user b))) s in
     run n (S (S (S fuel)))) = Done tt s' ∧
    base_channel s' c q2 [] ∧
    heap s' !! g = Some (CArr (gs ++ map snd l1)) ∧
    (∀ l, l ≠ c → l ≠ g → heap s' !! l = heap s !! l) ∧
    ticks s' = [] ∧
    log s' = log s ++ acks_of (map entry l1 ++ sentinel stop) ++ value_tick (VRef g) (user b).
Proof.
  induction l1 as [|[a v] l1 IH]; intros gs s k n Hstop Hnn Hcg Hc Hg Ht Hn.
  - (* the null that ends the stream *)
    destruct stop as [a|]; [|by destruct Hstop]. cbn [map app sentinel] in *.
    destruct (take_then_receive c (takeN_receive g N c (user b)) k n (S (S fuel)) s a VNull q2)
      as (s1 & n1 & Hn1 & -> & Hh1 & Ht1 & Hl1); [done|done|simpl in Hn; lia|].
    cbn [invoke]. unfold takeN_receive_body. cbn [truthy].
    destruct (decide (VNull = VNull)) as [_|]; [|done]. cbn [bind].
    destruct (run_last_user n1 (S (S fuel)) s1 (VRef g) b) as (s' & -> & Hh' & Ht' & Hl');
      [done|simpl in Hn; lia|].
    exists s'. split; [done|]. unfold base_channel. rewrite Hh', Hh1.
    split; [exact (base_upd_queue _ _ _ _ _ Hc)|].
    split; [by rewrite lookup_upd_chan_ne, app_nil_r|].
    split; [intros l H1 H2; by rewrite lookup_upd_chan_ne|].
    split; [done|]. rewrite Hl', Hl1. simpl. by rewrite app_nil_r, <- app_assoc.
  - apply Forall_cons in Hnn as [Hv Hnn]. simpl in Hv. cbn [map app] in Hc.
    destruct (take_then_receive c (takeN_receive g N c (user b)) k n (S (S fuel)) s a v
                (map entry l1 ++ sentinel stop ++ q2))
      as (s1 & n1 & Hn1 & -> & Hh1 & Ht1 & Hl1); [done|done|simpl in Hn; lia|].
    cbn [invoke]. unfold takeN_receive_body. cbn [truthy].
    destruct (decide (v = VNull)) as [|_]; [done|].
    rewrite Hh1, lookup_upd_chan_ne, Hg by done.
    set (s2 := set_cell g _ s1).
    assert (Hc2 : base_channel s2 c (map entry l1 ++ sentinel stop ++ q2) []).
    { subst s2. apply base_set_cell; [done|]. unfold base_channel. rewrite Hh1.
      exact (base_upd_queue _ _ _ _ _ Hc). }
    assert (Hg2 : heap s2 !! g = Some (CArr (gs ++ [v]))).
    { subst s2. unfold set_cell. simpl. rewrite list_lookup_insert_eq; [done|].
      rewrite Hh1. eapply lookup_lt_Some. by rewrite lookup_upd_chan_ne. }
    assert (Hother2 : ∀ l, l ≠ c → l ≠ g → heap s2 !! l = heap s !! l).
    { intros l H1 H2. subst s2. unfold set_cell. simpl.
      by rewrite list_lookup_insert_ne, Hh1, lookup_upd_chan_ne. }
    assert (Ht2 : ticks s2 = []) by done.
    assert (Hl2 : log s2 = log s ++ value_tick v (user a)) by done.
    clearbody s2. rewrite length_app. cbn [length] in *.
    assert (log s ++ acks_of (map entry ((a, v) :: l1) ++ sentinel stop) ++
              value_tick (VRef g) (user b) =
            log s2 ++ acks_of (map entry l1 ++ sentinel stop) ++
              value_tick (VRef g) (user b)) as ->.
    { rewrite Hl2. cbn [map app]. unfold acks_of at 1. cbn [flat_map]. simpl.
      by rewrite <- !app_assoc. }
    destruct (decide (stop = None ∧ l1 = [])) as [[-> ->]|Hmore].
    + (* the group is complete *)
      destruct Hstop as [_ Hlen]. simpl in Hlen.
      replace (Z.of_nat (length gs + 1) <? N) with false by (symmetry; apply Z.ltb_ge; lia).
      cbn [bind].
      destruct (run_last_user n1 (S (S fuel)) s2 (VRef g) b) as (s' & -> & Hh' & Ht' & Hl');
        [done|simpl in Hn; lia|].
      exists s'. split; [done|]. unfold base_channel. rewrite Hh'.
      split; [done|]. split; [done|]. split; [done|]. split; [done|].
      by rewrite Hl'.
    + (* one more round *)
      replace (Z.of_nat (length gs + 1) <? N) with true.
      2:{ symmetry. apply Z.ltb_lt. destruct stop; [lia|].
          destruct Hstop as [_ Hlen]. destruct l1; [by destruct Hmore|]. simpl in Hlen. lia. }
      destruct (IH (gs ++ [v]) s2 (S fuel) n1) as (s' & E & Hc' & Hg' & Ho' & Ht' & Hl');
        try done.
      { rewrite length_app. simpl. destruct stop; [lia|].
        destruct Hstop as [_ Hlen]. split; [|lia]. intros ->. by apply Hmore. }
      { lia. }
      exists s'. split; [exact E|]. split; [done|]. split.
      { rewrite Hg'. by rewrite <- app_assoc. }
      split; [|done].
      intros l H1 H2. by rewrite Ho', Hother2.
Qed.

Lemma base_alloc s c q p x : base_channel s c q p → base_channel (alloc x s).2 c q p.
Proof. intros H. unfold base_channel. simpl. by apply lookup_app_l_Some. Qed.

(** [takeN] from its call to its callback, on a ready queue that holds
    the values it collects and then, if [stop] says so, a null. *)
Lemma takeN_run fuel s c N b l1 stop q2 n :
  match stop with
  | None => Z.of_nat (length l1) = Z.max 1 N
  | Some _ => Z.of_nat (length l1) < N
  end →
  Forall (λ e, e.2 ≠ VNull) l1 →
  base_channel s c (map entry l1 ++ sentinel stop ++ q2) [] →
  ticks s = [] →
  (2 * (length l1 + length (sentinel stop)) + 1 ≤ n)%nat →
  ∃ s',
    (let* _ := takeN (S fuel) c N (user b) s in run n (S (S (S fuel)))) = Done tt s' ∧
    base_channel s' c q2 [] ∧
    heap s' !! length (heap s) = Some (CArr (map snd l1)) ∧
    (∀ l, l ≠ c → (l < length (heap s))%nat → heap s' !! l = heap s !! l) ∧
    ticks s' = [] ∧
    log s' = log s ++ acks_of (map entry l1 ++ sentinel stop) ++
             value_tick (VRef (length (heap s))) (user b).
Proof.
  intros Hstop Hnn Hc Ht Hn. unfold takeN.
  destruct (alloc (CArr []) s) as [g s0] eqn:E.
  assert (g = length (heap s) ∧ s0 = (alloc (CArr []) s).2) as [-> ->]
    by (unfold alloc in *; by simplify_eq).
  destruct (takeN_rounds c (length (heap s)) N b fuel q2 stop l1 [] (alloc (CArr []) s).2 fuel n)
    as (s' & -> & Hc' & Hg' & Ho' & Ht' & Hl'); try done.
  - destruct stop; [done|]. split; [|done]. intros ->. simpl in Hstop. lia.
  - apply lookup_lt_Some in Hc. lia.
  - by apply base_alloc.
  - simpl. by rewrite lookup_app_r, Nat.sub_diag.
  - exists s'. split; [done|]. split; [done|]. split; [done|]. split; [|done].
    intros l H1 H2. rewrite Ho' by lia. simpl. by rewrite lookup_app_l.
Qed.





Lemma takeSome_nothing_ready fuel s c p cb :
  base_channel s c [] p →
  takeSome fuel c cb s =
    Done tt (sendValue (VRef (length (heap s))) cb (alloc (CArr []) s).2).
Proof.
  intros Hc. unfold takeSome. rewrite (base_backlog _ _ _ _ Hc).
  by replace (0 <? _) with false by (symmetry; apply Z.ltb_ge; simpl; lia).
Qed.

(** [takeSome(cb)] with values ready: the call takes the first of them
    for the [receive] of [takeN], and parks nothing. *)
Lemma takeSome_takes_first fuel s c e q cb :
  base_channel s c (e :: q) [] →
  takeSome (S fuel) c cb s =
    Done tt (sendValue (_value e)
               (Some (takeN_receive (length (heap s)) (Z.of_nat (S (length q))) c cb))
               (sendValue (_value e) (_callback e)
                  (upd_chan (with_queue q) c (alloc (CArr []) s).2))).
Proof.
  intros Hc. unfold takeSome. rewrite (base_backlog _ _ _ _ Hc).
  replace (0 <? _) with true by (symmetry; apply Z.ltb_lt; simpl length; lia).
  replace (Z.of_nat (length (e :: q)) - Z.of_nat (length (@nil callback)))
    with (Z.of_nat (S (length q))) by (simpl length; lia).
  unfold takeN. cbn [alloc take].
  pose proof (base_alloc _ _ _ _ (CArr []) Hc) as Hc'. cbn [alloc snd] in Hc'.
  rewrite (base_method_take _ _ _ _ Hc').
  by rewrite (Channel_take_ready _ _ _ _ _ _ Hc' eq_refl).
Qed.

(** X3: [takeSome(cb)] on a base channel.  The call itself parks no
    taker.  With nothing ready, whether or not takers wait, it defers
    [cb(null, [])] with a new empty array and leaves the channel as it is.
    With values ready and no taker waiting it takes the first one at once:
    it defers the ack of that value and then the [receive] of
    [takeN(backlog, cb)], and the waiting list stays empty.  When the
    ready values [l] hold no null, no deferred call is pending and the
    event loop runs right after the call, with no other operation on the
    channel in between, [cb] gets the group of all of [l] in order, after
    the acks of their producers, and the ready queue is empty.  (A [take]
    made by someone else before the event loop runs is outside this
    statement: it can leave [receive] parked.) *)
Theorem takeSome_takes_what_is_ready fuel s c :
  (∀ p cb, base_channel s c [] p →
     ∃ s', takeSome fuel c cb s = Done tt s' ∧
       base_channel s' c [] p ∧
       heap s' = heap s ++ [CArr []] ∧
       ticks s' = ticks s ++ value_tick (VRef (length (heap s))) cb ∧
       log s' = log s) ∧
  (∀ e q cb, base_channel s c (e :: q) [] →
     ∃ s', takeSome (S fuel) c cb s = Done tt s' ∧
       base_channel s' c q [] ∧
       heap s' !! length (heap s) = Some (CArr []) ∧
       ticks s' = ticks s ++ acks_of [e] ++
                  [Tick (takeN_receive (length (heap s)) (Z.of_nat (S (length q))) c cb)
                        VNull (_value e)] ∧
       log s' = log s) ∧
  (∀ l b n, base_channel s c (map entry l) [] →
     ticks s = [] →
     Forall (λ e, e.2 ≠ VNull) l →
     (2 * length l + 1 ≤ n)%nat →
     ∃ s',
       (let* _ := takeSome (S fuel) c (user b) s in run n (S (S (S fuel)))) = Done tt s' ∧
       base_channel s' c [] [] ∧
       heap s' !! length (heap s) = Some (CArr (map snd l)) ∧
       ticks s' = [] ∧
       log s' = log s ++ acks_of (map entry l) ++
                value_tick (VRef (length (heap s))) (user b)).
Proof.
  split; [|split].
  - intros p cb Hc. rewrite (takeSome_nothing_ready _ _ _ _ _ Hc).
    eexists. split; [done|]. rewrite ticks_sendValue, log_sendValue.
    unfold base_channel. rewrite heap_sendValue.
    split; [by apply base_alloc|]. done.
  - intros e q cb Hc. rewrite (takeSome_takes_first _ _ _ _ _ _ Hc).
    eexists. split; [done|].
    pose proof (base_alloc _ _ _ _ (CArr []) Hc) as Hc'.
    assert (length (heap s) ≠ c) as Hne by (apply lookup_lt_Some in Hc; lia).
    rewrite !ticks_sendValue, !log_sendValue, ticks_upd_chan, log_upd_chan.
    unfold base_channel. rewrite !heap_sendValue.
    split; [exact (base_upd_queue _ _ _ _ _ Hc')|].
    split.
    { rewrite lookup_upd_chan_ne by done. simpl.
      by rewrite lookup_app_r, Nat.sub_diag. }
    split; [|done]. simpl. unfold acks_of. simpl. by rewrite app_nil_r, <- app_assoc.
  - intros l b n Hc Ht Hnn Hn. destruct l as [|e l].
    + rewrite (takeSome_nothing_ready _ _ _ _ _ Hc). cbn [bind].
      destruct (run_last_user n (S (S fuel)) (alloc (CArr []) s).2
                  (VRef (length (heap s))) b) as (s' & -> & Hh' & Ht' & Hl');
        [done|lia|].
      exists s'. split; [done|]. unfold base_channel. rewrite Hh'.
      split; [by apply base_alloc|]. simpl.
      split; [by rewrite lookup_app_r, Nat.sub_diag|]. split; [done|exact Hl'].
    + unfold takeSome. rewrite (base_backlog _ _ _ _ Hc).
      replace (0 <? _) with true by (symmetry; apply Z.ltb_lt; simpl; lia).
      rewrite length_map. simpl length at 2. rewrite Z.sub_0_r.
      destruct (takeN_run fuel s c (Z.of_nat (length (e :: l))) b (e :: l) None [] n)
        as (s' & E & Hc' & Hg' & _ & Ht' & Hl'); try done.
      * simpl. lia.
      * simpl. by rewrite app_nil_r.
      * simpl. simpl in Hn. lia.
      * exists s'. split; [done|]. split; [done|]. split; [done|]. split; [done|].
        rewrite Hl'. simpl. by rewrite app_nil_r.
Qed.

Lemma takeSome_witness :
  let s := mkState [CChan (base_chanobj [mkCBV (Some (User 1)) (VNum 7);
                                          mkCBV None (VNum 8)] [])] [] [] 0 in
  ∃ s',
    (let* _ := takeSome 1 0%nat (Some (User 9)) s in run 5 3) = Done tt s' ∧
    base_channel s' 0%nat [] [] ∧
    heap s' !! 1%nat = Some (CArr [VNum 7; VNum 8]) ∧
    log s' = [Tick (User 1) VNull (VNum 7); Tick (User 9) VNull (VRef 1)].
Proof.
  intros s.
  destruct (takeSome_takes_what_is_ready 0 s 0%nat) as (_ & _ & H).
  destruct (H [(Some 1%nat, VNum 7); (None, VNum 8)] (Some 9%nat) 5%nat)
    as (s' & E & Hc & Hg & _ & Hl).
  - reflexivity.
  - reflexivity.
  - by repeat constructor.
  - simpl. lia.
  - exists s'. split; [exact E|]. split; [exact Hc|]. split; [exact Hg|exact Hl].
Defined.

End ChannelOpsFacts.

Module WrapperFacts.

Import Channel ChannelOps ChannelFacts ChannelOpsFacts.

(** A wrapper without a [take] of its own takes from the queues of the
    channel it wraps. *)
Lemma wrapper_take_inherited fuel s w c N f fl q p cb :
  heap s !! w = Some (CChan (wrapper_with c N None f fl)) →
  base_channel s c q p →
  take (S fuel) w cb s = take (S fuel) c cb s.
Proof.
  intros Hw Hc. cbn [take].
  erewrite wrapper_method_take_inherited by done.
  rewrite (base_method_take _ _ _ _ Hc). unfold Channel_take.
  erewrite wrapper_get_queue, wrapper_get_pending by done.
  by rewrite (base_get_queue _ _ _ _ Hc), (base_get_pending _ _ _ _ Hc).
Qed.

Lemma acked_window_lookup N q :
  acked_window N q ↔ ∀ i e, Z.of_nat i < N → q !! i = Some e → _callback e = None.
Proof.
  unfold acked_window. rewrite Forall_lookup. split.
  - intros H i e Hi He. apply (H i). rewrite lookup_take_lt by lia. done.
  - intros H i e He. destruct (decide (i < Z.to_nat N)%nat) as [Hi|Hi].
    + rewrite lookup_take_lt in He by done. apply (H i); [lia|done].
    + rewrite lookup_take_ge in He by lia. done.
Qed.

(** ** [droppingBuffer] *)

(** One [put] through a dropping buffer. *)
Lemma droppingPut_step fuel s w c N q p v cb :
  heap s !! w = Some (CChan (wrapper_chanobj c N None droppingPut)) →
  base_channel s c q p →
  ∃ s', put (S (S fuel)) w v cb s = Done tt s' ∧
    heap s' !! w = Some (CChan (wrapper_chanobj c N None droppingPut)) ∧
    log s' = log s ∧
    if Z.of_nat (length q) - Z.of_nat (length p) <? N then
      match p with
      | w0 :: p' =>
          base_channel s' c q p' ∧
          ticks s' = ticks s ++ [Tick w0 VNull v] ++ value_tick v cb
      | [] =>
          base_channel s' c (q ++ [mkCBV None v]) [] ∧
          ticks s' = ticks s ++ value_tick v cb
      end
    else heap s' = heap s ∧ ticks s' = ticks s ++ value_tick VNull cb.
Proof.
  intros Hw Hc. unfold put. erewrite wrapper_method_put by done.
  cbn [put_with]. erewrite wrapper_backlog, wrapper_get_bufferLength by done.
  destruct (_ <? N).
  - erewrite wrapper_get_channel by done.
    rewrite (base_method_put _ _ _ _ Hc). cbn [put_with].
    assert (w ≠ c) as Hne by (by eapply wrapper_ne).
    destruct p as [|w0 p'].
    + rewrite (Channel_put_park _ _ _ _ _ _ Hc eq_refl eq_refl). cbn [bind].
      eexists. split; [done|].
      rewrite heap_sendValue, log_sendValue, ticks_sendValue, lookup_upd_chan_ne,
        log_upd_chan, ticks_upd_chan by done.
      split; [done|]. split; [done|]. split; [|done].
      apply base_sendValue. exact (base_upd_queue _ _ _ _ _ Hc).
    + rewrite (Channel_put_waiting _ _ _ _ _ _ _ Hc eq_refl). cbn [bind].
      eexists. split; [done|].
      rewrite !heap_sendValue, !log_sendValue, !ticks_sendValue, lookup_upd_chan_ne,
        log_upd_chan, ticks_upd_chan by done.
      split; [done|]. split; [done|]. split.
      * do 3 apply base_sendValue. exact (base_upd_pending _ _ _ _ _ Hc).
      * simpl. by rewrite app_nil_r, <- app_assoc.
  - eexists. split; [done|].
    by rewrite heap_sendValue, log_sendValue, ticks_sendValue.
Qed.

(** One [take] on a base channel that keeps the queue invariant. *)
Lemma take_step fuel s c q p cb :
  base_channel s c q p → q = [] ∨ p = [] →
  ∃ s', take (S fuel) c cb s = Done tt s' ∧
    (∀ l, l ≠ c → heap s' !! l = heap s !! l) ∧
    log s' = log s ∧
    match q with
    | e :: q' =>
        base_channel s' c q' [] ∧
        ticks s' = ticks s ++ value_tick (_value e) (_callback e) ++ value_tick (_value e) cb
    | [] =>
        base_channel s' c [] (p ++ match cb with Some f => [f] | None => [] end) ∧
        ticks s' = ticks s
    end.
Proof.
  intros Hc Hinv. destruct q as [|e q'].
  - destruct cb as [f|].
    + rewrite (take_park _ _ _ _ _ Hc). eexists. split; [done|].
      rewrite log_upd_chan, ticks_upd_chan.
      split; [intros l Hl; by rewrite lookup_upd_chan_ne|]. split; [done|].
      split; [|done]. exact (base_upd_pending _ _ _ _ _ Hc).
    + rewrite (take_nothing _ _ _ _ Hc). eexists. split; [done|].
      by rewrite app_nil_r.
  - destruct Hinv as [? | ->]; [done|].
    rewrite (take_ready _ _ _ _ _ _ _ Hc). eexists. split; [done|].
    rewrite !heap_sendValue, !log_sendValue, !ticks_sendValue, log_upd_chan, ticks_upd_chan.
    split; [intros l Hl; by rewrite lookup_upd_chan_ne|]. split; [done|].
    split; [|by rewrite <- app_assoc].
    do 2 apply base_sendValue. exact (base_upd_queue _ _ _ _ _ Hc).
Qed.

Lemma droppingBuffer_op fuel s w c N o :
  heap s !! w = Some (CChan (wrapper_chanobj c N None droppingPut)) →
  never_blocks N s c →
  ∃ s', apply_op (S (S fuel)) w o s = Done tt s' ∧
    heap s' !! w = Some (CChan (wrapper_chanobj c N None droppingPut)) ∧
    never_blocks N s' c.
Proof.
  intros Hw (q & p & Hc & Hinv & Hlen & Hq).
  assert (w ≠ c) as Hne by (by eapply wrapper_ne).
  destruct o as [v cb|cb]; unfold apply_op.
  - destruct (droppingPut_step fuel s w c N q p v cb Hw Hc) as (s' & -> & Hw' & _ & H).
    exists s'. split; [done|]. split; [done|].
    destruct (Z.ltb_spec (Z.of_nat (length q) - Z.of_nat (length p)) N) as [Hlt|Hge].
    + destruct p as [|w0 p'].
      * destruct H as [Hc' _]. exists (q ++ [mkCBV None v]), [].
        split; [done|]. split; [by right|]. rewrite length_app. simpl in *.
        split; [lia|]. apply Forall_app. split; [done|]. by constructor.
      * destruct H as [Hc' _]. destruct Hinv as [-> | ?]; [|done].
        exists [], p'. split; [done|]. split; [by left|]. simpl in *. split; [lia|done].
    + destruct H as [Hh _]. exists q, p. unfold base_channel. rewrite Hh. done.
  - erewrite wrapper_take_inherited by done.
    destruct (take_step (S fuel) s c q p cb Hc Hinv) as (s' & -> & Ho & _ & H).
    exists s'. split; [done|]. split; [by rewrite Ho|].
    destruct q as [|e q'].
    + destruct H as [Hc' _]. eexists [], _. split; [done|]. split; [by left|done].
    + destruct H as [Hc' _]. exists q', []. split; [done|]. split; [by right|].
      simpl in Hlen. split; [lia|]. by apply Forall_cons in Hq as [_ ?].
Qed.

(** X6: puts through a [droppingBuffer(N)] with [N >= 0], and takes, in any
    order and number, all return; the ready queue never holds more than
    [N] values and no entry of it holds an ack, so that no producer ever
    waits for a taker. *)
Theorem droppingBuffer_never_blocks fuel w c N ops : ∀ s,
  heap s !! w = Some (CChan (wrapper_chanobj c N None droppingPut)) →
  never_blocks N s c →
  ∃ s', apply_ops (S (S fuel)) w ops s = Done tt s' ∧ never_blocks N s' c.
Proof.
  induction ops as [|o ops IH]; intros s Hw Hinv.
  - by exists s.
  - cbn [apply_ops].
    destruct (droppingBuffer_op fuel s w c N o Hw Hinv) as (s1 & -> & Hw1 & Hinv1).
    cbn [bind]. by apply IH.
Qed.

(** ** [expiringBuffer] *)

(** The loop of [expiringPut] takes the oldest values, and acknowledges
    their producers, until fewer than [N] are ready. *)
Lemma expire_loop_evicts c w N k p : ∀ q s,
  1 ≤ N →
  heap s !! w = Some (CChan (wrapper_chanobj c N None expiringPut)) →
  base_channel s c q p → q = [] ∨ p = [] →
  ∃ s',
    expire_loop (S (length q) + k) w s = Done tt s' ∧
    heap s' !! w = Some (CChan (wrapper_chanobj c N None expiringPut)) ∧
    base_channel s' c (skipn (evicted N (length q)) q) p ∧
    ticks s' = ticks s ++ acks_of (firstn (evicted N (length q)) q) ∧
    log s' = log s.
Proof.
  intros q. induction q as [|e q IH]; intros s HN Hw Hc Hinv.
  - cbn [expire_loop Nat.add length].
    erewrite wrapper_backlog, wrapper_get_bufferLength by done.
    replace (N <=? _) with false by (symmetry; apply Z.leb_gt; simpl; lia).
    exists s. unfold evicted. replace (Z.to_nat _) with 0%nat by (simpl; lia).
    simpl. by rewrite app_nil_r.
  - destruct Hinv as [? | ->]; [done|].
    cbn [expire_loop Nat.add length].
    erewrite wrapper_backlog, wrapper_get_bufferLength by done.
    destruct (Z.leb_spec N (Z.of_nat (length (e :: q)) - Z.of_nat (length (@nil callback))))
      as [Hle|Hgt].
    + assert (w ≠ c) as Hne by (by eapply wrapper_ne).
      erewrite wrapper_take_inherited by done.
      rewrite (take_ready _ _ _ _ _ _ _ Hc). cbn [bind].
      set (s1 := sendValue _ None _).
      destruct (IH s1) as (s' & E & Hw' & Hc' & Ht' & Hl'); [done| | |by right|].
      { subst s1. by rewrite !heap_sendValue, lookup_upd_chan_ne. }
      { subst s1. do 2 apply base_sendValue. exact (base_upd_queue _ _ _ _ _ Hc). }
      exists s'. split; [exact E|]. split; [done|].
      unfold evicted in *. cbn [length] in *.
      replace (Z.to_nat (Z.of_nat (S (length q)) + 1 - N))
        with (S (Z.to_nat (Z.of_nat (length q) + 1 - N))) by (simpl in Hle; lia).
      cbn [skipn firstn]. split; [done|]. split.
      * rewrite Ht'. subst s1. rewrite !ticks_sendValue, ticks_upd_chan. simpl.
        unfold acks_of at 2. cbn [flat_map]. by rewrite app_nil_r, <- !app_assoc.
      * rewrite Hl'. subst s1. by rewrite !log_sendValue, log_upd_chan.
    + exists s. unfold evicted. replace (Z.to_nat _) with 0%nat by (simpl in *; lia).
      simpl. by rewrite app_nil_r.
Qed.

(** One [put] through an expiring buffer. *)
Lemma expiringPut_step fuel s w c N q p v cb :
  1 ≤ N →
  heap s !! w = Some (CChan (wrapper_chanobj c N None expiringPut)) →
  base_channel s c q p → q = [] ∨ p = [] →
  (length q + 3 ≤ fuel)%nat →
  ∃ s', put fuel w v cb s = Done tt s' ∧
    heap s' !! w = Some (CChan (wrapper_chanobj c N None expiringPut)) ∧
    log s' = log s ∧
    match p with
    | w0 :: p' =>
        base_channel s' c q p' ∧
        ticks s' = ticks s ++ [Tick w0 VNull v] ++ value_tick v cb
    | [] =>
        base_channel s' c (skipn (evicted N (length q)) q ++ [mkCBV None v]) [] ∧
        ticks s' = ticks s ++ acks_of (firstn (evicted N (length q)) q) ++ value_tick v cb
    end.
Proof.
  intros HN Hw Hc Hinv Hfuel.
  destruct fuel as [|fuel]; [lia|].
  unfold put. erewrite wrapper_method_put by done. cbn [put_with].
  destruct (expire_loop_evicts c w N (fuel - S (length q)) p q s HN Hw Hc Hinv)
    as (s1 & E & Hw1 & Hc1 & Ht1 & Hl1).
  replace (S (length q) + (fuel - S (length q)))%nat with fuel in E by lia.
  rewrite E. cbn [bind].
  destruct fuel as [|fuel]; [lia|].
  erewrite wrapper_get_channel by done.
  rewrite (base_method_put _ _ _ _ Hc1). cbn [put_with].
  assert (w ≠ c) as Hne by (by eapply wrapper_ne).
  destruct p as [|w0 p'].
  - rewrite (Channel_put_park _ _ _ _ _ _ Hc1 eq_refl eq_refl). cbn [bind].
    eexists. split; [done|].
    rewrite heap_sendValue, log_sendValue, ticks_sendValue, lookup_upd_chan_ne,
      log_upd_chan, ticks_upd_chan by done.
    split; [done|]. split; [done|]. split.
    + apply base_sendValue. exact (base_upd_queue _ _ _ _ _ Hc1).
    + by rewrite Ht1, <- app_assoc.
  - destruct Hinv as [-> | ?]; [|done].
    cbn [length] in *. rewrite skipn_nil in Hc1. rewrite firstn_nil in Ht1.
    rewrite (Channel_put_waiting _ _ _ _ _ _ _ Hc1 eq_refl). cbn [bind].
    eexists. split; [done|].
    rewrite !heap_sendValue, !log_sendValue, !ticks_sendValue, lookup_upd_chan_ne,
      log_upd_chan, ticks_upd_chan by done.
    split; [done|]. split; [done|]. split.
    + do 3 apply base_sendValue. exact (base_upd_pending _ _ _ _ _ Hc1).
    + rewrite Ht1. simpl. by rewrite !app_nil_r, <- app_assoc.
Qed.

(** X7: [put(v, cb)] through an [expiringBuffer(N)] with [N >= 1] and no
    taker waiting returns; it keeps the newest [N - 1] ready values and
    adds [v] behind them with no ack; the producers of the values it
    evicts are acknowledged oldest first, each with its own value, and
    [cb(null, v)] is deferred last. *)
Theorem expiringPut_keeps_newest fuel s w c N q v cb :
  1 ≤ N →
  heap s !! w = Some (CChan (wrapper_chanobj c N None expiringPut)) →
  base_channel s c q [] →
  (length q + 3 ≤ fuel)%nat →
  ∃ s', put fuel w v cb s = Done tt s' ∧
    base_channel s' c (skipn (evicted N (length q)) q ++ [mkCBV None v]) [] ∧
    ticks s' = ticks s ++ acks_of (firstn (evicted N (length q)) q) ++ value_tick v cb ∧
    log s' = log s ∧
    (Z.of_nat (length q) ≤ N →
     Z.of_nat (length (skipn (evicted N (length q)) q ++ [mkCBV None v])) ≤ N).
Proof.
  intros HN Hw Hc Hfuel.
  destruct (expiringPut_step fuel s w c N q [] v cb HN Hw Hc (or_intror eq_refl) Hfuel)
    as (s' & E & _ & Hl & Hc' & Ht).
  exists s'. split; [done|]. split; [done|]. split; [done|]. split; [done|].
  intros Hlen. rewrite length_app, length_drop. unfold evicted. simpl. lia.
Qed.

Lemma expiringPut_keeps_newest_witness :
  let s := mkState [CChan (base_chanobj [mkCBV (Some (User 1)) (VNum 7);
                                          mkCBV None (VNum 8)] []);
                    CChan (wrapper_chanobj 0 2 None expiringPut)] [] [] 0 in
  ∃ s', put 5 1%nat (VNum 9) (Some (User 2)) s = Done tt s' ∧
    base_channel s' 0%nat [mkCBV None (VNum 8); mkCBV None (VNum 9)] [] ∧
    ticks s' = [Tick (User 1) VNull (VNum 7); Tick (User 2) VNull (VNum 9)].
Proof.
  intros s.
  destruct (expiringPut_keeps_newest 5 s 1%nat 0%nat 2
              [mkCBV (Some (User 1)) (VNum 7); mkCBV None (VNum 8)] (VNum 9) (Some (User 2)))
    as (s' & E & Hc & Ht & _).
  - lia.
  - reflexivity.
  - reflexivity.
  - simpl. lia.
  - exists s'. split; [exact E|]. split; [exact Hc|exact Ht].
Defined.

Lemma expiringBuffer_op fuel s w c N o :
  1 ≤ N →
  heap s !! w = Some (CChan (wrapper_chanobj c N None expiringPut)) →
  never_blocks N s c →
  (Z.to_nat N + 3 ≤ fuel)%nat →
  ∃ s', apply_op fuel w o s = Done tt s' ∧
    heap s' !! w = Some (CChan (wrapper_chanobj c N None expiringPut)) ∧
    never_blocks N s' c.
Proof.
  intros HN Hw (q & p & Hc & Hinv & Hlen & Hq) Hfuel.
  assert (w ≠ c) as Hne by (by eapply wrapper_ne).
  destruct o as [v cb|cb]; unfold apply_op.
  - destruct (expiringPut_step fuel s w c N q p v cb HN Hw Hc Hinv) as (s' & -> & Hw' & _ & H);
      [lia|].
    exists s'. split; [done|]. split; [done|].
    destruct p as [|w0 p'].
    + destruct H as [Hc' _]. eexists _, []. split; [exact Hc'|]. split; [by right|].
      rewrite length_app, length_drop. unfold evicted. simpl. split; [lia|].
      apply Forall_app. split; [by apply Forall_drop|]. by constructor.
    + destruct H as [Hc' _]. destruct Hinv as [-> | ?]; [|done].
      exists [], p'. split; [done|]. split; [by left|]. simpl in *. split; [lia|done].
  - destruct fuel as [|fuel]; [lia|].
    erewrite wrapper_take_inherited by done.
    destruct (take_step fuel s c q p cb Hc Hinv) as (s' & -> & Ho & _ & H).
    exists s'. split; [done|]. split; [by rewrite Ho|].
    destruct q as [|e q'].
    + destruct H as [Hc' _]. eexists [], _. split; [done|]. split; [by left|].
      simpl. split; [lia|done].
    + destruct H as [Hc' _]. exists q', []. split; [done|]. split; [by right|].
      simpl in Hlen. split; [lia|]. by apply Forall_cons in Hq as [_ ?].
Qed.

(** X8: puts through an [expiringBuffer(N)] with [N >= 1], and takes, in
    any order and number, all return; the ready queue never holds more
    than [N] values and no entry of it holds an ack, so that no producer
    ever waits for a taker. *)
Theorem expiringBuffer_never_blocks fuel w c N ops : ∀ s,
  1 ≤ N →
  heap s !! w = Some (CChan (wrapper_chanobj c N None expiringPut)) →
  never_blocks N s c →
  (Z.to_nat N + 3 ≤ fuel)%nat →
  ∃ s', apply_ops fuel w ops s = Done tt s' ∧ never_blocks N s' c.
Proof.
  induction ops as [|o ops IH]; intros s HN Hw Hinv Hfuel.
  - by exists s.
  - cbn [apply_ops].
    destruct (expiringBuffer_op fuel s w c N o HN Hw Hinv Hfuel) as (s1 & -> & Hw1 & Hinv1).
    cbn [bind]. by apply IH.
Qed.

Lemma droppingBuffer_never_blocks_witness :
  let s := mkState [CChan (base_chanobj [] []);
                    CChan (wrapper_chanobj 0 1 None droppingPut)] [] [] 0 in
  ∃ s', apply_ops 2 1%nat [op_put (VNum 1) (Some (User 1)); op_put (VNum 2) (Some (User 2))] s
          = Done tt s' ∧
        never_blocks 1 s' 0%nat.
Proof.
  intros s.
  apply (droppingBuffer_never_blocks 0 1%nat 0%nat 1).
  - reflexivity.
  - exists [], []. split; [reflexivity|]. split; [by left|]. split; [simpl; lia|constructor].
Defined.

Lemma expiringBuffer_never_blocks_witness :
  let s := mkState [CChan (base_chanobj [] []);
                    CChan (wrapper_chanobj 0 1 None expiringPut)] [] [] 0 in
  ∃ s', apply_ops 4 1%nat [op_put (VNum 1) (Some (User 1)); op_put (VNum 2) (Some (User 2))] s
          = Done tt s' ∧
        never_blocks 1 s' 0%nat.
Proof.
  intros s.
  apply (expiringBuffer_never_blocks 4 1%nat 0%nat 1).
  - lia.
  - reflexivity.
  - exists [], []. split; [reflexivity|]. split; [by left|]. split; [simpl; lia|constructor].
  - simpl. lia.
Defined.

(** ** [buffer] *)

(** One [put] through a buffer. *)
Lemma bufferedPut_step fuel s w c N q p v cb :
  heap s !! w = Some (CChan (wrapper_chanobj c N (Some bufferedTake) bufferedPut)) →
  base_channel s c q p →
  ∃ s', put (S (S fuel)) w v cb s = Done tt s' ∧
    heap s' !! w = Some (CChan (wrapper_chanobj c N (Some bufferedTake) bufferedPut)) ∧
    log s' = log s ∧
    match p with
    | w0 :: p' =>
        base_channel s' c q p' ∧
        ticks s' = ticks s ++
          (if Z.of_nat (length q) - Z.of_nat (length p) <? N
           then [Tick w0 VNull v] ++ value_tick v cb
           else value_tick v cb ++ [Tick w0 VNull v])
    | [] =>
        if Z.of_nat (length q) <? N then
          base_channel s' c (q ++ [mkCBV None v]) [] ∧
          ticks s' = ticks s ++ value_tick v cb
        else
          base_channel s' c (q ++ [mkCBV cb v]) [] ∧ ticks s' = ticks s
    end.
Proof.
  intros Hw Hc. unfold put. erewrite wrapper_method_put by done.
  cbn [put_with]. erewrite wrapper_backlog, wrapper_get_bufferLength by done.
  erewrite wrapper_get_channel by done.
  rewrite (base_method_put _ _ _ _ Hc). cbn [put_with].
  assert (w ≠ c) as Hne by (by eapply wrapper_ne).
  destruct p as [|w0 p'].
  - cbn [length]. rewrite Z.sub_0_r. destruct (_ <? N).
    + rewrite (Channel_put_park _ _ _ _ _ _ Hc eq_refl eq_refl). cbn [bind].
      eexists. split; [done|].
      rewrite heap_sendValue, log_sendValue, ticks_sendValue, lookup_upd_chan_ne,
        log_upd_chan, ticks_upd_chan by done.
      split; [done|]. split; [done|]. split; [|done].
      apply base_sendValue. exact (base_upd_queue _ _ _ _ _ Hc).
    + rewrite (Channel_put_park _ _ _ _ _ _ Hc eq_refl eq_refl).
      eexists. split; [done|].
      rewrite lookup_upd_chan_ne, log_upd_chan, ticks_upd_chan by done.
      split; [done|]. split; [done|]. split; [|done].
      exact (base_upd_queue _ _ _ _ _ Hc).
  - rewrite !(Channel_put_waiting _ _ _ _ _ _ _ Hc eq_refl).
    destruct (_ <? N); cbn [bind]; (eexists; split; [done|]);
      rewrite !heap_sendValue, !log_sendValue, !ticks_sendValue, lookup_upd_chan_ne,
        log_upd_chan, ticks_upd_chan by done;
      (split; [done|]); (split; [done|]); split.
    + do 3 apply base_sendValue. exact (base_upd_pending _ _ _ _ _ Hc).
    + simpl. by rewrite app_nil_r, <- app_assoc.
    + do 2 apply base_sendValue. exact (base_upd_pending _ _ _ _ _ Hc).
    + by rewrite <- app_assoc.
Qed.

Lemma take_buffered fuel s w c N f fl cb :
  heap s !! w = Some (CChan (wrapper_with c N (Some bufferedTake) f fl)) →
  take (S fuel) w cb s = let* _ := take fuel c cb s in bufferedTake_release w.
Proof.
  intros Hw. cbn [take].
  assert (method_take s w = bufferedTake) as ->.
  { unfold method_take. by erewrite get_own. }
  assert (get _channel s w = Some (w, c)) as -> by (by eapply get_own).
  done.
Qed.

(** One [take] through a buffer of capacity at least 1. *)
Lemma bufferedTake_step fuel s w c N q p cb :
  1 ≤ N →
  heap s !! w = Some (CChan (wrapper_chanobj c N (Some bufferedTake) bufferedPut)) →
  base_channel s c q p → q = [] ∨ p = [] →
  ∃ s', take (S (S fuel)) w cb s = Done tt s' ∧
    heap s' !! w = Some (CChan (wrapper_chanobj c N (Some bufferedTake) bufferedPut)) ∧
    log s' = log s ∧
    match q with
    | e :: q' =>
        base_channel s' c (clear_callback (N - 1) q') [] ∧
        ticks s' = ticks s ++ value_tick (_value e) (_callback e) ++
                   value_tick (_value e) cb ++
                   match index q' (N - 1) with
                   | Some e' => value_tick (_value e') (_callback e')
                   | None => []
                   end
    | [] =>
        base_channel s' c [] (p ++ match cb with Some f => [f] | None => [] end) ∧
        ticks s' = ticks s
    end.
Proof.
  intros HN Hw Hc Hinv. rewrite (take_buffered _ _ _ _ _ _ _ _ Hw).
  assert (w ≠ c) as Hne by (by eapply wrapper_ne).
  destruct (take_step fuel s c q p cb Hc Hinv) as (s1 & -> & Ho & Hl1 & H).
  cbn [bind]. unfold bufferedTake_release.
  assert (Hw1 : heap s1 !! w = Some (CChan (wrapper_chanobj c N (Some bufferedTake) bufferedPut)))
    by (by rewrite Ho).
  destruct q as [|e q'].
  - destruct H as [Hc1 Ht1].
    erewrite wrapper_backlog, wrapper_get_bufferLength by done.
    replace (N <=? _) with false by (symmetry; apply Z.leb_gt; simpl; lia).
    by exists s1.
  - destruct H as [Hc1 Ht1].
    erewrite wrapper_backlog, wrapper_get_bufferLength by done.
    cbn [length]. rewrite Z.sub_0_r.
    destruct (Z.leb_spec N (Z.of_nat (length q'))) as [Hle|Hgt].
    + erewrite wrapper_get_queue by done.
      destruct (index q' (N - 1)) as [e'|] eqn:He'.
      * eexists. split; [done|].
        rewrite lookup_upd_chan_ne, log_upd_chan, ticks_upd_chan, heap_sendValue,
          log_sendValue, ticks_sendValue by done.
        split; [done|]. split; [done|]. split.
        -- unfold clear_callback. rewrite He'.
           eapply (base_upd_queue _ _ _ _ _). apply base_sendValue. exact Hc1.
        -- rewrite Ht1. by rewrite <- !app_assoc.
      * unfold index in He'. destruct (N - 1 <? 0) eqn:Hneg; [lia|].
        apply lookup_ge_None in He'. lia.
    + exists s1. split; [done|]. split; [done|]. split; [done|].
      unfold clear_callback.
      assert (index q' (N - 1) = None) as ->.
      { unfold index. destruct (N - 1 <? 0); [done|]. apply lookup_ge_None. lia. }
      split; [done|]. by rewrite Ht1, !app_nil_r.
Qed.

Lemma clear_callback_lookup (i : nat) q j :
  clear_callback (Z.of_nat i) q !! j =
    if decide (j = i) then (λ e, mkCBV None (_value e)) <$> q !! j else q !! j.
Proof.
  unfold clear_callback. rewrite index_nat.
  destruct (q !! i) as [e|] eqn:He.
  - rewrite Nat2Z.id. destruct (decide (j = i)) as [->|Hne].
    + rewrite list_lookup_insert_eq by (by eapply lookup_lt_Some). by rewrite He.
    + by rewrite list_lookup_insert_ne.
  - destruct (decide (j = i)) as [->|]; [by rewrite He|done].
Qed.

Lemma buffer_op fuel s w c N o :
  1 ≤ N →
  heap s !! w = Some (CChan (wrapper_chanobj c N (Some bufferedTake) bufferedPut)) →
  buffered N s c →
  ∃ s', apply_op (S (S fuel)) w o s = Done tt s' ∧
    heap s' !! w = Some (CChan (wrapper_chanobj c N (Some bufferedTake) bufferedPut)) ∧
    buffered N s' c.
Proof.
  intros HN Hw (q & p & Hc & Hinv & Hq).
  rewrite acked_window_lookup in Hq.
  destruct o as [v cb|cb]; unfold apply_op.
  - destruct (bufferedPut_step fuel s w c N q p v cb Hw Hc) as (s' & -> & Hw' & _ & H).
    exists s'. split; [done|]. split; [done|].
    destruct p as [|w0 p'].
    + destruct (Z.ltb_spec (Z.of_nat (length q)) N) as [Hlt|Hge]; destruct H as [Hc' _];
        (eexists _, []; split; [exact Hc'|]; split; [by right|]);
        apply acked_window_lookup; intros i e Hi He.
      * apply lookup_app_Some in He as [He|[_ He]]; [by eapply Hq|].
        apply list_lookup_singleton_Some in He as [_ <-]. done.
      * apply lookup_app_Some in He as [He|[Hi' _]]; [by eapply Hq|lia].
    + destruct H as [Hc' _]. destruct Hinv as [-> | ?]; [|done].
      exists [], p'. split; [done|]. split; [by left|].
      apply acked_window_lookup. by intros i e _ ?.
  - destruct (bufferedTake_step fuel s w c N q p cb HN Hw Hc Hinv) as (s' & -> & Hw' & _ & H).
    exists s'. split; [done|]. split; [done|].
    destruct q as [|e q'].
    + destruct H as [Hc' _]. eexists [], _. split; [exact Hc'|]. split; [by left|].
      apply acked_window_lookup. by intros i e _ ?.
    + destruct H as [Hc' _]. eexists _, []. split; [exact Hc'|]. split; [by right|].
      apply acked_window_lookup. intros i e' Hi He.
      replace (N - 1) with (Z.of_nat (Z.to_nat (N - 1))) in He by lia.
      rewrite clear_callback_lookup in He.
      destruct (decide (i = Z.to_nat (N - 1))) as [->|Hne].
      * destruct (q' !! Z.to_nat (N - 1)); simpl in He; by simplify_eq.
      * apply (Hq (S i)); [lia|done].
Qed.

(** X4: puts and takes through a [buffer(N)] with [N >= 1], in any order
    and number, all return, and the producers of the first [N] ready
    values have always been acknowledged: only a value behind the first
    [N] keeps its producer waiting. *)
Theorem buffer_acknowledges_first_N fuel w c N ops : ∀ s,
  1 ≤ N →
  heap s !! w = Some (CChan (wrapper_chanobj c N (Some bufferedTake) bufferedPut)) →
  buffered N s c →
  ∃ s', apply_ops (S (S fuel)) w ops s = Done tt s' ∧ buffered N s' c.
Proof.
  induction ops as [|o ops IH]; intros s HN Hw Hinv.
  - by exists s.
  - cbn [apply_ops].
    destruct (buffer_op fuel s w c N o HN Hw Hinv) as (s1 & -> & Hw1 & Hinv1).
    cbn [bind]. by apply IH.
Qed.

Lemma buffer_acknowledges_first_N_witness :
  let s := mkState [CChan (base_chanobj [] []);
                    CChan (wrapper_chanobj 0 1 (Some bufferedTake) bufferedPut)] [] [] 0 in
  ∃ s', apply_ops 2 1%nat [op_put (VNum 1) (Some (User 1)); op_put (VNum 2) (Some (User 2));
                            op_take (Some (User 3))] s = Done tt s' ∧
        buffered 1 s' 0%nat.
Proof.
  intros s.
  apply (buffer_acknowledges_first_N 0 1%nat 0%nat 1).
  - lia.
  - reflexivity.
  - exists [], []. split; [reflexivity|]. split; [by left|]. constructor.
Defined.

(** X5: a [take] through a [buffer(N)] with [N <= 0] from a non-empty ready
    queue throws a TypeError ([this._queue[N - 1]] is undefined) after the
    inner [take] has removed the head and deferred its ack and the
    callback. *)
Theorem buffer_without_capacity_take_throws fuel s w c N e q cb :
  N ≤ 0 →
  heap s !! w = Some (CChan (wrapper_chanobj c N (Some bufferedTake) bufferedPut)) →
  base_channel s c (e :: q) [] →
  ∃ s', take (S (S fuel)) w cb s = Threw TypeError s' ∧
    base_channel s' c q [] ∧
    ticks s' = ticks s ++ value_tick (_value e) (_callback e) ++ value_tick (_value e) cb ∧
    log s' = log s.
Proof.
  intros HN Hw Hc. rewrite (take_buffered _ _ _ _ _ _ _ _ Hw).
  assert (w ≠ c) as Hne by (by eapply wrapper_ne).
  destruct (take_step fuel s c (e :: q) [] cb Hc (or_intror eq_refl))
    as (s1 & -> & Ho & Hl1 & Hc1 & Ht1).
  cbn [bind]. unfold bufferedTake_release.
  assert (Hw1 : heap s1 !! w = Some (CChan (wrapper_chanobj c N (Some bufferedTake) bufferedPut)))
    by (by rewrite Ho).
  erewrite wrapper_backlog, wrapper_get_bufferLength by done.
  replace (N <=? _) with true by (symmetry; apply Z.leb_le; simpl; lia).
  erewrite wrapper_get_queue by done.
  unfold index. replace (N - 1 <? 0) with true by (symmetry; apply Z.ltb_lt; lia).
  by exists s1.
Qed.

Lemma buffer_without_capacity_take_throws_witness :
  let s := mkState [CChan (base_chanobj [mkCBV None (VNum 7)] []);
                    CChan (wrapper_chanobj 0 0 (Some bufferedTake) bufferedPut)] [] [] 0 in
  ∃ s', take 2 1%nat (Some (User 3)) s = Threw TypeError s' ∧
    ticks s' = [Tick (User 3) VNull (VNum 7)].
Proof.
  intros s.
  destruct (buffer_without_capacity_take_throws 0 s 1%nat 0%nat 0 (mkCBV None (VNum 7)) []
              (Some (User 3))) as (s' & E & _ & Ht & _).
  - lia.
  - reflexivity.
  - reflexivity.
  - exists s'. split; [exact E|exact Ht].
Defined.

End WrapperFacts.

Module ChannelOpsFacts2.

Import Channel ChannelOps ChannelFacts ChannelOpsFacts WrapperFacts.

(** X9: on a base channel that keeps the queue invariant, [canRead()] is
    [backlog() > 0] and [canWrite()] is [backlog() <= 0].  When [canRead()]
    is true, [take(cb)] defers [cb] with the oldest ready value in the
    same call; when it is false, [take(cb)] parks [cb].  When [canWrite()]
    is true, [put(v, ack)] hands [v] to the oldest waiting taker, or, with
    no taker, makes it the only ready value, its ack held back; when it is
    false, [v] is queued behind the values that are ready. *)
Theorem canRead_canWrite s c q p :
  base_channel s c q p → q = [] ∨ p = [] →
  let bl := Z.of_nat (length q) - Z.of_nat (length p) in
  canRead s c = Some (0 <? bl) ∧
  canWrite s c = Some (bl <=? 0) ∧
  (∀ fuel cb, ∃ s', take (S fuel) c (Some cb) s = Done tt s' ∧
     if 0 <? bl
     then ∃ e q', q = e :: q' ∧ base_channel s' c q' p ∧
            ticks s' = ticks s ++ value_tick (_value e) (_callback e) ++
                       [Tick cb VNull (_value e)]
     else base_channel s' c q (p ++ [cb]) ∧ ticks s' = ticks s) ∧
  (∀ fuel v ack, ∃ s', put (S fuel) c v ack s = Done tt s' ∧
     if bl <=? 0
     then match p with
          | w :: p' => base_channel s' c [] p' ∧
                       ticks s' = ticks s ++ value_tick v ack ++ [Tick w VNull v]
          | [] => base_channel s' c [mkCBV ack v] [] ∧ ticks s' = ticks s
          end
     else q ≠ [] ∧ base_channel s' c (q ++ [mkCBV ack v]) [] ∧ ticks s' = ticks s).
Proof.
  intros Hc Hinv bl. subst bl.
  unfold canRead, canWrite.
  rewrite (base_get_queue _ _ _ _ Hc), (base_get_pending _ _ _ _ Hc).
  destruct Hinv as [-> | ->].
  - cbn [length]. rewrite !Nat2Z.inj_0.
    replace (0 <? 0 - Z.of_nat (length p)) with false by (symmetry; apply Z.ltb_ge; lia).
    replace (0 - Z.of_nat (length p) <=? 0) with true by (symmetry; apply Z.leb_le; lia).
    split; [done|]. split; [by destruct p|]. split.
    + intros fuel cb. rewrite (take_park _ _ _ _ _ Hc). eexists. split; [done|].
      rewrite ticks_upd_chan. split; [|done]. exact (base_upd_pending _ _ _ _ _ Hc).
    + intros fuel v ack. destruct p as [|w p'].
      * rewrite (put_park _ _ _ _ _ _ Hc). eexists. split; [done|].
        rewrite ticks_upd_chan. split; [|done]. exact (base_upd_queue _ _ _ _ _ Hc).
      * rewrite (put_waiting _ _ _ _ _ _ _ _ Hc). eexists. split; [done|].
        rewrite !ticks_sendValue, ticks_upd_chan. split; [|by rewrite <- app_assoc].
        do 2 apply base_sendValue. exact (base_upd_pending _ _ _ _ _ Hc).
  - cbn [length]. rewrite Z.sub_0_r.
    destruct q as [|e q'].
    + cbn [length]. rewrite !Nat2Z.inj_0.
      split; [done|]. split; [done|]. split.
      * intros fuel cb. rewrite (take_park _ _ _ _ _ Hc). eexists. split; [done|].
        rewrite ticks_upd_chan. split; [|done]. exact (base_upd_pending _ _ _ _ _ Hc).
      * intros fuel v ack. rewrite (put_park _ _ _ _ _ _ Hc). eexists. split; [done|].
        rewrite ticks_upd_chan. split; [|done]. exact (base_upd_queue _ _ _ _ _ Hc).
    + replace (0 <? Z.of_nat (length (e :: q'))) with true
        by (symmetry; apply Z.ltb_lt; simpl; lia).
      replace (Z.of_nat (length (e :: q')) <=? 0) with false
        by (symmetry; apply Z.leb_gt; simpl; lia).
      split; [done|]. split; [done|]. split.
      * intros fuel cb. rewrite (take_ready _ _ _ _ _ _ _ Hc). eexists. split; [done|].
        exists e, q'. split; [done|].
        rewrite !ticks_sendValue, ticks_upd_chan. split; [|by rewrite <- app_assoc].
        do 2 apply base_sendValue. exact (base_upd_queue _ _ _ _ _ Hc).
      * intros fuel v ack. rewrite (put_park _ _ _ _ _ _ Hc). eexists. split; [done|].
        rewrite ticks_upd_chan. split; [done|]. split; [|done].
        exact (base_upd_queue _ _ _ _ _ Hc).
Qed.

Lemma canRead_canWrite_witness :
  let s := mkState [CChan (base_chanobj [mkCBV None (VNum 7)] [])] [] [] 0 in
  canRead s 0%nat = Some true ∧ canWrite s 0%nat = Some false.
Proof.
  intros s.
  destruct (canRead_canWrite s 0%nat [mkCBV None (VNum 7)] []) as (Hr & Hw & _).
  - reflexivity.
  - by right.
  - split; [exact Hr|exact Hw].
Defined.

(** ** [receive] and [resolver] *)

Lemma fill_base fuel s c p v :
  base_channel s c [] p →
  ∃ s', fill (S (length p + fuel)) c v s = Done tt s' ∧
    ticks s' = ticks s ++ map (λ w, Tick w VNull v) p ∧
    log s' = log s ∧
    filled s' c v ∧
    (∀ l, l ≠ c → heap s' !! l = heap s !! l).
Proof.
  intros H. unfold fill, Channel_fill.
  rewrite (base_method_fill _ _ _ _ H), (base_backlog _ _ _ _ H).
  replace (0 <? _) with false by (symmetry; apply Z.ltb_ge; simpl; lia).
  rewrite (base_method_put _ _ _ _ H).
  set (o := with_methods (take_filled v) put_filled noop (base_chanobj [] p)).
  set (s1 := upd_chan _ c s).
  assert (H1 : heap s1 !! c = Some (CChan o)) by (by apply lookup_upd_chan_eq).
  destruct (fill_loop_drains c v fuel p s1 o H1 eq_refl eq_refl) as (s' & E & Hh & Ht & Hl).
  exists s'. split; [done|]. subst s1.
  rewrite ticks_upd_chan in Ht. rewrite log_upd_chan in Hl.
  do 2 (split; [done|]). split.
  - exists (with_pending [] o). split; [|done].
    rewrite Hh, list_lookup_insert_eq; [done|]. by eapply lookup_lt_Some.
  - intros l Hl'. by rewrite Hh, list_lookup_insert_ne, lookup_upd_chan_ne.
Qed.

Lemma filled_alloc s c v x : filled s c v → filled (alloc x s).2 c v.
Proof.
  intros (o & H & ?). exists o. split; [|done]. simpl. by apply lookup_app_l_Some.
Qed.

Lemma ChannelValue_resolve_new s c err v :
  ChannelValue_resolve (ChannelValue c err v s).2 (length (heap s)) =
    Some (if truthy err then inl err else inr v).
Proof.
  unfold ChannelValue_resolve. simpl.
  rewrite lookup_app_r, Nat.sub_diag by done. simpl. by destruct (truthy err).
Qed.

(** X10: the callback made by [resolver()] fills the channel with a
    [ChannelValue] of what it is called with: on a channel with nothing
    ready, the takers that wait, oldest first, and every later [take] get
    that object, whose [resolve()] throws the error if there is one and
    returns the value otherwise.  A second call of the callback makes a
    new object and changes nothing else: the first result stays.  On a
    channel that has a value ready the callback throws the error of
    [fill]. *)
Theorem resolver_keeps_first_result fuel s c err v :
  let cv := length (heap s) in
  (∀ p, base_channel s c [] p →
     ∃ s1, resolver_body (S (length p + fuel)) c err v s = Done tt s1 ∧
       ticks s1 = ticks s ++ map (λ w, Tick w VNull (VRef cv)) p ∧
       log s1 = log s ∧
       filled s1 c (VRef cv) ∧
       ChannelValue_resolve s1 cv = Some (if truthy err then inl err else inr v)) ∧
  (∀ s2, filled s2 c (VRef cv) →
     (∀ fuel' err' v', ∃ s3,
        resolver_body fuel' c err' v' s2 = Done tt s3 ∧
        filled s3 c (VRef cv) ∧
        heap s3 = (ChannelValue c err' v' s2).2.(heap) ∧
        ticks s3 = ticks s2 ∧ log s3 = log s2) ∧
     (∀ fuel' cb, ∃ s3, take (S fuel') c cb s2 = Done tt s3 ∧
        ticks s3 = ticks s2 ++ value_tick (VRef cv) cb ∧ heap s3 = heap s2)) ∧
  (∀ e q, base_channel s c (e :: q) [] →
     resolver_body fuel c err v s = Threw fill_error (ChannelValue c err v s).2).
Proof.
  intros cv. split; [|split].
  - intros p Hc. unfold resolver_body.
    destruct (ChannelValue c err v s) as [cv' s0] eqn:E.
    assert (cv' = cv ∧ s0 = (ChannelValue c err v s).2) as [-> ->]
      by (unfold ChannelValue, alloc in *; by simplify_eq).
    destruct (fill_base fuel (ChannelValue c err v s).2 c p (VRef cv))
      as (s1 & -> & Ht & Hl & Hf & Ho); [by apply base_alloc|].
    exists s1. split; [done|]. split; [done|]. split; [done|]. split; [done|].
    assert (cv ≠ c) as Hne by (apply lookup_lt_Some in Hc; subst cv; lia).
    pose proof (ChannelValue_resolve_new s c err v) as Hr.
    unfold ChannelValue_resolve in *. by rewrite Ho.
  - intros s2 Hf. split.
    + intros fuel' err' v'. unfold resolver_body.
      destruct (ChannelValue c err' v' s2) as [cv' s0] eqn:E.
      assert (s0 = (ChannelValue c err' v' s2).2) as -> by (by rewrite E).
      rewrite (filled_fill _ _ _ (VRef cv)) by (by apply filled_alloc).
      eexists. split; [done|]. split; [by apply filled_alloc|done].
    + intros fuel' cb. rewrite (filled_take _ _ _ _ _ Hf). eexists. split; [done|].
      by rewrite ticks_sendValue, heap_sendValue.
  - intros e q Hc. unfold resolver_body.
    destruct (ChannelValue c err v s) as [cv' s0] eqn:E.
    assert (s0 = (ChannelValue c err v s).2) as -> by (by rewrite E).
    assert (Hc' : base_channel (ChannelValue c err v s).2 c (e :: q) [])
      by (by apply base_alloc).
    unfold fill, Channel_fill.
    rewrite (base_method_fill _ _ _ _ Hc'), (base_backlog _ _ _ _ Hc').
    by replace (0 <? _) with true by (symmetry; apply Z.ltb_lt; simpl; lia).
Qed.

Lemma resolver_keeps_first_result_witness :
  let s := mkState [CChan (base_chanobj [] [User 1])] [] [] 0 in
  ∃ s1, resolver_body 2 0%nat VNull (VNum 5) s = Done tt s1 ∧
    ticks s1 = [Tick (User 1) VNull (VRef 1)] ∧
    ChannelValue_resolve s1 1%nat = Some (inr (VNum 5)).
Proof.
  intros s.
  destruct (resolver_keeps_first_result 1 s 0%nat VNull (VNum 5)) as [H _].
  destruct (H [User 1]) as (s1 & E & Ht & _ & _ & Hr); [reflexivity|].
  exists s1. split; [exact E|]. split; [exact Ht|exact Hr].
Defined.

(** X11: the callback made by [receive()] puts a [ChannelValue] of what it
    is called with into the channel, with no ack: the oldest waiting
    taker is deferred with it, or, with no taker, it joins the ready
    queue; its [resolve()] throws the error if there is one and returns
    the value otherwise. *)
Theorem receive_puts_channel_value fuel s c q p err v :
  base_channel s c q p →
  let cv := length (heap s) in
  ∃ s1, receive_body (S fuel) c err v s = Done tt s1 ∧
    ChannelValue_resolve s1 cv = Some (if truthy err then inl err else inr v) ∧
    heap s1 !! cv = Some (CObj [("chan"%string, VRef c); ("err"%string, err);
                                ("val"%string, v)]) ∧
    log s1 = log s ∧
    match p with
    | w :: p' => base_channel s1 c q p' ∧ ticks s1 = ticks s ++ [Tick w VNull (VRef cv)]
    | [] => base_channel s1 c (q ++ [mkCBV None (VRef cv)]) [] ∧ ticks s1 = ticks s
    end.
Proof.
  intros Hc cv. unfold receive_body.
  destruct (ChannelValue c err v s) as [cv' s0] eqn:E.
  assert (cv' = cv ∧ s0 = (ChannelValue c err v s).2) as [-> ->]
    by (unfold ChannelValue, alloc in *; by simplify_eq).
  assert (Hc' : base_channel (ChannelValue c err v s).2 c q p) by (by apply base_alloc).
  assert (cv ≠ c) as Hne by (apply lookup_lt_Some in Hc; subst cv; lia).
  assert (Hcv : heap (ChannelValue c err v s).2 !! cv =
            Some (CObj [("chan"%string, VRef c); ("err"%string, err); ("val"%string, v)])).
  { simpl. by rewrite lookup_app_r, Nat.sub_diag. }
  pose proof (ChannelValue_resolve_new s c err v) as Hr.
  destruct p as [|w p'].
  - rewrite (put_park _ _ _ _ _ _ Hc'). eexists. split; [done|].
    unfold ChannelValue_resolve in *.
    rewrite lookup_upd_chan_ne, log_upd_chan, ticks_upd_chan by done.
    split; [done|]. split; [done|]. split; [done|]. split; [|done].
    exact (base_upd_queue _ _ _ _ _ Hc').
  - rewrite (put_waiting _ _ _ _ _ _ _ _ Hc'). eexists. split; [done|].
    unfold ChannelValue_resolve in *.
    rewrite !heap_sendValue, !log_sendValue, !ticks_sendValue, lookup_upd_chan_ne,
      log_upd_chan, ticks_upd_chan by done.
    split; [done|]. split; [done|]. split; [done|]. split.
    + do 2 apply base_sendValue. exact (base_upd_pending _ _ _ _ _ Hc').
    + simpl. by rewrite app_nil_r.
Qed.

Lemma receive_puts_channel_value_witness :
  let s := mkState [CChan (base_chanobj [] [User 1])] [] [] 0 in
  ∃ s1, receive_body 1 0%nat (VStr "boom") VNull s = Done tt s1 ∧
    ticks s1 = [Tick (User 1) VNull (VRef 1)] ∧
    ChannelValue_resolve s1 1%nat = Some (inl (VStr "boom")).
Proof.
  intros s.
  destruct (receive_puts_channel_value 0 s 0%nat [] [User 1] (VStr "boom") VNull)
    as (s1 & E & Hr & _ & _ & _ & Ht); [reflexivity|].
  exists s1. split; [exact E|]. split; [exact Ht|exact Hr].
Defined.

End ChannelOpsFacts2.

Module StreamFacts.

Import Channel ChannelOps ChannelFacts ChannelOpsFacts.

(** The deferred calls of functions of the program at the head of the
    tick queue are made and logged in order. *)
Lemma run_deliveries fuel (l : list (nat * value)) : ∀ n s rest,
  ticks s = map delivery l ++ rest →
  run (length l + n) (S fuel) s =
    run n (S fuel) (set_log (log s ++ map delivery l) (set_ticks rest s)).
Proof.
  induction l as [|[w x] l IH]; intros n s rest Ht.
  - simpl in *. rewrite app_nil_r. destruct s. simpl in *. by subst.
  - cbn [length Nat.add]. erewrite run_user; [|exact Ht].
    rewrite (IH n _ rest) by done. simpl. by rewrite <- app_assoc.
Qed.

(** The rounds of [stream]: each turn of [next] puts the next element,
    which goes to the oldest waiting taker. *)
Lemma stream_rounds c arr iv b fuel p xs : ∀ (rem : list (nat * value)) pre prev s k n,
  xs = pre ++ map snd rem →
  heap s !! iv = Some (CVar (Z.of_nat (length pre))) →
  heap s !! arr = Some (CArr xs) →
  base_channel s c [] (map (λ e, User e.1) rem ++ p) →
  ticks s = map delivery prev →
  (length prev + 2 * length rem + 1 ≤ n)%nat →
  ∃ s',
    (let* _ := stream_next_body (S k) iv arr c (user b) s in
     run n (S (S (S fuel)))) = Done tt s' ∧
    base_channel s' c [] p ∧
    heap s' !! arr = Some (CArr xs) ∧
    heap s' !! iv = Some (CVar (Z.of_nat (length xs))) ∧
    (∀ l, l ≠ c → l ≠ iv → heap s' !! l = heap s !! l) ∧
    ticks s' = [] ∧
    log s' = log s ++ map delivery prev ++ map delivery rem ++
             value_tick (VRef arr) (user b).
Proof.
  induction rem as [|[w x] rem IH]; intros pre prev s k n Hxs Hi Ha Hc Ht Hn.
  - (* past the last element *)
    simpl in Hxs. rewrite app_nil_r in Hxs. subst pre.
    unfold stream_next_body. rewrite Hi, Ha.
    replace (_ <? _) with false by (symmetry; apply Z.ltb_ge; lia).
    cbn [bind].
    replace n with (length prev + (n - length prev))%nat by lia.
    erewrite run_deliveries; [|rewrite ticks_sendValue, Ht; done].
    set (s1 := set_log _ _).
    assert (∃ s', run (n - length prev) (S (S (S fuel))) s1 = Done tt s' ∧
              heap s' = heap s ∧ ticks s' = [] ∧
              log s' = log s ++ map delivery prev ++ value_tick (VRef arr) (user b))
      as (s' & -> & Hh' & Ht' & Hl').
    { subst s1. destruct b as [b|]; simpl.
      - destruct (n - length prev)%nat as [|m] eqn:Hm; [simpl in Hn; lia|].
        erewrite run_user; [|done]. rewrite run_quiet by done.
        eexists. split; [done|]. simpl. by rewrite <- app_assoc.
      - rewrite run_quiet by done. eexists. split; [done|]. simpl.
        by rewrite app_nil_r. }
    exists s'. split; [done|]. unfold base_channel. rewrite Hh'.
    split; [done|]. split; [done|]. split; [done|]. split; [done|]. split; [done|].
    by rewrite Hl'.
  - (* one more element *)
    cbn [map app] in *.
    assert (iv ≠ arr) as Hia by (intros ->; congruence).
    assert (iv ≠ c) as Hic by (intros ->; unfold base_channel in Hc; congruence).
    assert (arr ≠ c) as Hac by (intros ->; unfold base_channel in Hc; congruence).
    unfold stream_next_body. rewrite Hi, Ha.
    replace (_ <? _) with true
      by (symmetry; apply Z.ltb_lt; rewrite Hxs, length_app; simpl; lia).
    rewrite index_nat.
    replace (xs !! length pre) with (Some x)
      by (rewrite Hxs, lookup_app_r, Nat.sub_diag by done; done).
    cbn [default].
    set (next := stream_next iv arr c (user b)).
    set (s1 := set_cell iv _ s).
    assert (Hc1 : base_channel s1 c [] (User w :: map (λ e, User e.1) rem ++ p))
      by (by apply base_set_cell).
    rewrite (put_waiting _ _ _ _ _ _ _ _ Hc1). cbn [bind].
    match goal with
    | |- context [run n _ ?t] => set (s2 := t)
    end.
    assert (Ht2 : ticks s2 = map delivery prev ++ [Tick next VNull x; delivery (w, x)]).
    { subst s2 s1. rewrite !ticks_sendValue, ticks_upd_chan. simpl. by rewrite Ht, <- app_assoc. }
    replace n with (length prev + S (n - length prev - 1))%nat by lia.
    rewrite (run_deliveries _ _ _ _ _ Ht2).
    erewrite run_cons; [|done]. cbn [t_callback t_err t_value]. subst next.
    cbn [invoke].
    set (s3 := set_ticks _ _).
    assert (Hh3 : heap s3 = heap (upd_chan (with_pending (map (λ e, User e.1) rem ++ p)) c s1)).
    { subst s3 s2. cbn [set_ticks set_log heap]. by rewrite !heap_sendValue. }
    assert (Hl3 : log s3 = log s ++ map delivery prev).
    { subst s3 s2 s1. cbn [set_ticks set_log log]. by rewrite !log_sendValue, log_upd_chan. }
    assert (Ho3 : ∀ l, l ≠ c → l ≠ iv → heap s3 !! l = heap s !! l).
    { intros l H1 H2. rewrite Hh3, lookup_upd_chan_ne by done. subst s1. simpl.
      by rewrite list_lookup_insert_ne. }
    destruct (IH (pre ++ [x]) [(w, x)] s3 (S fuel) (n - length prev - 1)%nat)
      as (s' & E & Hc' & Ha' & Hi' & Ho' & Ht' & Hl').
    + by rewrite <- app_assoc.
    + rewrite Hh3, lookup_upd_chan_ne by done. subst s1. simpl.
      rewrite list_lookup_insert_eq by (by eapply lookup_lt_Some).
      rewrite length_app. simpl. do 3 f_equal. lia.
    + by rewrite Ho3.
    + unfold base_channel. rewrite Hh3. exact (base_upd_pending _ _ _ _ _ Hc1).
    + done.
    + simpl in *. lia.
    + exists s'. split; [exact E|]. split; [done|]. split; [done|]. split; [done|].
      split; [intros l H1 H2; by rewrite Ho', Ho3|].
      split; [done|]. rewrite Hl', Hl3. simpl. by rewrite <- !app_assoc.
Qed.



End StreamFacts.

Module UnwindingFacts.

Import StateMachine StateMachineFacts Unwinding.
Import Channel (value, VUndefined, VNull, VBool, VNum, VStr, VRef, truthy).

Lemma run_tick P n fuel m t rest :
  ticks m = t :: rest →
  run P (S n) fuel m = bind (dispatch P fuel t (set_ticks rest m)) (run P n fuel).
Proof. intros H. simpl. by rewrite H. Qed.

Lemma actions_of_app u1 u2 : actions_of (u1 ++ u2) = actions_of u1 ++ actions_of u2.
Proof. apply flat_map_app. Qed.

Lemma unwound_unwound b1 a1 b2 a2 m :
  unwound b2 a2 (unwound b1 a1 m) = unwound b2 (a1 ++ a2) m.
Proof. unfold unwound. simpl. by rewrite map_app, app_assoc. Qed.

Lemma unwound_again b a m t :
  ticks m = [t] → nextTick t (unwound b a (set_ticks [] m)) = unwound b a m.
Proof. destruct m. simpl. by intros ->. Qed.

Lemma unwound_id m :
  isUnwinding (state m) = true → unwound (unwinding (state m)) [] m = m.
Proof.
  destruct m as [[] ? ? ? ? ?]. simpl. intros ->. unfold unwound. simpl.
  by rewrite app_nil_r.
Qed.

(** One turn of [unwind] over a record that it passes. *)
Lemma unwind_passes_one P fuel below r m :
  unwinding (state m) = below ++ [r] →
  strict_unwind (state m) = true →
  passed (truthy (err (state m))) r = true →
  (∀ a, a ∈ actions_of [r] → actions P a = Stop) →
  call P (S (S fuel)) unwind m = Done (nextTick boundUnwind (unwound below (actions_of [r]) m)).
Proof.
  intros Hu Hs Hp Ha. cbn [call]. rewrite Hu, pop_snoc.
  destruct m as [[] ? ? ? ? ?]. simpl in *. subst.
  destruct r as [| | | |a|]; simpl in *; try done.
  - rewrite orb_true_r. unfold unwound, nextTick. simpl. by rewrite app_nil_r.
  - apply negb_true_iff in Hp. rewrite Hp. unfold unwound, nextTick. simpl.
    by rewrite app_nil_r.
  - rewrite (Ha a) by (by constructor). done.
Qed.

(** Unwinding passes the records [above], the newest first, one tick
    each, and calls the cleanup actions among them. *)
Lemma unwind_passes P fuel below : ∀ above m,
  unwinding (state m) = below ++ above →
  ticks m = [boundUnwind] →
  strict_unwind (state m) = true →
  Forall (λ r, passed (truthy (err (state m))) r = true) above →
  (∀ a, a ∈ actions_of above → actions P a = Stop) →
  above ≠ [] ∨ isUnwinding (state m) = true →
  run P (length above) (S (S fuel)) m = Done (unwound below (rev (actions_of above)) m).
Proof.
  induction above as [|r above IH] using rev_ind; intros m Hu Ht Hs Hp Ha Hne.
  - destruct Hne as [|Hi]; [done|]. simpl. rewrite app_nil_r in Hu.
    by rewrite <- Hu, unwound_id.
  - rewrite length_app, Nat.add_1_r. rewrite (run_tick _ _ _ _ _ _ Ht).
    apply Forall_app in Hp as [Hp Hr]. apply Forall_inv in Hr.
    cbn [dispatch].
    rewrite (unwind_passes_one P fuel (below ++ above) r).
    2:{ simpl. by rewrite Hu, app_assoc. }
    2:{ exact Hs. }
    2:{ exact Hr. }
    2:{ intros a Hin. apply Ha. rewrite actions_of_app. apply elem_of_app. by right. }
    cbn [bind].
    rewrite IH.
    + rewrite actions_of_app, rev_app_distr.
      assert (rev (actions_of [r]) = actions_of [r]) as -> by (by destruct r).
      by rewrite (unwound_again _ _ _ _ Ht), unwound_unwound.
    + done.
    + done.
    + exact Hs.
    + exact Hp.
    + intros a Hin. apply Ha. rewrite actions_of_app. apply elem_of_app. by left.
    + by right.
Qed.

Lemma run_plus P fuel a b : ∀ m,
  run P (a + b) fuel m = bind (run P a fuel m) (run P b fuel).
Proof.
  induction a as [|a IH]; intros m; [done|].
  simpl. destruct (ticks m) as [|t rest] eqn:E.
  - destruct b; simpl; by rewrite ?E.
  - destruct (dispatch P fuel t (set_ticks rest m)); simpl; auto.
Qed.

(** Unwinding as far as it passes, whether or not there is anything to
    pass: what the next turn of [unwind] finds. *)
Lemma unwind_passes_to P fuel below above m :
  unwinding (state m) = below ++ above →
  ticks m = [boundUnwind] →
  strict_unwind (state m) = true →
  Forall (λ r, passed (truthy (err (state m))) r = true) above →
  (∀ a, a ∈ actions_of above → actions P a = Stop) →
  ∃ m1, run P (length above) (S (S fuel)) m = Done m1 ∧
    unwinding (state m1) = below ∧
    trace m1 = trace m ++ map ActionCalled (rev (actions_of above)) ∧
    ticks m1 = [boundUnwind] ∧
    (∀ st, set_isUnwinding true (set_unwinding st (state m1)) =
           set_isUnwinding true (set_unwinding st (state m))) ∧
    vars m1 = vars m ∧ latches m1 = latches m ∧ cspjsStack m1 = cspjsStack m.
Proof.
  intros Hu Ht Hs Hp Ha. destruct above as [|r above].
  - exists m. rewrite app_nil_r in Hu. simpl. by rewrite app_nil_r.
  - rewrite (unwind_passes P fuel below (r :: above) m) by (done || by left).
    eexists. split; [done|]. destruct m as [[] ? ? ? ? ?]. by simpl in *.
Qed.

(** X13: [callback(null, ...)], the return of a task, with cleanup actions,
    catch handlers and phi records on the unwind stack: at the ticks that
    follow, every cleanup action is called once, the newest first, no
    catch handler runs, and then the final callback is called with the
    arguments of [callback]; the task has finished with an empty stack. *)
Theorem return_runs_cleanup_actions P fuel m arguments f :
  ticks m = [] →
  isFinished (state m) = false →
  truthy (default VUndefined (head arguments)) = false →
  Forall (λ r, passed false r = true) (unwinding (state m)) →
  (∀ a, a ∈ actions_of (unwinding (state m)) → actions P a = Stop) →
  finalCallback P = Some f →
  f arguments = Stop →
  ∃ m',
    bind (call P 1 (callback arguments) m)
         (run P (length (unwinding (state m)) + 1) (S (S fuel))) = Done m' ∧
    trace m' = trace m ++ map ActionCalled (rev (actions_of (unwinding (state m)))) ++
               [FinalCallback arguments (state m')] ∧
    unwinding (state m') = [] ∧
    isFinished (state m') = true ∧
    waiting (state m') = 0 ∧
    args (state m') = arguments ∧
    ticks m' = [].
Proof.
  intros Ht Hfin Herr Hp Ha Hf Hstop. cbn [call bind].
  set (m0 := do_callback P arguments m).
  assert (Hm0 : m0 = nextTick boundUnwind
            (on_state (set_strict_unwind true)
               (on_state (set_err (default VUndefined (head arguments)))
                  (on_state (set_args arguments) m)))).
  { subst m0. unfold do_callback. simpl. by rewrite Herr. }
  clearbody m0. rewrite run_plus.
  destruct (unwind_passes_to P fuel [] (unwinding (state m)) m0)
    as (m1 & -> & Hu1 & Htr1 & Ht1 & Hst1 & _).
  { by subst m0. }
  { subst m0. simpl. by rewrite Ht. }
  { by subst m0. }
  { subst m0. simpl. by rewrite Herr. }
  { done. }
  subst m0.
  cbn [bind]. rewrite (run_tick _ _ _ _ _ _ Ht1). cbn [dispatch call].
  cbn [set_ticks state]. rewrite Hu1. cbn [pop rev].
  assert (isFinished (state m1) = false ∧ args (state m1) = arguments) as [Hfin1 Hargs1].
  { pose proof (Hst1 []) as E. destruct m1 as [[] ? ? ? ? ?], m as [[] ? ? ? ? ?].
    simpl in *. by simplify_eq. }
  rewrite Hfin1, Hf. cbn [on_state state set_isFinished set_waiting args set_ticks].
  rewrite Hargs1, Hstop. cbn [exec bind run].
  eexists. split; [done|]. simpl. rewrite Htr1. simpl.
  rewrite <- app_assoc. rewrite Hargs1. done.
Qed.

Lemma return_runs_cleanup_actions_witness :
  let P := mkProgram (fun _ => Stop) (fun _ => Stop) (Some (fun _ => Stop)) None false
                     (fun _ => None) in
  let m := mkMachine (mkSt 3 [VNull; VNull] VNull
                        [CleanupAction 0; ErrorStep (mkErrorStep 5 2 1); CleanupAction 1]
                        0 false false false None VNull) [] [] [] [] [] in
  ∃ m', bind (call P 1 (callback [VNull; VNum 42]) m) (run P 4 2) = Done m' ∧
    trace m' = [ActionCalled 1; ActionCalled 0; FinalCallback [VNull; VNum 42] (state m')] ∧
    isFinished (state m') = true.
Proof.
  intros P m.
  destruct (return_runs_cleanup_actions P 0 m [VNull; VNum 42] (fun _ => Stop))
    as (m' & E & Ht & _ & Hf & _).
  - reflexivity.
  - reflexivity.
  - reflexivity.
  - by repeat constructor.
  - reflexivity.
  - reflexivity.
  - reflexivity.
  - exists m'. split; [exact E|]. split; [exact Ht|exact Hf].
Defined.



(** X15: [retry(...)] in a catch handler, with the cleanup actions of the
    handler on the stack above the unwind point: at the ticks that follow
    they are called once each, the newest first; then the task goes to the
    retry step with no error, with null and the arguments of [retry] as
    its arguments, and with the error step back on the stack above the
    records that were below the unwind point. *)
Theorem retry_resumes_at_retry_step P fuel m arguments e below above :
  currentErrorStep (state m) = Some e →
  unwinding (state m) = below ++ above →
  length below = unwindPoint e →
  ticks m = [] →
  Forall (λ r, passed false r = true) above →
  (∀ a, a ∈ actions_of above → actions P a = Stop) →
  ∃ m',
    bind (call P 1 (retry arguments) m)
         (run P (length above + 1) (S (S fuel))) = Done m' ∧
    trace m' = trace m ++ map ActionCalled (rev (actions_of above)) ∧
    unwinding (state m') = below ++ [ErrorStep e] ∧
    id (state m') = Z.pos (retryStep e) ∧
    args (state m') = VNull :: arguments ∧
    err (state m') = VNull ∧
    currentErrorStep (state m') = None ∧
    isUnwinding (state m') = false ∧
    strict_unwind (state m') = false ∧
    waiting (state m') = waiting (state m) + 1 ∧
    ticks m' = [boundStep].
Proof.
  intros Hcur Hu Hlen Ht Hp Ha. cbn [call bind]. unfold do_retry. rewrite Hcur.
  match goal with |- context [Done ?t] => set (m0 := t) end.
  assert (Hm0 : state m0 = set_strict_unwind true (set_err VNull
                  (set_args (VNull :: arguments) (set_currentErrorStep None
                     (set_unwinding ((below ++ [ErrorStep e; Retry (retryStep e)]) ++ above)
                        (state m))))) ∧
                ticks m0 = [boundUnwind] ∧ trace m0 = trace m).
  { subst m0. simpl. rewrite Ht, Hu. unfold splice2.
    rewrite <- Hlen, take_app_length, drop_app_length. by rewrite <- app_assoc. }
  clearbody m0. destruct Hm0 as (Hst0 & Ht0 & Htr0). cbn [bind]. rewrite run_plus.
  destruct (unwind_passes_to P fuel (below ++ [ErrorStep e; Retry (retryStep e)]) above m0)
    as (m1 & -> & Hu1 & Htr1 & Ht1 & Hst1 & _).
  { by rewrite Hst0. }
  { done. }
  { by rewrite Hst0. }
  { by rewrite Hst0. }
  { done. }
  cbn [bind]. rewrite (run_tick _ _ _ _ _ _ Ht1). cbn [dispatch call].
  cbn [set_ticks state]. rewrite Hu1.
  replace (below ++ [ErrorStep e; Retry (retryStep e)])
    with ((below ++ [ErrorStep e]) ++ [Retry (retryStep e)]) by (by rewrite <- app_assoc).
  rewrite pop_snoc. cbn [bind run].
  eexists. split; [done|].
  pose proof (Hst1 (below ++ [ErrorStep e])) as E. rewrite Hst0 in E.
  destruct m1 as [[] ? ? ? ? ?], m as [[] ? ? ? ? ?]. simpl in *. simplify_eq.
  done.
Qed.

Lemma retry_resumes_at_retry_step_witness :
  let P := mkProgram (fun _ => Stop) (fun _ => Stop) (Some (fun _ => Stop)) None false
                     (fun _ => None) in
  let e := mkErrorStep 5 2 1 in
  let m := mkMachine (mkSt 5 [VStr "boom"] (VStr "boom") [CleanupAction 0; CleanupAction 1]
                        0 false false false (Some e) VNull) [] [] [] [] [] in
  ∃ m', bind (call P 1 (retry [VNum 1]) m) (run P 2 2) = Done m' ∧
    trace m' = [ActionCalled 1] ∧
    unwinding (state m') = [CleanupAction 0; ErrorStep e] ∧
    id (state m') = 2 ∧
    args (state m') = [VNull; VNum 1].
Proof.
  intros P e m.
  destruct (retry_resumes_at_retry_step P 0 m [VNum 1] e [CleanupAction 0] [CleanupAction 1])
    as (m' & E & Ht & Hu & Hi & Ha & _).
  - reflexivity.
  - reflexivity.
  - reflexivity.
  - reflexivity.
  - by repeat constructor.
  - reflexivity.
  - exists m'. split; [exact E|]. split; [exact Ht|]. split; [exact Hu|].
    split; [exact Hi|exact Ha].
Defined.

Lemma unwind_restores P fuel m rest old :
  has_state_vars P = true →
  unwinding (state m) = rest ++ [RestoreState old] →
  call P (S fuel) unwind m =
    call P fuel unwind
         (set_vars old (on_state (set_isUnwinding true) (on_state (set_unwinding rest) m))).
Proof.
  intros Hv Hu. cbn [call]. rewrite Hu, pop_snoc. unfold restoreStateVars. by rewrite Hv.
Qed.

(** X16: unwinding into a cleanup step (a finally block) and out of it: the
    variables saved when the step was pushed are put in place for the
    step, the variables of that moment are kept on the stack, and the turn
    of [unwind] that follows the step puts them back, whatever the step
    has assigned, before it goes on with the rest of the stack. *)
Theorem cleanup_step_restores_variables P fuel m rest st saved :
  has_state_vars P = true →
  unwinding (state m) = rest ++ [CleanupStep st saved] →
  ∃ m1, call P (S fuel) unwind m = Done m1 ∧
    vars m1 = saved ∧
    unwinding (state m1) = rest ++ [RestoreState (vars m)] ∧
    id (state m1) = Z.pos st ∧
    ticks m1 = ticks m ++ [boundStep] ∧
    trace m1 = trace m ∧
    ∀ l fuel',
      call P (S fuel') unwind (set_vars l m1) =
      call P fuel' unwind
           (set_vars (vars m)
              (on_state (set_isUnwinding true) (on_state (set_unwinding rest) m1))).
Proof.
  intros Hv Hu.
  exists (do_goTo st (set_vars saved (push (RestoreState (vars m))
            (on_state (set_isUnwinding true) (on_state (set_unwinding rest) m))))).
  split.
  { cbn [call]. rewrite Hu, pop_snoc.
    unfold do_beginCleanup, captureStateVars, restoreStateVars. by rewrite Hv. }
  do 5 (split; [done|]).
  intros l fuel'. by rewrite (unwind_restores P fuel' _ rest (vars m)).
Qed.

Lemma cleanup_step_restores_variables_witness :
  let P := mkProgram (fun _ => Stop) (fun _ => Stop) None None true (fun _ => None) in
  let m := mkMachine (mkSt 3 [VNull; VNull] VNull [CleanupStep 7 [VNum 1]]
                        0 false false true None VNull) [VNum 2] [] [] [] [] in
  ∃ m1, call P 1 unwind m = Done m1 ∧
    vars m1 = [VNum 1] ∧
    unwinding (state m1) = [RestoreState [VNum 2]] ∧
    id (state m1) = 7.
Proof.
  intros P m.
  destruct (cleanup_step_restores_variables P 0 m [] 7%positive [VNum 1])
    as (m1 & E & Hv & Hu & Hi & _).
  - reflexivity.
  - reflexivity.
  - exists m1. split; [exact E|]. split; [exact Hv|]. split; [exact Hu|exact Hi].
Defined.

(** ** The callbacks of [thenTo] *)

Lemma called_same k m m' : latches m' = latches m → called k m → called k m'.
Proof. intros E (l & H & Hd). exists l. by rewrite E. Qed.

Lemma called_new_latch k m l :
  called k m → called k (set_latches (latches m ++ [l]) m).
Proof. intros (l' & H & Hd). exists l'. split; [|done]. simpl. by apply lookup_app_l_Some. Qed.

Lemma called_mark k k' m l :
  latches m !! k' = Some l →
  k = k' ∨ called k m →
  called k (set_latches (<[k' := mkLatch (l_id l) (l_withErr l) true]> (latches m)) m).
Proof.
  intros Hk' H. destruct (decide (k = k')) as [->|Hne].
  - exists (mkLatch (l_id l) (l_withErr l) true). split; [|done]. simpl.
    apply list_lookup_insert_eq. by eapply lookup_lt_Some.
  - destruct H as [|(l' & H & Hd)]; [done|]. exists l'. split; [|done]. simpl.
    by rewrite list_lookup_insert_ne.
Qed.

Lemma latches_do_callback P a m : latches (do_callback P a m) = latches m.
Proof.
  unfold do_callback.
  destruct (truthy _); [destruct (instanceof_Error P _); destruct (onerror P)|];
    reflexivity.
Qed.

Section Called.

Variable P : program.
Variable k : nat.

Lemma called_exec_call fuel :
  (∀ s m, called k m → post (called k) (exec P fuel s m)) ∧
  (∀ c m, called k m → post (called k) (call P fuel c m)) ∧
  (∀ k' arguments m, k' = k → (∃ l, latches m !! k = Some l) →
     post (called k) (call P fuel (resume k' arguments) m)).
Proof.
  induction fuel as [|fuel (IHe & IHc & _)]; [done|].
  assert (Habort : ∀ m, called k m →
            post (called k) (exec P fuel (fn P [abort_with_error (state m)])
                               (on_state (set_abort_with_error VNull) m))).
  { intros m Hm. apply IHe. by eapply called_same. }
  assert (Hresume : ∀ k' arguments m, (∃ l, latches m !! k' = Some l) →
            k = k' ∨ called k m →
            post (called k) (call P (S fuel) (resume k' arguments) m)).
  { intros k' arguments m [l Hl] Hm. cbn [call]. rewrite Hl.
    destruct (l_done l) eqn:Hd.
    - simpl. destruct Hm as [-> | Hm]; [by exists l|]. by eapply called_same.
    - assert (called k (on_state (set_id (Z.pos (l_id l)))
                (set_latches (<[k' := mkLatch (l_id l) (l_withErr l) true]>
                                (latches (on_state (λ s, set_waiting (waiting s - 1) s) m)))
                   (on_state (λ s, set_waiting (waiting s - 1) s) m)))) as Hm'.
      { eapply called_same; [|eapply (called_mark k k' _ l Hl)]; [done|].
        destruct Hm as [|Hm]; [by left|right]. by eapply called_same. }
      destruct (truthy _); [|destruct (l_withErr l)].
      + apply (Habort _ Hm').
      + by apply IHe.
      + by apply IHe. }
  split; [|split].
  - intros [|e|c s|c s h|s] m Hm; simpl.
    + done.
    + done.
    + apply post_bind; [by apply IHc|]. intros; by apply IHe.
    + specialize (IHc c m Hm). destruct (call P fuel c m); simpl in *; [| |done]; by apply IHe.
    + by apply IHe.
  - intros c m Hm.
    destruct c;
      lazymatch goal with
      | |- post _ (call _ _ (resume _ _) _) => idtac
      | _ => cbn [call]
      end;
      try (by simpl; eapply called_same; [|exact Hm]).
    + (* do_step *)
      destruct (truthy _).
      * apply Habort. by eapply called_same.
      * apply IHe. by eapply called_same.
    + (* thenTo *)
      simpl. eapply called_same; [|by apply called_new_latch]. done.
    + (* thenToWithErr *)
      simpl. eapply called_same; [|by apply called_new_latch]. done.
    + (* resume *)
      destruct (latches m !! k0) as [l|] eqn:Hl.
      * apply Hresume; [by exists l|by right].
      * cbn [call]. by rewrite Hl.
    + (* callback *)
      simpl. eapply called_same; [|exact Hm]. apply latches_do_callback.
    + (* unwind *)
      destruct (pop (unwinding (state m))) as [[r rest]|] eqn:Hpop.
      * destruct r as [saved|r|p saved|e|a|st saved].
        -- unfold restoreStateVars. destruct (has_state_vars P); simpl.
           ++ apply IHc. by eapply called_same.
           ++ by eapply called_same.
        -- simpl. by eapply called_same.
        -- destruct (_ || _); simpl; by eapply called_same.
        -- destruct (truthy _); simpl; by eapply called_same.
        -- apply post_bind.
           ++ apply IHe. by eapply called_same.
           ++ intros m' Hm'. simpl. by eapply called_same.
        -- unfold do_beginCleanup, captureStateVars, restoreStateVars.
           destruct (has_state_vars P); simpl; by eapply called_same.
      * destruct (isFinished (state m)) eqn:Hfin; [done|].
        destruct (finalCallback P) as [f|] eqn:Hf.
        -- apply IHe. by eapply called_same.
        -- simpl. by eapply called_same.
    + (* pushCleanupStep *)
      unfold captureStateVars. destruct (has_state_vars P); simpl; by eapply called_same.
    + (* beginCleanup *)
      unfold do_beginCleanup, captureStateVars, restoreStateVars.
      destruct (has_state_vars P); simpl; by eapply called_same.
    + (* retry *)
      unfold do_retry. destruct (currentErrorStep _); simpl; by eapply called_same.
    + (* pushPhi *)
      unfold do_pushPhi, captureStateVars.
      destruct captureState, (has_state_vars P); simpl; by eapply called_same.
    + (* abort *)
      destruct (0 <? _); simpl; eapply called_same; try exact Hm; [done|].
      apply latches_do_callback.
  - intros k' arguments m -> Hl. apply Hresume; [done|by left].
Qed.

Lemma called_session fuel inputs : ∀ m,
  called k m → post (called k) (session P fuel inputs m).
Proof.
  destruct (called_exec_call fuel) as (He & Hc & _).
  induction inputs as [|[|s] inputs IH]; intros m Hm; [done| |].
  - simpl. destruct (ticks m) as [|t rest]; [by apply IH|].
    apply post_bind; [|done].
    destruct t; simpl.
    + apply Hc. by eapply called_same.
    + apply Hc. by eapply called_same.
    + destruct (onerror P); [|by eapply called_same]. apply He. by eapply called_same.
  - simpl. apply post_bind; [by apply He|done].
Qed.

Lemma resume_called fuel arguments m :
  called k m →
  call P (S fuel) (resume k arguments) m = Done (emit ConsoleError (one_less_waiting m)).
Proof. intros (l & Hl & Hd). cbn [call]. by rewrite Hl, Hd. Qed.

End Called.

Lemma post_mono (Q R : machine → Prop) o : (∀ m, Q m → R m) → post Q o → post R o.
Proof. intros H. destruct o; simpl; auto. Qed.

(** X17: the callback that [thenTo] or [thenToWithErr] made as latch [k]
    works once.  After its first call, whatever the step function did in
    that call and whatever happens to the task afterwards, every further
    call of it only logs 'Callback called repeatedly!' and decrements
    [waiting]: it does not run the step function. *)
Theorem repeated_callback_is_ignored P fuel fuel' m k arguments l :
  latches m !! k = Some l →
  post (λ m1, ∀ inputs,
          post (λ m2, ∀ arguments' fuel'',
                  call P (S fuel'') (resume k arguments') m2 =
                    Done (emit ConsoleError (one_less_waiting m2)))
               (session P fuel' inputs m1))
       (call P fuel (resume k arguments) m).
Proof.
  intros Hl.
  destruct (called_exec_call P k fuel) as (_ & _ & Hr).
  eapply post_mono; [|apply (Hr k arguments m eq_refl); by exists l].
  intros m1 Hm1 inputs.
  eapply post_mono; [|by apply called_session].
  intros m2 Hm2 arguments' fuel''. by apply resume_called.
Qed.

Lemma repeated_callback_is_ignored_witness :
  let P := mkProgram (fun _ => Do (goTo 2) Stop) (fun _ => Stop) None None false
                     (fun _ => None) in
  let m := mkMachine (mkSt 1 [VNull; VNull] VNull [] 1 false false false None VNull)
                     [] [mkLatch 2 false false] [] [] [] in
  ∃ m1 m2,
    call P 3 (resume 0 [VNum 1]) m = Done m1 ∧
    session P 3 [tick] m1 = Done m2 ∧
    call P 1 (resume 0 [VNum 2]) m2 = Done (emit ConsoleError (one_less_waiting m2)).
Proof.
  intros P m.
  pose proof (repeated_callback_is_ignored P 3 3 m 0 [VNum 1] (mkLatch 2 false false) eq_refl)
    as H.
  let o := eval vm_compute in (call P 3 (resume 0 [VNum 1]) m) in
  lazymatch o with
  | Done ?m1 =>
      assert (E1 : call P 3 (resume 0 [VNum 1]) m = Done m1) by (vm_compute; reflexivity);
      rewrite E1 in H; cbn [post] in H; specialize (H [tick]);
      let o2 := eval vm_compute in (session P 3 [tick] m1) in
      lazymatch o2 with
      | Done ?m2 =>
          assert (E2 : session P 3 [tick] m1 = Done m2) by (vm_compute; reflexivity);
          rewrite E2 in H; cbn [post] in H;
          exists m1, m2; split; [exact E1|]; split; [exact E2|]; apply H
      end
  end.
Defined.

(** X18: [abort(err)] from the control API.  While the task waits for a
    step, it only records [err]; the step that comes next, through
    [goTo] or through a [thenTo] callback, then calls the step function
    with [err] alone, not with the arguments it was given, and clears the
    record.  An [err] that is falsy leaves no record: the step runs as if
    [abort] had not been called.  When the task does not wait, [abort] is
    [callback(err)]. *)
Theorem abort_reaches_next_step P fuel m e :
  (0 < waiting (state m) →
   call P 1 (abort e) m = Done (on_state (set_abort_with_error e) m) ∧
   call P (S fuel) do_step (on_state (set_abort_with_error e) m) =
     if truthy e then
       exec P fuel (fn P [e]) (on_state (set_abort_with_error VNull) (one_less_waiting m))
     else
       exec P fuel (fn P (args (state m)))
            (on_state (set_abort_with_error e) (one_less_waiting m))) ∧
  (waiting (state m) ≤ 0 →
   call P 1 (abort e) m = call P 1 (callback [e]) m).
Proof.
  split.
  - intros Hw. cbn [call].
    replace (0 <? waiting (state m)) with true by (symmetry; by apply Z.ltb_lt).
    split; [done|]. simpl. destruct (truthy e); reflexivity.
  - intros Hw. cbn [call].
    by replace (0 <? waiting (state m)) with false by (symmetry; by apply Z.ltb_ge).
Qed.

Lemma abort_reaches_next_step_witness :
  let P := mkProgram (fun a => Do (callback a) Stop) (fun _ => Stop) None None false
                     (fun _ => None) in
  let m := mkMachine (mkSt 1 [VNull; VNum 5] VNull [] 1 false false false None VNull)
                     [] [] [boundStep] [] [] in
  ∃ m1 m2, call P 1 (abort (VStr "stop")) m = Done m1 ∧
    call P 3 do_step m1 = Done m2 ∧
    args (state m2) = [VStr "stop"] ∧ abort_with_error (state m2) = VNull.
Proof.
  intros P m.
  destruct (abort_reaches_next_step P 2 m (VStr "stop")) as [H _].
  destruct H as [E1 E2]; [reflexivity|].
  eexists _, _. split; [exact E1|]. split; [exact E2|]. split; reflexivity.
Defined.

End UnwindingFacts.

Module JumpTableFacts.

Import StateMachine StateMachineFacts.
Import JumpTable (JumpTable, mkJumpTable, cases, blockSizes, stepIDs, beyondID, js_round,
                  Infinity, js_add, mark, blocks, new_JumpTable, unhandled_case, jumpToCase, returned, Returns, Throws,
                  jumpTable, block_start, last_block_of).
Import Channel (value, VUndefined, VNull, VBool, VNum, VStr, VRef, truthy).

Lemma mark_lookup sum ci : ∀ ids v,
  mark sum ci ids !! v = if decide (v ∈ ci) then Some sum else ids !! v.
Proof.
  unfold mark. induction ci as [|x ci IH]; intros ids v; simpl.
  - destruct (decide (v ∈ [])) as [H|]; [by apply elem_of_nil in H|done].
  - rewrite IH. destruct (decide (v ∈ ci)) as [Hin|Hout].
    + rewrite decide_True; [done|]. by right.
    + destruct (decide (v = x)) as [->|Hne].
      * rewrite lookup_insert_eq. rewrite decide_True; [done|]. by left.
      * rewrite lookup_insert_ne by done. rewrite decide_False; [done|].
        intros [?|?]%elem_of_cons; done.
Qed.

Lemma block_start_0 sum sizes : block_start sum sizes 0 = sum.
Proof. by destruct sizes. Qed.

Lemma block_start_le sizes : ∀ sum j, (sum ≤ block_start sum sizes j)%positive.
Proof.
  induction sizes as [|size sizes IH]; intros sum j.
  - destruct j; simpl; lia.
  - destruct j; simpl; [lia|]. etransitivity; [|apply IH]. lia.
Qed.

Lemma block_start_lt sizes : ∀ sum i j,
  (i < j ≤ length sizes)%nat → (block_start sum sizes i < block_start sum sizes j)%positive.
Proof.
  induction sizes as [|size sizes IH]; intros sum i j Hij; [simpl in Hij; lia|].
  destruct j as [|j]; [lia|]. destruct i as [|i]; simpl.
  - pose proof (block_start_le sizes (sum + N.succ_pos size) j). lia.
  - apply IH. simpl in Hij. lia.
Qed.

(** ** The sums of doubles *)

Lemma Infinity_eq : Z.pos Infinity = 2 ^ 1024.
Proof. reflexivity. Qed.

(** Up to [2^53] the sum of two doubles is the sum of the integers. *)
Lemma js_add_exact x y :
  Z.pos x + Z.of_N y ≤ 2 ^ 53 → Z.pos (js_add x y) = Z.pos x + Z.of_N y.
Proof.
  intros H. unfold js_add.
  assert (js_round (Z.pos x + Z.of_N y) = Z.pos x + Z.of_N y) as ->.
  { unfold js_round. destruct (Z.ltb_spec (Z.pos x + Z.of_N y) (2 ^ 53)) as [|Hge]; [done|].
    replace (Z.pos x + Z.of_N y) with (2 ^ 53) by lia. reflexivity. }
  rewrite Infinity_eq.
  destruct (Z.leb_spec (2 ^ 1024) (Z.pos x + Z.of_N y)); lia.
Qed.

(** [sum += 1 + blockSizes[i]] while it is exact. *)
Lemma next_block_exact sum size :
  Z.pos (sum + N.succ_pos size) ≤ 2 ^ 53 →
  js_add sum (N.pos (js_add 1 size)) = (sum + N.succ_pos size)%positive.
Proof.
  intros H.
  assert (Z.pos (N.succ_pos size) = 1 + Z.of_N size) as Hs by (destruct size; simpl; lia).
  assert (Z.pos (js_add 1 size) = 1 + Z.of_N size) as H1 by (apply js_add_exact; lia).
  apply Pos2Z.inj. rewrite js_add_exact; simpl Z.of_N; lia.
Qed.

(** The loop over the blocks returns when every block has its cases. *)
Lemma blocks_returns cases sizes : ∀ i sum ids,
  (i + length sizes ≤ length cases)%nat → is_Some (blocks cases sizes i sum ids).
Proof.
  induction sizes as [|size sizes IH]; intros i sum ids Hlen; [by eexists|].
  cbn [blocks length]. cbn [length] in Hlen.
  destruct (cases !! i) as [ci|] eqn:Hci.
  - apply IH. lia.
  - apply lookup_ge_None in Hci. lia.
Qed.

(** The loop over the blocks, while its sums are exact. *)
Lemma blocks_spec cases sizes : ∀ i sum ids,
  (i + length sizes ≤ length cases)%nat →
  Z.pos (block_start sum sizes (length sizes)) ≤ 2 ^ 53 →
  ∃ ids',
    blocks cases sizes i sum ids = Some (ids', block_start sum sizes (length sizes)) ∧
    ∀ v,
      ((∀ j cj, (i ≤ j < i + length sizes)%nat → cases !! j = Some cj → v ∉ cj) →
       ids' !! v = ids !! v) ∧
      (∀ j, (i ≤ j)%nat → last_block_of cases (i + length sizes) v j →
       ids' !! v = Some (block_start sum sizes (j - i))).
Proof.
  induction sizes as [|size sizes IH]; intros i sum ids Hlen Hexact.
  - exists ids. split; [done|]. intros v. split; [done|].
    intros j Hj (Hlt & _). simpl in Hlt. lia.
  - cbn [blocks length]. cbn [length block_start] in Hlen, Hexact.
    destruct (cases !! i) as [ci|] eqn:Hci.
    2:{ apply lookup_ge_None in Hci. lia. }
    rewrite next_block_exact.
    2:{ pose proof (block_start_le sizes (sum + N.succ_pos size) (length sizes)). lia. }
    destruct (IH (S i) (sum + N.succ_pos size)%positive (mark sum ci ids)) as (ids' & E & H);
      [lia|done|].
    exists ids'. split; [by rewrite E|].
    intros v. destruct (H v) as [Hnone Hlast]. split.
    + intros Hout. rewrite Hnone.
      * rewrite mark_lookup, decide_False; [done|]. apply (Hout i); [lia|done].
      * intros j cj Hj. apply Hout. lia.
    + intros j Hj (Hlt & (cj & Hcj & Hin) & Hlater).
      destruct (decide (j = i)) as [->|Hne].
      * rewrite Nat.sub_diag. cbn [block_start]. rewrite Hnone.
        -- rewrite mark_lookup, decide_True; [done|]. by simplify_eq.
        -- intros j' cj' Hj'. apply Hlater. lia.
      * replace (j - i)%nat with (S (j - S i)) by lia. cbn [block_start].
        apply Hlast; [lia|]. split; [lia|]. split; [by exists cj|].
        intros j' cj' Hj'. apply Hlater. lia.
Qed.

(** X19: [new JumpTable(id, cases, blockSizes)] with a case list for every
    block size, for an [id] and block sizes whose sum, with one more step
    for each block, stays within [2^53], where the sums of the constructor
    are exact.  It lays the blocks out one after the other from [id + 1],
    each with its steps and one more step for its phi: a case value jumps
    to the first step of the last block that lists it, a step strictly
    between [id] and [beyondID]; later blocks start later; a case value
    that no block lists has no step; and [beyondID] is the first step
    after the last block. *)
Theorem JumpTable_layout id cases sizes :
  (length sizes ≤ length cases)%nat →
  Z.pos (block_start (id + 1) sizes (length sizes)) ≤ 2 ^ 53 →
  ∃ t, new_JumpTable id cases sizes = Some t ∧
    JumpTable.id t = id ∧
    beyondID t = block_start (id + 1) sizes (length sizes) ∧
    (∀ v i, last_block_of cases (length sizes) v i →
       stepIDs t !! v = Some (block_start (id + 1) sizes i) ∧
       (id < block_start (id + 1) sizes i < beyondID t)%positive) ∧
    (∀ i j, (i < j ≤ length sizes)%nat →
       (block_start (id + 1) sizes i < block_start (id + 1) sizes j)%positive) ∧
    (∀ v, (∀ j cj, (j < length sizes)%nat → cases !! j = Some cj → v ∉ cj) →
       stepIDs t !! v = None).
Proof.
  intros Hlen Hexact. unfold new_JumpTable.
  assert (js_add id 1 = (id + 1)%positive) as ->.
  { pose proof (block_start_le sizes (id + 1) (length sizes)).
    apply Pos2Z.inj. rewrite js_add_exact; simpl Z.of_N; lia. }
  destruct (blocks_spec cases sizes 0 (id + 1)%positive ∅ Hlen Hexact) as (ids & -> & H).
  eexists. split; [done|]. cbn [JumpTable.id beyondID stepIDs].
  split; [done|]. split; [done|]. split; [|split].
  - intros v i Hi. destruct (H v) as [_ Hlast].
    specialize (Hlast i (Nat.le_0_l _) Hi). rewrite Nat.sub_0_r in Hlast.
    split; [done|]. destruct Hi as (Hlt & _). split.
    + pose proof (block_start_le sizes (id + 1) i). lia.
    + apply block_start_lt. lia.
  - intros i j Hij. by apply block_start_lt.
  - intros v Hout. destruct (H v) as [Hnone _]. rewrite Hnone; [done|].
    intros j cj Hj. apply Hout. lia.
Qed.

Lemma JumpTable_layout_witness :
  ∃ t, new_JumpTable 10 [[1; 2]; [3]] [2%N; 4%N] = Some t ∧
    stepIDs t !! 2 = Some 11%positive ∧
    stepIDs t !! 3 = Some 14%positive ∧
    beyondID t = 19%positive.
Proof.
  destruct (JumpTable_layout 10 [[1; 2]; [3]] [2%N; 4%N]) as (t & E & _ & Hb & Hs & _).
  - simpl. lia.
  - simpl. lia.
  - exists t. split; [exact E|].
    split; [|split; [|exact Hb]].
    + apply (Hs 2 0%nat). split; [simpl; lia|]. split.
      * exists [1; 2]. split; [reflexivity|]. apply list_elem_of_In. simpl. tauto.
      * intros j cj Hj Hc. destruct j as [|[|j]]; [lia| |simpl in Hj; lia].
        injection Hc as <-. intros Hin%list_elem_of_In. simpl in Hin.
        destruct Hin as [Hin|[]]. discriminate Hin.
    + apply (Hs 3 1%nat). split; [simpl; lia|]. split.
      * exists [3]. split; [reflexivity|]. apply list_elem_of_In. simpl. tauto.
      * intros j cj Hj Hc. simpl in Hj. lia.
Defined.

(** Past [2^53] the sums round: from [id = 2^53] the step of the only
    block and [beyondID] are [id] itself. *)
Lemma JumpTable_sums_round :
  ∃ t, new_JumpTable (2 ^ 53) [[1]] [0%N] = Some t ∧
    stepIDs t !! 1 = Some (2 ^ 53)%positive ∧
    beyondID t = (2 ^ 53)%positive.
Proof. eexists. split; [vm_compute; reflexivity|]. split; vm_compute; reflexivity. Qed.

Lemma blocks_short cases sizes : ∀ i sum ids,
  (i ≤ length cases < i + length sizes)%nat → blocks cases sizes i sum ids = None.
Proof.
  induction sizes as [|size sizes IH]; intros i sum ids Hlen; [simpl in Hlen; lia|].
  cbn [blocks]. destruct (cases !! i) as [ci|] eqn:Hci; [|done].
  apply IH. apply lookup_lt_Some in Hci. simpl in Hlen. lia.
Qed.



(** X21: [jumpTable(id, cases, blockSizes)] with a case list for every
    block size builds the table and keeps it in the cache of the task
    function under [id]; [jumpTable(id)] then returns that table and
    leaves the cache as it is, and the tables of other ids are the ones
    that were there.  With fewer case lists than block sizes it throws
    and the cache is not written.  [jumpTable(id)] for an id that has no
    table returns undefined. *)
Theorem jumpTable_caches assert_throws id cases sizes cache :
  (length cases = length sizes →
   ∃ t cache',
     jumpTable assert_throws id (Some (cases, sizes)) cache = Returns (Some t) cache' ∧
     new_JumpTable id cases sizes = Some t ∧
     jumpTable assert_throws id None cache' = Returns (Some t) cache' ∧
     ∀ id', id' ≠ id →
       jumpTable assert_throws id' None cache' = Returns (cache !! id') cache') ∧
  ((length cases < length sizes)%nat →
   ∃ e, jumpTable assert_throws id (Some (cases, sizes)) cache = Throws e) ∧
  (cache !! id = None → jumpTable assert_throws id None cache = Returns None cache).
Proof.
  split; [|split].
  - intros Hlen. unfold jumpTable.
    replace (length cases =? length sizes)%nat with true
      by (symmetry; by apply Nat.eqb_eq).
    rewrite andb_false_r.
    unfold new_JumpTable.
    destruct (blocks_returns cases sizes 0 (js_add id 1) ∅) as ([ids sum] & ->); [simpl; lia|].
    eexists _, (<[id := _]> cache). split; [done|]. split; [done|].
    split; [by rewrite lookup_insert_eq|].
    intros id' Hne. by rewrite lookup_insert_ne.
  - intros Hlen. unfold jumpTable.
    destruct (assert_throws && _); [by eexists|].
    unfold new_JumpTable. rewrite blocks_short by (simpl; lia). by eexists.
  - intros Hnone. unfold jumpTable. by rewrite Hnone.
Qed.

Lemma jumpTable_caches_witness :
  ∃ t cache',
    jumpTable true 10 (Some ([[1; 2]; [3]], [2%N; 4%N])) ∅ = Returns (Some t) cache' ∧
    jumpTable true 10 None cache' = Returns (Some t) cache'.
Proof.
  destruct (jumpTable_caches true 10 [[1; 2]; [3]] [2%N; 4%N] ∅) as [H _].
  destruct (H eq_refl) as (t & cache' & E1 & _ & E2 & _).
  exists t, cache'. split; [exact E1|exact E2].
Defined.

End JumpTableFacts.

Module DebounceFacts.

Import Channel (loc, value, callback, VNull, VNum, VStr, User, fill_fn, fill_proto, noop,
                TypeError, fill_error).
Import Debounce.

Lemma lookup_upd_wrapper f this w :
  wrappers (upd_wrapper f this w) !! this = f <$> wrappers w !! this.
Proof. unfold upd_wrapper. simpl. by rewrite list_lookup_alter_eq. Qed.

(** [debouncingPut] sets a timer, and nothing else: the channels are as
    they were, and so is the backlog. *)
Lemma debouncingPut_sets_a_timer this o v cb w :
  wrappers w !! this = Some o →
  ∃ w', debouncingPut_body this v cb w = Done w' ∧
    channels w' = channels w ∧
    wrappers w' !! this = Some (with_timer (Some (next_timer w)) o) ∧
    backlog w' this = backlog w this.
Proof.
  intros Hw. unfold debouncingPut_body. rewrite Hw.
  destruct (_timer o) as [id|] eqn:Ht.
  - eexists. split; [done|]. split; [done|].
    assert (wrappers (upd_wrapper (with_timer (Some (next_timer w))) this
              (setTimeout (_debounceInterval_ms o) this v cb
                 (upd_wrapper (with_timer None) this (clearTimeout id w))).2) !! this
            = Some (with_timer (Some (next_timer w)) o)) as H.
    { simpl. rewrite !list_lookup_alter_eq, Hw. done. }
    split; [exact H|]. unfold backlog. simpl in *. rewrite H, Hw. done.
  - eexists. split; [done|]. split; [done|].
    assert (wrappers (upd_wrapper (with_timer (Some (next_timer w))) this
              (setTimeout (_debounceInterval_ms o) this v cb w).2) !! this
            = Some (with_timer (Some (next_timer w)) o)) as H.
    { simpl. rewrite !list_lookup_alter_eq, Hw. done. }
    split; [exact H|]. unfold backlog. simpl in *. rewrite H, Hw. done.
Qed.

(** The loop of [fill] with [debouncingPut] as [origPut] and a taker
    waiting: no number of turns ends it. *)
Lemma fill_loop_debounced_never_ends this v bl fuel : ∀ w o,
  wrappers w !! this = Some o → backlog w this = Some bl → bl < 0 →
  fill_loop fuel debouncingPut this v w = OutOfFuel.
Proof.
  induction fuel as [|fuel IH]; intros w o Hw Hb Hbl; [done|].
  cbn [fill_loop]. rewrite Hb.
  replace (bl <? 0) with true by (symmetry; by apply Z.ltb_lt).
  cbn [put_with].
  destruct (debouncingPut_sets_a_timer this o v None w Hw) as (w' & -> & _ & Hw' & Hb').
  cbn [bind]. eapply IH; [done| |done]. by rewrite Hb'.
Qed.

(** X23: [fill(v)] on a debounced channel that has not been filled, while
    a taker waits on its channel, never returns: the loop that is to
    satisfy the waiting takers calls the [put] that the channel had,
    [debouncingPut], which sets a timer and leaves the takers waiting, so
    the backlog stays negative, whatever the number of turns. *)
Theorem fill_debounced_never_returns this o v bl w :
  wrappers w !! this = Some o →
  own_put o = debouncingPut → own_fill o = None →
  Channel.method_fill (channels w) (_channel o) = fill_proto →
  backlog w this = Some bl → bl < 0 →
  ∀ fuel, fill fuel this v w = OutOfFuel.
Proof.
  intros Hw Hp Hf Hm Hb Hbl fuel. unfold fill, method_fill. rewrite Hw, Hf, Hm.
  unfold Channel_fill. rewrite Hw, Hb.
  replace (0 <? bl) with false by (symmetry; apply Z.ltb_ge; lia).
  rewrite Hp.
  eapply (fill_loop_debounced_never_ends this v bl).
  - by rewrite lookup_upd_wrapper, Hw.
  - unfold backlog in *. rewrite lookup_upd_wrapper, Hw in *. done.
  - done.
Qed.

(** [ch = new Channel(); ch.take(cb); d = ch.debounce(100); d.fill(4)]:
    the backlog of [d] is -1, and [fill] never returns. *)
Lemma fill_debounced_example :
  ∃ w, waiter_then_debounce 100 = Done w ∧
    backlog w 0 = Some (-1) ∧
    ∀ fuel, fill fuel 0 (VNum 4) w = OutOfFuel.
Proof.
  eexists. split; [reflexivity|]. split; [reflexivity|].
  eapply (fill_debounced_never_returns 0 _ (VNum 4) (-1));
    [reflexivity|reflexivity|reflexivity|reflexivity|reflexivity|lia].
Defined.

End DebounceFacts.
